(** * DVRP_2D: the visibility-graph route planner and the routing interfaces

    A shallow embedding of [src/algorithms/test.py] (geometry kernel,
    visibility-graph builder, A*-style search, recursive refinement) and of
    the parts of [src/algorithms/routing.py] that compute routes, route
    lengths and route feasibility.

    Conventions of the embedding.
    - Points are pairs of Python integers (the coordinates [pygame] hands
      out), hence [Z * Z]; tuple comparison is lexicographic.
    - Python lists are [list]s; [l[i]] is stdpp's lookup [l !! i] and raises
      [IndexError] out of range; [l[i] = v] is stdpp's insert, guarded by the
      same range test.
    - Exceptions and loops: a computation returns an [outcome], either a
      value, a raised exception, or [OutOfFuel] when the fuel given to a
      [while] loop or to the recursion is exhausted.
    - [math.hypot] returns a binary64 float.  Costs are modelled as integers
      (a count of units of some fixed resolution) with exact addition, and the
      distance function is a parameter of the planner. *)

From Stdlib Require Import ZArith QArith Lia Lqa.
From stdpp Require Import base tactics option list numbers.

Local Open Scope Z_scope.

(** ** Outcomes of Python computations *)

Inductive exn : Type := TypeError | IndexError | ZeroDivisionError.

Inductive outcome (A : Type) : Type :=
  | Ret (a : A)
  | Raise (e : exn)
  | OutOfFuel.

Arguments Ret {A} a.
Arguments Raise {A} e.
Arguments OutOfFuel {A}.

#[global] Instance outcome_ret : MRet outcome := fun A a => Ret a.

#[global] Instance outcome_bind : MBind outcome := fun A B k m =>
  match m with
  | Ret a => k a
  | Raise e => Raise e
  | OutOfFuel => OutOfFuel
  end.

(** [l[i]] for a non-negative index. *)
Definition get_item {A : Type} (l : list A) (i : nat) : outcome A :=
  match l !! i with
  | Some a => Ret a
  | None => Raise IndexError
  end.

(** [l[i] = a] for a non-negative index. *)
Definition set_item {A : Type} (l : list A) (i : nat) (a : A) : outcome (list A) :=
  if decide (i < length l)%nat then Ret (<[i:=a]> l) else Raise IndexError.

(** ** Geometry kernel *)

Definition Point : Type := Z * Z.
Definition Segment : Type := Point * Point.
Abbreviation Polygon := (list Point).

Definition pt_eqb (a b : Point) : bool :=
  (a.1 =? b.1) && (a.2 =? b.2).

(** Tuple order [a < b]. *)
Definition pt_ltb (a b : Point) : bool :=
  (a.1 <? b.1) || ((a.1 =? b.1) && (a.2 <? b.2)).

Definition vector (a b : Point) : Point := (b.1 - a.1, b.2 - a.2).

Definition ccw (A B C : Point) : Z :=
  let a := vector A B in
  let b := vector A C in
  a.1 * b.2 - a.2 * b.1.

(** not cross : 0, cross : 1, overlap : 2 *)
Definition segments_intersect (l1 l2 : Segment) : Z :=
  let '(A, B) := l1 in
  let '(C, D) := l2 in
  let '(A, B) := if pt_ltb B A then (B, A) else (A, B) in
  let '(C, D) := if pt_ltb D C then (D, C) else (C, D) in
  let abc := ccw A B C in
  let abd := ccw A B D in
  let cda := ccw C D A in
  let cdb := ccw C D B in
  let x := abc * abd in
  let y := cda * cdb in
  if (abc =? abd) && (abd =? 0) then
    if pt_ltb B C || pt_ltb D A then 0
    else if pt_eqb B C || pt_eqb D A then 1
    else 2
  else if (x <=? 0) && (y <=? 0) then 1
  else 0.

(** [polygon[i]] for [-len <= i < len]; the loops below stay in that range. *)
Definition item (polygon : Polygon) (i : Z) : Point :=
  let k := if i <? 0 then i + Z.of_nat (length polygon) else i in
  default (0, 0) (polygon !! Z.to_nat k).

(** One iteration of the loop of [segment_intersects_polygon]. *)
Definition sip_step (line : Segment) (polygon : Polygon) (result : Z) (i : nat) : Z :=
  let cur := item polygon (Z.of_nat i) in
  let prev := item polygon (Z.of_nat i - 1) in
  if pt_eqb line.1 cur || pt_eqb line.2 cur || pt_eqb line.1 prev || pt_eqb line.2 prev
  then Z.max result 1
  else if negb (segments_intersect line (prev, cur) =? 0) then 2
  else result.

(** not cross : 0, touch : 1, intersect : 2 *)
Definition segment_intersects_polygon (line : Segment) (polygon : Polygon) : Z :=
  foldl (sip_step line polygon) 0 (seq 0 (length polygon)).

(** [is_in_polygon]: the parity of the number of edges of the polygon met by
    the segment from [p] to [(int(1e9), p[1]+1)]. *)
Definition is_in_polygon (polygon : Polygon) (p : Point) : bool :=
  let v := (p, (10 ^ 9, p.2 + 1)) in
  let count :=
    foldl (fun count index =>
             let line := (item polygon (Z.of_nat index - 1), item polygon (Z.of_nat index)) in
             if negb (segments_intersect line v =? 0) then count + 1 else count)
          0 (seq 0 (length polygon)) in
  count `mod` 2 =? 1.

(** ** Visibility-graph builder (the first half of [routing]) *)

(** The polygons considered by one call: [[start]], [[end]] and the buildings
    the straight segment touches or intersects. *)
Definition considered (start end_ : Point) (buildings : list Polygon) : list Polygon :=
  [[start]; [end_]] ++
  filter (fun polygon => segment_intersects_polygon (start, end_) polygon ≠ 0) buildings.

(** The [for other_polygon in polygons: ... break / else] test. *)
Definition visible (polygons : list Polygon) (p other_point : Point) : bool :=
  forallb (fun other_polygon =>
             negb (segment_intersects_polygon (p, other_point) other_polygon =? 2))
          polygons.

(** [edges.append([offset + (i - 1) % n, offset + (i + 1) % n])] *)
Definition polygon_edges (offset n i : nat) : list nat :=
  [ (offset + Z.to_nat ((Z.of_nat i - 1) `mod` Z.of_nat n))%nat;
    (offset + Z.to_nat ((Z.of_nat i + 1) `mod` Z.of_nat n))%nat ].

(** [graph[j].append(v)] *)
Definition append_at (graph : list (list nat)) (j v : nat) : outcome (list (list nat)) :=
  adj ← get_item graph j;
  set_item graph j (adj ++ [v]).

(** [for j, other_point in enumerate(table)], started at index [j] on the
    rest [tbl] of the table; [edge] is [edges[i]], [v] is [offset + i]. *)
Fixpoint scan_table (polygons : list Polygon) (p : Point) (v : nat)
    (tbl : list Point) (j : nat) (graph : list (list nat)) (edge : list nat)
    : outcome (list (list nat) * list nat) :=
  match tbl with
  | [] => Ret (graph, edge)
  | other_point :: tbl' =>
      if visible polygons p other_point then
        graph' ← append_at graph j v;
        scan_table polygons p v tbl' (S j) graph' (edge ++ [j])
      else scan_table polygons p v tbl' (S j) graph edge
  end.

(** [for i in range(len(polygon))], on the vertices [vs] still to visit. *)
Fixpoint add_vertices (polygons : list Polygon) (table : list Point)
    (offset n : nat) (vs : list Point) (i : nat)
    (graph : list (list nat)) (edges : list (list nat))
    : outcome (list (list nat) * list (list nat)) :=
  match vs with
  | [] => Ret (graph, edges)
  | p :: vs' =>
      '(graph', edge) ← scan_table polygons p (offset + i)%nat table 0%nat graph
                           (polygon_edges offset n i);
      add_vertices polygons table offset n vs' (S i) graph' (edges ++ [edge])
  end.

(** [for polygon in polygons], on the polygons [ps] still to visit. *)
Fixpoint add_polygons (polygons ps : list Polygon)
    (table : list Point) (graph : list (list nat))
    : outcome (list Point * list (list nat)) :=
  match ps with
  | [] => Ret (table, graph)
  | polygon :: ps' =>
      '(graph', edges) ← add_vertices polygons table (length table) (length polygon)
                            polygon 0%nat graph [];
      add_polygons polygons ps' (table ++ polygon) (graph' ++ edges)
  end.

Definition build_graph (polygons : list Polygon)
    : outcome (list Point * list (list nat)) :=
  add_polygons polygons polygons [] [].

(** ** Shortest-path search and recursive refinement (the rest of [routing]) *)

(** Queue entries are the tuples [(d_ + h, d_, y)]; tuples compare
    lexicographically. *)
Definition entry : Type := Z * Z * nat.

Definition entry_ltb (a b : entry) : bool :=
  let '(f1, d1, x1) := a in
  let '(f2, d2, x2) := b in
  (f1 <? f2) || ((f1 =? f2) && ((d1 <? d2) || ((d1 =? d2) && (x1 <? x2)%nat))).

(** [heapq] is modelled by a list kept in ascending tuple order: [heappop]
    takes the head, [heappush] inserts in order.  Tuples are totally ordered,
    so the sequence of popped tuples is that of any priority queue. *)
Fixpoint heappush (queue : list entry) (e : entry) : list entry :=
  match queue with
  | [] => [e]
  | e' :: queue' => if entry_ltb e e' then e :: queue else e' :: heappush queue' e
  end.

Record search_state : Type := SearchState {
  dist_table : list Z;
  connection : list (option nat);
  queue : list entry
}.

(** What [print(start, end, buildings)] writes when the depth cap fires. *)
Definition print_record : Type := Point * Point * list Polygon.

(** A computation of [routing]: what it printed, and its outcome. *)
Definition traced (A : Type) : Type := list print_record * outcome A.

Definition quiet {A : Type} (m : outcome A) : traced A := ([], m).

#[global] Instance traced_bind : MBind traced := fun A B k m =>
  match m.2 with
  | Ret a => let r := k a in (m.1 ++ r.1, r.2)
  | Raise e => (m.1, Raise e)
  | OutOfFuel => (m.1, OutOfFuel)
  end.

Section Planner.

(** [dist(a, b)], the [math.hypot] of [vector(a, b)]. *)
Variable dist : Point -> Point -> Z.

(** One iteration of [for y in graph[x]]. *)
Definition relax (table : list Point) (x : nat) (st : search_state) (y : nat)
    : outcome search_state :=
  tx ← get_item table x;
  ty ← get_item table y;
  dx ← get_item (dist_table st) x;
  let d_ := dist tx ty + dx in
  dy ← get_item (dist_table st) y;
  if negb (dy =? -1) && (dy <=? d_) then Ret st
  else
    dist_table' ← set_item (dist_table st) y d_;
    connection' ← set_item (connection st) y (Some x);
    t1 ← get_item table 1%nat;
    Ret (SearchState dist_table' connection'
           (heappush (queue st) (d_ + dist t1 ty, d_, y))).

Fixpoint relax_all (table : list Point) (x : nat) (st : search_state)
    (ys : list nat) : outcome search_state :=
  match ys with
  | [] => Ret st
  | y :: ys' => st' ← relax table x st y; relax_all table x st' ys'
  end.

(** [while queue: ...] *)
Fixpoint search (fuel : nat) (graph : list (list nat)) (table : list Point)
    (st : search_state) : outcome search_state :=
  match fuel with
  | O => OutOfFuel
  | S fuel' =>
      match queue st with
      | [] => Ret st
      | (_, d, x) :: queue' =>
          let st := SearchState (dist_table st) (connection st) queue' in
          if (x =? 1)%nat then Ret st
          else
            dx ← get_item (dist_table st) x;
            if negb (dx =? d) then search fuel' graph table st
            else
              ys ← get_item graph x;
              st' ← relax_all table x st ys;
              search fuel' graph table st'
      end
  end.

Definition initial_state (table : list Point) : outcome search_state :=
  dist_table ← set_item (replicate (length table) (-1)) 0%nat 0;
  Ret (SearchState dist_table (replicate (length table) None) [(0, 0, 0%nat)]).

(** [while x != 0: x = connection[x]; route.append(x)].  When
    [connection[x]] is [None] the source appends it and fails on the next
    iteration, at [connection[None]], with a [TypeError]. *)
Fixpoint backtrack (fuel : nat) (connection : list (option nat)) (x : nat)
    (route : list nat) : outcome (list nat) :=
  match fuel with
  | O => OutOfFuel
  | S fuel' =>
      if (x =? 0)%nat then Ret route
      else
        c ← get_item connection x;
        match c with
        | None => Raise TypeError
        | Some x' => backtrack fuel' connection x' (route ++ [x'])
        end
  end.

(** From the start of [routing] to [route.reverse()]: the node table and
    the node-index path. *)
Definition find_route (fuel : nat) (start end_ : Point) (buildings : list Polygon)
    : outcome (list Point * list nat) :=
  '(table, graph) ← build_graph (considered start end_ buildings);
  st0 ← initial_state table;
  st ← search fuel graph table st0;
  route ← backtrack fuel (connection st) 1%nat [1%nat];
  Ret (table, reverse route).

(** [[table[x] for x in route]] *)
Definition points_of (table : list Point) (route : list nat) : outcome (list Point) :=
  mapM (get_item table) route.

(** [(table[route[i]], table[route[i+1]])] *)
Definition endpoints (table : list Point) (route : list nat) (i : nat)
    : outcome (Point * Point) :=
  xi ← get_item route i;
  xj ← get_item route (i + 1)%nat;
  a ← get_item table xi;
  b ← get_item table xj;
  Ret (a, b).

(** [new_route.append(table[route[-1]])] *)
Definition finish (table : list Point) (route : list nat) (new_route : list Point)
    : outcome (list Point) :=
  x ← from_option Ret (Raise IndexError) (list.last route);
  p ← get_item table x;
  Ret (new_route ++ [p]).

(** The loop [for i in range(len(route) - 1)] of the refinement, on the
    indices [idxs] still to visit, then the final [append].
    [rec a b] is [routing(a, b, buildings, depth+1)]; [pop] on an empty
    list raises [IndexError]. *)
Fixpoint refine (rec : Point -> Point -> traced (list Point))
    (table : list Point) (route : list nat) (idxs : list nat)
    (new_route : list Point) : traced (list Point) :=
  match idxs with
  | [] => quiet (finish table route new_route)
  | i :: idxs' =>
      ab ← quiet (endpoints table route i);
      sub ← rec ab.1 ab.2;
      match new_route ++ sub with
      | [] => quiet (Raise IndexError)
      | p :: ps => refine rec table route idxs' (removelast (p :: ps))
      end
  end.

Fixpoint routing (fuel : nat) (start end_ : Point) (buildings : list Polygon)
    (depth : Z) : traced (list Point) :=
  match fuel with
  | O => quiet OutOfFuel
  | S fuel' =>
      if 100 <? depth then ([(start, end_, buildings)], Ret [start; end_])
      else
        tr ← quiet (find_route fuel' start end_ buildings);
        let '(table, route) := tr in
        if (length route =? 2)%nat then quiet (points_of table route)
        else
          refine (fun a b => routing fuel' a b buildings (depth + 1))
                 table route (seq 0 (length route - 1)) []
  end.

End Planner.

(** [math.hypot] on integer vectors, rounded down to 32 fractional bits. *)
Definition hypot_fix (a b : Point) : Z :=
  let v := vector a b in
  Z.sqrt ((v.1 * v.1 + v.2 * v.2) * 2 ^ 64).

(** The planner as [main] calls it: [routing(start_point, end_point,
    buildings)], with [depth] at its default 0. *)
Definition plan (dist : Point -> Point -> Z) (fuel : nat) (start end_ : Point)
    (buildings : list Polygon) : traced (list Point) :=
  routing dist fuel start end_ buildings 0.

(** The length of a polyline, in the cost units of the planner: the sum of
    [dist] over its consecutive pairs. *)
Fixpoint route_length (dist : Point -> Point -> Z) (route : list Point) : Z :=
  match route with
  | a :: (b :: _) as rest => dist a b + route_length dist rest
  | _ => 0
  end.

(** ** The event handling of [main] *)

(** The square that [main] adds around [pos]. *)
Definition new_square (pos : Point) : Polygon :=
  let size := 10 in
  let '(x, y) := pos in
  [(x + size, y + size); (x + size, y - size); (x - size, y - size); (x - size, y + size)].

Module Editor.

(** The events and the keys and buttons that [main] tells apart. *)
Inductive key : Type := K_1 | K_2 | K_SPACE | K_other.
Inductive button : Type := BUTTON_LEFT | BUTTON_RIGHT | BUTTON_other.
Inductive event : Type :=
  | QUIT
  | KEYDOWN (k : key)
  | MOUSEBUTTONDOWN (b : button)
  | MOUSEBUTTONUP
  | MOUSEMOTION
  | other_event.

(** The variables of [main] that the event loop updates.  [mode] is [None],
    1, 2 or 3; [selected] is [None], a pair [(i, j)] or a 1-tuple [(i,)]. *)
Record state : Type := State {
  buildings : list Polygon;
  start_point : Point;
  end_point : Point;
  mode : option Z;
  selected : option (list nat);
  DRAW_GRAPH : bool
}.

(** [buildings = []; start_point = (0, 0); end_point = (600, 600); mode =
    None; selected = None], with [DRAW_GRAPH = False]. *)
Definition initial : state := State [] (0, 0) (600, 600) None None false.

(** [selected[k]]: subscripting [None] raises a [TypeError]. *)
Definition subscript (selected : option (list nat)) (k : nat) : outcome nat :=
  match selected with
  | None => Raise TypeError
  | Some t => get_item t k
  end.

Section Handler.

(** [dist], and the constants [POINT_SELECT_RADIUS] (8) and 100 of the
    vertex selection in the units of [dist]. *)
Variable dist : Point -> Point -> Z.
Variable POINT_SELECT_RADIUS : Z.
Variable min_dist0 : Z.

(** [for j, point in enumerate(polygon)], on the points still to visit. *)
Fixpoint scan_points (pos : Point) (i : nat) (points : list Point) (j : nat)
    (min_dist : Z) (selected : option (list nat)) : Z * option (list nat) :=
  match points with
  | [] => (min_dist, selected)
  | point :: points' =>
      let d := dist point pos in
      if (d <? POINT_SELECT_RADIUS) && (d <? min_dist)
      then scan_points pos i points' (S j) d (Some [i; j])
      else scan_points pos i points' (S j) min_dist selected
  end.

(** [for i, polygon in enumerate(buildings)] of the vertex selection. *)
Fixpoint scan_buildings (pos : Point) (bs : list Polygon) (i : nat)
    (min_dist : Z) (selected : option (list nat)) : option (list nat) :=
  match bs with
  | [] => selected
  | polygon :: bs' =>
      let r := scan_points pos i polygon 0 min_dist selected in
      scan_buildings pos bs' (S i) r.1 r.2
  end.

(** [for i, polygon in enumerate(buildings): if is_in_polygon(polygon, pos):
    selected = (i,)] *)
Fixpoint find_polygon (pos : Point) (bs : list Polygon) (i : nat)
    (selected : option (list nat)) : option (list nat) :=
  match bs with
  | [] => selected
  | polygon :: bs' =>
      find_polygon pos bs' (S i)
        (if is_in_polygon polygon pos then Some [i] else selected)
  end.

(** The body of [elif event.type == pygame.MOUSEBUTTONUP] up to the reset of
    [mode] and [selected]: the new list of buildings. *)
Definition button_up (pos : Point) (st : state) : outcome (list Polygon) :=
  if decide (mode st = Some 1) then Ret (buildings st)
  else if decide (mode st = Some 2) then
    match selected st with
    | None => Ret (buildings st ++ [new_square pos])
    | Some _ =>
        i ← subscript (selected st) 0;
        polygon ← get_item (buildings st) i;
        first ← get_item polygon 0;
        last ← from_option Ret (Raise IndexError) (list.last polygon);
        let x := (first.1 + last.1) / 2 in
        let y := (first.2 + last.2) / 2 in
        set_item (buildings st) i (polygon ++ [(x, y)])
    end
  else if decide (mode st = Some 3) then
    i ← subscript (selected st) 0;
    polygon ← get_item (buildings st) i;
    if (3 <? length polygon)%nat
    then set_item (buildings st) i (removelast polygon)
    else Ret (delete i (buildings st))
  else Ret (buildings st).

(** [if not is_in_polygon(buildings[selected[0]], pos): mode = None;
    selected = None] *)
Definition leave_polygon (pos : Point) (st : state) : outcome state :=
  i ← subscript (selected st) 0;
  polygon ← get_item (buildings st) i;
  if negb (is_in_polygon polygon pos)
  then Ret (State (buildings st) (start_point st) (end_point st) None None
                  (DRAW_GRAPH st))
  else Ret st.

(** One iteration of [for event in pygame.event.get()], with [pos] the
    mouse position read at the start of the frame.  [None] is the [return]
    after [pygame.quit()]. *)
Definition handle_event (pos : Point) (st : state) (ev : event)
    : outcome (option state) :=
  match ev with
  | QUIT => Ret None
  | KEYDOWN K_1 =>
      Ret (Some (State (buildings st) pos (end_point st) (mode st) (selected st)
                       (DRAW_GRAPH st)))
  | KEYDOWN K_2 =>
      Ret (Some (State (buildings st) (start_point st) pos (mode st) (selected st)
                       (DRAW_GRAPH st)))
  | KEYDOWN K_SPACE =>
      Ret (Some (State (buildings st) (start_point st) (end_point st) (mode st)
                       (selected st) (negb (DRAW_GRAPH st))))
  | KEYDOWN K_other => Ret (Some st)
  | MOUSEBUTTONDOWN BUTTON_LEFT =>
      let selected := scan_buildings pos (buildings st) 0 min_dist0 None in
      match selected with
      | None =>
          let selected := find_polygon pos (buildings st) 0 None in
          Ret (Some (State (buildings st) (start_point st) (end_point st) (Some 2)
                           selected (DRAW_GRAPH st)))
      | Some _ =>
          Ret (Some (State (buildings st) (start_point st) (end_point st) (Some 1)
                           selected (DRAW_GRAPH st)))
      end
  | MOUSEBUTTONDOWN BUTTON_RIGHT =>
      let selected := find_polygon pos (buildings st) 0 None in
      match selected with
      | None =>
          Ret (Some (State (buildings st) (start_point st) (end_point st) None
                           selected (DRAW_GRAPH st)))
      | Some _ =>
          Ret (Some (State (buildings st) (start_point st) (end_point st) (Some 3)
                           selected (DRAW_GRAPH st)))
      end
  | MOUSEBUTTONDOWN BUTTON_other => Ret (Some st)
  | MOUSEBUTTONUP =>
      buildings' ← button_up pos st;
      Ret (Some (State buildings' (start_point st) (end_point st) None None
                       (DRAW_GRAPH st)))
  | MOUSEMOTION =>
      if decide (mode st = Some 1) then
        i ← subscript (selected st) 0;
        polygon ← get_item (buildings st) i;
        j ← subscript (selected st) 1;
        polygon' ← set_item polygon j pos;
        buildings' ← set_item (buildings st) i polygon';
        Ret (Some (State buildings' (start_point st) (end_point st) (mode st)
                         (selected st) (DRAW_GRAPH st)))
      else if decide (mode st = Some 2) then
        match selected st with
        | None => Ret (Some st)
        | Some _ => st' ← leave_polygon pos st; Ret (Some st')
        end
      else if decide (mode st = Some 3) then
        st' ← leave_polygon pos st; Ret (Some st')
      else Ret (Some st)
  | other_event => Ret (Some st)
  end.

(** The events of a run, each with the mouse position of its frame, up to
    the [return] of [QUIT]. *)
Fixpoint handle_events (st : state) (evs : list (Point * event))
    : outcome (option state) :=
  match evs with
  | [] => Ret (Some st)
  | (pos, ev) :: evs' =>
      r ← handle_event pos st ev;
      match r with
      | None => Ret None
      | Some st' => handle_events st' evs'
      end
  end.

End Handler.

End Editor.

(** ** [routing.py]: routes, route lengths, feasibility *)

(** [Position] and its method [distance_to] come from [models.entities],
    [Drone] too, and the constants from [config]; they are parameters of
    the definitions below.  Floats are modelled as exact rationals. *)

(** [for i in range(len(route) - 1): total += step(route[i], route[i + 1])],
    by recursion on the rest of the route. *)
Fixpoint accumulate {Position : Type} (step : Position -> Position -> Q)
    (total : Q) (route : list Position) : Q :=
  match route with
  | a :: (b :: _) as rest => accumulate step (total + step a b)%Q rest
  | _ => total
  end.

Module SimpleRouting.
Section Methods.

Variable Position : Type.
Variable distance_to : Position -> Position -> Q.

(** [route = [start]; for waypoint in waypoints: route.append(waypoint);
    route.append(end)] *)
Definition calculate_route (start : Position) (waypoints : list Position)
    (end_ : Position) : list Position :=
  foldl (fun route waypoint => route ++ [waypoint]) [start] waypoints ++ [end_].

Definition calculate_distance (route : list Position) : Q :=
  if (length route <? 2)%nat then 0%Q
  else accumulate distance_to 0%Q route.

End Methods.
End SimpleRouting.

Module AStarRouting.

(** [__init__]: the map and the grid cell size. *)
Record self (Map : Type) : Type := Init {
  map : Map;
  grid_resolution : Z
}.

Section Methods.

Variable Position : Type.
Variable distance_to : Position -> Position -> Q.
Variable Map : Type.

Definition calculate_route (this : self Map)
    (start : Position) (waypoints : list Position) (end_ : Position)
    : list Position :=
  foldl (fun route waypoint => route ++ [waypoint]) [start] waypoints ++ [end_].

Definition _calculate_path_distance (this : self Map)
    (start end_ : Position) : Q :=
  distance_to start end_.

Definition calculate_distance (this : self Map) (route : list Position) : Q :=
  if (length route <? 2)%nat then 0%Q
  else accumulate (_calculate_path_distance this) 0%Q route.

End Methods.
End AStarRouting.

(** [Drone], as far as [validate_route_feasibility] reads it. *)
Record Drone : Type := MkDrone {
  battery_level : Q;
  speed : Q
}.

(** The constants of [config] that the validator reads. *)
Record Config : Type := MkConfig {
  DRONE_BATTERY_LIFE : Q;
  MAX_ORDER_DELAY : Q
}.

(** The text of the second component of the validator's result; the numbers
    are the ones the source formats into the message. *)
Inductive reason : Type :=
  | Empty_route
  | Exceeds_battery_range (total_distance max_distance : Q)
  | Exceeds_maximum_time (estimated_time max_delivery_time : Q)
  | Route_is_feasible.

Module RouteValidator.
Section Methods.

Variable Position : Type.
Variable distance_to : Position -> Position -> Q.

(** A float division by zero raises [ZeroDivisionError]. *)
Definition validate_route_feasibility (config : Config) (route : list Position)
    (drone : Drone) : outcome (bool * reason) :=
  match route with
  | [] => Ret (false, Empty_route)
  | _ =>
      let total_distance := accumulate distance_to 0%Q route in
      let max_distance :=
        (battery_level drone * speed drone * DRONE_BATTERY_LIFE config)%Q in
      if negb (Qle_bool total_distance max_distance)
      then Ret (false, Exceeds_battery_range total_distance max_distance)
      else if Qeq_bool (speed drone) 0
      then Raise ZeroDivisionError
      else
        let estimated_time := (total_distance / speed drone)%Q in
        let max_delivery_time := MAX_ORDER_DELAY config in
        if negb (Qle_bool estimated_time max_delivery_time)
        then Ret (false, Exceeds_maximum_time estimated_time max_delivery_time)
        else Ret (true, Route_is_feasible)
  end.

End Methods.
End RouteValidator.

(** The total polyline length in the words of the specification: the sum of
    the distances of the consecutive pairs. *)
Definition polyline_length {Position : Type}
    (distance_to : Position -> Position -> Q) (route : list Position) : Q :=
  foldl Qplus 0%Q (zip_with distance_to route (tail route)).

(** ** [routing.py]: the route optimizer, the safety check, the analyzer *)

(** The abstract class [RoutingAlgorithm]: an object with its two methods. *)
Record RoutingAlgorithm (Position : Type) : Type := MkRoutingAlgorithm {
  calculate_route : Position -> list Position -> Position -> list Position;
  calculate_distance : list Position -> Q
}.

Arguments MkRoutingAlgorithm {Position} _ _.
Arguments calculate_route {Position} _ _ _ _.
Arguments calculate_distance {Position} _ _.

(** [SimpleRouting()] *)
Definition simple_routing {Position : Type} (distance_to : Position -> Position -> Q)
    : RoutingAlgorithm Position :=
  MkRoutingAlgorithm (SimpleRouting.calculate_route Position)
                     (SimpleRouting.calculate_distance Position distance_to).

(** [AStarRouting(map_obj)] *)
Definition astar_routing {Position Map : Type} (distance_to : Position -> Position -> Q)
    (this : AStarRouting.self Map) : RoutingAlgorithm Position :=
  MkRoutingAlgorithm (AStarRouting.calculate_route Position Map this)
                     (AStarRouting.calculate_distance Position distance_to Map this).

(** [ValueError("Drone is not assigned to this order")] *)
Inductive value_error : Type := Drone_is_not_assigned_to_this_order.

Module DroneRouteOptimizer.

(** [Order] and [Drone] come from [models.entities]; these are the
    attributes that the optimizer reads, [depot_center] standing for
    [drone.depot.get_center()].  [current_order] is [None] or an order, and
    an order counts as true in [not drone.current_order]. *)
Record Order (Id Position : Type) : Type := MkOrder {
  id : Id;
  store_position : Position;
  customer_position : Position
}.

Arguments MkOrder {Id Position} _ _ _.
Arguments id {Id Position} _.
Arguments store_position {Id Position} _.
Arguments customer_position {Id Position} _.

Record Drone (Id Position : Type) : Type := MkDrone {
  current_order : option (Order Id Position);
  position : Position;
  depot_center : Position
}.

Arguments MkDrone {Id Position} _ _ _.
Arguments current_order {Id Position} _.
Arguments position {Id Position} _.
Arguments depot_center {Id Position} _.

Record self (Position : Type) : Type := Init {
  routing_algorithm : RoutingAlgorithm Position
}.

Arguments Init {Position} _.
Arguments routing_algorithm {Position} _.

Section Methods.

Context {Id Position : Type} `{EqDecision Id}.
Variable distance_to : Position -> Position -> Q.

(** [config.DRONE_SPEED] *)
Variable DRONE_SPEED : Q.

(** [self.routing_algorithm = routing_algorithm or SimpleRouting()] *)
Definition __init__ (routing_algorithm : option (RoutingAlgorithm Position))
    : self Position :=
  Init (default (simple_routing distance_to) routing_algorithm).

(** A raised [ValueError] is [inl], a returned route is [inr]. *)
Definition optimize_delivery_route (this : self Position)
    (drone : Drone Id Position) (order : Order Id Position)
    : value_error + list Position :=
  match current_order drone with
  | None => inl Drone_is_not_assigned_to_this_order
  | Some current =>
      if negb (bool_decide (id current = id order))
      then inl Drone_is_not_assigned_to_this_order
      else
        let start := position drone in
        let waypoints := [store_position order] in
        let end_ := customer_position order in
        let route := calculate_route (routing_algorithm this) start waypoints end_ in
        let return_route :=
          calculate_route (routing_algorithm this)
                          (customer_position order) [] (depot_center drone) in
        inr (route ++ drop 1 return_route)
  end.

(** A float division by zero raises [ZeroDivisionError]. *)
Definition calculate_delivery_time (this : self Position) (route : list Position)
    (drone_speed : option Q) : outcome Q :=
  let drone_speed := default DRONE_SPEED drone_speed in
  let total_distance := calculate_distance (routing_algorithm this) route in
  if Qeq_bool drone_speed 0 then Raise ZeroDivisionError
  else Ret (total_distance / drone_speed)%Q.

Definition optimize_multiple_deliveries (this : self Position)
    (drone : Drone Id Position) (orders : list (Order Id Position))
    : value_error + list Position :=
  match orders with
  | [] => inr []
  | [order] => optimize_delivery_route this drone order
  | _ =>
      let start := position drone in
      let waypoints :=
        foldl (fun waypoints order => waypoints ++ [store_position order]) [] orders in
      let waypoints :=
        foldl (fun waypoints order => waypoints ++ [customer_position order])
              waypoints orders in
      let end_ := depot_center drone in
      inr (calculate_route (routing_algorithm this) start waypoints end_)
  end.

End Methods.
End DroneRouteOptimizer.

(** The text of the second component of the result of
    [validate_route_safety]. *)
Inductive safety_reason (Position BuildingId : Type) : Type :=
  | Outside_map_bounds (position : Position)
  | Collides_with_building (position : Position) (building : BuildingId)
  | Route_is_safe.

Arguments Outside_map_bounds {Position BuildingId} _.
Arguments Collides_with_building {Position BuildingId} _ _.
Arguments Route_is_safe {Position BuildingId}.

(** The map, as far as the safety check reads it;
    [get_building_at_position] returns a building or [None]. *)
Record Map (Position Building : Type) : Type := MkMap {
  width : Q;
  height : Q;
  get_building_at_position : Position -> option Building
}.

Arguments MkMap {Position Building} _ _ _.
Arguments width {Position Building} _.
Arguments height {Position Building} _.
Arguments get_building_at_position {Position Building} _ _.

Module RouteSafety.
Section Methods.

Context {Position Building BuildingId : Type}.

(** [position.x], [position.y] and [building.id] *)
Variable x y : Position -> Q.
Variable building_id : Building -> BuildingId.

(** [position.x < 0 or position.x > map_obj.width or position.y < 0 or
    position.y > map_obj.height] *)
Definition out_of_bounds (map_obj : Map Position Building) (position : Position) : bool :=
  negb (Qle_bool 0 (x position)) || negb (Qle_bool (x position) (width map_obj)) ||
  negb (Qle_bool 0 (y position)) || negb (Qle_bool (y position) (height map_obj)).

(** [RouteValidator.validate_route_safety], by recursion on the positions
    still to visit. *)
Fixpoint validate_route_safety (route : list Position)
    (map_obj : Map Position Building) : bool * safety_reason Position BuildingId :=
  match route with
  | [] => (true, Route_is_safe)
  | position :: route' =>
      if out_of_bounds map_obj position then (false, Outside_map_bounds position)
      else
        match get_building_at_position map_obj position with
        | Some building_at_pos =>
            (false, Collides_with_building position (building_id building_at_pos))
        | None => validate_route_safety route' map_obj
        end
  end.

End Methods.
End RouteSafety.

Module RouteAnalyzer.

(** The dictionary returned by [analyze_route_efficiency]. *)
Record analysis : Type := MkAnalysis {
  total_distance : Q;
  straight_line_distance : Q;
  efficiency_ratio : Q;
  number_of_segments : nat
}.

(** The dictionary returned by [compare_routes]; an entry of ['comparison']
    is an analysis with its ['route_index'].  For no routes the source
    returns [-1], an empty ['comparison'] and no ['best_route']. *)
Record comparison_result : Type := MkComparison {
  best_route_index : Z;
  comparison : list (nat * analysis);
  best_route : option (nat * analysis)
}.

Section Methods.

Context {Position : Type}.
Variable distance_to : Position -> Position -> Q.

Definition analyze_route_efficiency (route : list Position) : analysis :=
  match route with
  | first :: _ :: _ =>
      let total_distance := accumulate distance_to 0%Q route in
      let straight_line_distance := distance_to first (default first (list.last route)) in
      (* max(total_distance, 0.001) *)
      let denominator :=
        if Qle_bool (1 # 1000) total_distance then total_distance
        else (1 # 1000)%Q in
      MkAnalysis total_distance straight_line_distance
                 (straight_line_distance / denominator)%Q
                 (length route - 1)
  | _ => MkAnalysis 0 0 1 0
  end.

(** [min(items, key=lambda x: x['total_distance'])]: the first item whose
    key is minimal. *)
Definition min_by_total_distance (first : nat * analysis)
    (items : list (nat * analysis)) : nat * analysis :=
  foldl (fun best item =>
           if negb (Qle_bool (total_distance best.2) (total_distance item.2))
           then item else best)
        first items.

Definition compare_routes (routes : list (list Position)) : comparison_result :=
  let route_analyses := imap (fun i route => (i, analyze_route_efficiency route)) routes in
  match route_analyses with
  | [] => MkComparison (-1) [] None
  | first :: items =>
      let best_route := min_by_total_distance first items in
      MkComparison (Z.of_nat best_route.1) route_analyses (Some best_route)
  end.

End Methods.
End RouteAnalyzer.

(** * Vocabulary of the properties *)

(** [v] is on the adjacency list of [u]. *)
Definition has_edge (graph : list (list nat)) (u v : nat) : Prop :=
  exists adj, graph !! u = Some adj /\ v ∈ adj.

(** [graph'] is [graph] with every adjacency list [u] extended by a list of
    exactly the nodes [w] with [R u w]. *)
Definition grows (R : nat -> nat -> Prop) (graph graph' : list (list nat)) : Prop :=
  length graph' = length graph /\
  forall u adj, graph !! u = Some adj ->
    exists extra, graph' !! u = Some (adj ++ extra) /\ forall w, w ∈ extra <-> R u w.

(** The node of vertex [i] of a polygon that follows the polygons [ps1]. *)
Definition node_of (ps1 : list Polygon) (i : nat) : nat :=
  (length (concat ps1) + i)%nat.

(** The nodes added to the adjacency list of vertex [p] (vertex [i] of
    [poly], between [ps1] and [ps2]) by the visibility test: the earlier
    nodes it sees, and the later ones that see it. *)
Definition sees (ps ps1 : list Polygon) (poly : Polygon) (ps2 : list Polygon)
    (p : Point) (w : nat) : Prop :=
  (exists q, concat ps1 !! w = Some q /\ visible ps p q = true) \/
  (exists ps2a poly' ps2b i' p',
     ps2 = ps2a ++ poly' :: ps2b /\ poly' !! i' = Some p' /\
     w = node_of (ps1 ++ poly :: ps2a) i' /\ visible ps p' p = true).

(** The graph built from the polygons [done], tested against [ps]. *)
Definition graph_ok (ps done : list Polygon) (graph : list (list nat)) : Prop :=
  length graph = length (concat done) /\
  forall ps1 poly ps2 i p,
    done = ps1 ++ poly :: ps2 -> poly !! i = Some p ->
    exists extra,
      graph !! node_of ps1 i
        = Some (polygon_edges (length (concat ps1)) (length poly) i ++ extra) /\
      forall w, w ∈ extra <-> sees ps ps1 poly ps2 p w.

(** Every adjacency list exists and names nodes of the table only. *)
Definition graph_wf (graph : list (list nat)) (n : nat) : Prop :=
  length graph = n /\
  forall u adj v, graph !! u = Some adj -> v ∈ adj -> (v < n)%nat.

(** Every recorded predecessor link is an edge of the graph. *)
Definition conn_ok (graph : list (list nat)) (conn : list (option nat)) : Prop :=
  forall y x, conn !! y = Some (Some x) -> has_edge graph x y.

(** The nodes visited by the loop that walks the predecessors back. *)
Fixpoint walk (conn : list (option nat)) (x : nat) (rest : list nat) : Prop :=
  match rest with
  | [] => x = 0%nat
  | x' :: rest' => x <> 0%nat /\ conn !! x = Some (Some x') /\ walk conn x' rest'
  end.

(** A node from which the predecessor links lead to node 0. *)
Inductive reach0 (conn : list (option nat)) : nat -> Prop :=
  | reach0_here : reach0 conn 0
  | reach0_step (y x : nat) :
      conn !! y = Some (Some x) -> reach0 conn x -> reach0 conn y.

(** [r] starts at [a], ends at [b] and has at least two points. *)
Definition spans (a b : Point) (r : list Point) : Prop :=
  exists mid, r = a :: mid ++ [b].

(** No segment of the polyline [r] intersects (value 2) a building. *)
Definition clean (buildings : list Polygon) (r : list Point) : Prop :=
  forall l1 p q l2, r = l1 ++ p :: q :: l2 ->
    forall P, P ∈ buildings -> segment_intersects_polygon (p, q) P <> 2.

(** The point of the [i]-th node of the route. *)
Definition pt (table : list Point) (route : list nat) (i : nat) (p : Point) : Prop :=
  exists x, route !! i = Some x /\ table !! x = Some p.

(** 1 for the cost [-1] of a node not reached yet, else 0. *)
Definition is_unset (d : Z) : nat := if decide (d = -1) then 1%nat else 0%nat.

(** The number of nodes without a cost. *)
Fixpoint unset (dt : list Z) : nat :=
  match dt with
  | [] => 0%nat
  | d :: dt' => (is_unset d + unset dt')%nat
  end.

(** The sum of the costs of the nodes reached. *)
Fixpoint total (dt : list Z) : nat :=
  match dt with
  | [] => 0%nat
  | d :: dt' => (Z.to_nat d + total dt')%nat
  end.

(** The lexicographic order on (number of unset nodes, sum of costs). *)
Definition lex_lt (dt' dt : list Z) : Prop :=
  (unset dt' < unset dt)%nat \/
  (unset dt' = unset dt /\ total dt' < total dt)%nat.

(** The invariant of the search loop. *)
Record search_inv (graph : list (list nat)) (table : list Point)
    (st : search_state) : Prop := SearchInv {
  inv_len_dist : length (dist_table st) = length table;
  inv_len_conn : length (connection st) = length table;
  inv_queue : forall f d x, (f, d, x) ∈ queue st -> (x < length table)%nat /\ 0 <= d;
  inv_dist : forall i d, dist_table st !! i = Some d -> d = -1 \/ 0 <= d;
  inv_zero : dist_table st !! 0%nat = Some 0;
  inv_conn : forall y x, connection st !! y = Some (Some x) ->
      has_edge graph x y /\
      exists dx dy, dist_table st !! x = Some dx /\ dist_table st !! y = Some dy /\
                    0 <= dx <= dy;
  inv_reach : forall i d, dist_table st !! i = Some d -> 0 <= d ->
      reach0 (connection st) i
}.

(** The computation finished: it returned, or raised the [TypeError] of a
    goal without predecessor. *)
Definition terminated {A : Type} (out : outcome A) : Prop :=
  (exists a, out = Ret a) \/ out = Raise TypeError.

(** The goal has cost 0 and the start as predecessor. *)
Definition goal_direct (st : search_state) : Prop :=
  dist_table st !! 1%nat = Some 0 /\ connection st !! 1%nat = Some (Some 0%nat).

(** The test of the first branch of the loop of [segment_intersects_polygon]
    at index [i]: an end of the line is vertex [i] or vertex [i-1]. *)
Definition shares_vertex (line : Segment) (polygon : Polygon) (i : nat) : bool :=
  pt_eqb line.1 (item polygon (Z.of_nat i)) || pt_eqb line.2 (item polygon (Z.of_nat i)) ||
  pt_eqb line.1 (item polygon (Z.of_nat i - 1)) || pt_eqb line.2 (item polygon (Z.of_nat i - 1)).

(** Edge [i] of the polygon, from vertex [i-1] to vertex [i]. *)
Definition edge (polygon : Polygon) (i : nat) : Segment :=
  (item polygon (Z.of_nat i - 1), item polygon (Z.of_nat i)).

(** The point of node [x]. *)
Definition node_point (table : list Point) (x : nat) : Point :=
  default ((0, 0) : Point) (table !! x).

(** The cost [dist(table[x], table[y])] of the step from [x] to [y]. *)
Definition edge_cost (dist : Point -> Point -> Z) (table : list Point) (x y : nat) : Z :=
  dist (node_point table x) (node_point table y).

(** The estimate [dist(table[1], table[y])] added to the cost in the queue. *)
Definition heuristic (dist : Point -> Point -> Z) (table : list Point) (y : nat) : Z :=
  dist (node_point table 1) (node_point table y).

(** [x :: rest] is a path of the graph. *)
Fixpoint is_path (graph : list (list nat)) (x : nat) (rest : list nat) : Prop :=
  match rest with
  | [] => True
  | y :: rest' => has_edge graph x y /\ is_path graph y rest'
  end.

(** The sum of the costs of the steps of the path [x :: rest]. *)
Fixpoint path_cost (dist : Point -> Point -> Z) (table : list Point)
    (x : nat) (rest : list nat) : Z :=
  match rest with
  | [] => 0
  | y :: rest' => edge_cost dist table x y + path_cost dist table y rest'
  end.

(** The estimate never exceeds the cost of a path to the goal. *)
Definition admissible (dist : Point -> Point -> Z) (graph : list (list nat))
    (table : list Point) : Prop :=
  forall y post, is_path graph y post -> list.last (y :: post) = Some 1%nat ->
    heuristic dist table y <= path_cost dist table y post.

(** Every neighbour of [x] has a cost, at most [dx] plus the cost of the
    step: [x] was expanded with the cost [dx]. *)
Definition closed (dist : Point -> Point -> Z) (graph : list (list nat))
    (table : list Point) (st : search_state) (x : nat) (dx : Z) : Prop :=
  forall y, has_edge graph x y ->
    exists dy, dist_table st !! y = Some dy /\ dy <> -1 /\
               dy <= dx + edge_cost dist table x y.

(** The queue is in ascending tuple order. *)
Fixpoint queue_sorted (q : list entry) : Prop :=
  match q with
  | [] => True
  | e :: q' => (forall e', e' ∈ q' -> entry_ltb e' e = false) /\ queue_sorted q'
  end.

(** The second invariant of the search loop; the nodes in [ex] are being
    expanded. *)
Record astar_inv (dist : Point -> Point -> Z) (graph : list (list nat))
    (table : list Point) (ex : nat -> Prop) (st : search_state) : Prop := AstarInv {
  ai_sorted : queue_sorted (queue st);
  ai_entry : forall f d x, (f, d, x) ∈ queue st ->
      exists dx, dist_table st !! x = Some dx /\ dx <> -1 /\ dx <= d /\ d <= f /\
                 f <= d + heuristic dist table x;
  ai_open : forall z dz, dist_table st !! z = Some dz -> dz <> -1 ->
      ex z \/ (exists f, (f, dz, z) ∈ queue st) \/ closed dist graph table st z dz;
  ai_conn : forall y x, connection st !! y = Some (Some x) ->
      exists dx dy, dist_table st !! x = Some dx /\ dist_table st !! y = Some dy /\
                    dx <> -1 /\ dx + edge_cost dist table x y <= dy
}.



(** The end of the search: the predecessor links respect the costs, and the
    goal has a cost that, when the estimate is admissible, no path from the
    start to the goal undercuts. *)
Definition search_result (dist : Point -> Point -> Z) (graph : list (list nat))
    (table : list Point) (st : search_state) : Prop :=
  search_inv graph table st /\
  (forall y x, connection st !! y = Some (Some x) ->
     exists dx dy, dist_table st !! x = Some dx /\ dist_table st !! y = Some dy /\
                   dx <> -1 /\ dx + edge_cost dist table x y <= dy) /\
  (forall rest, is_path graph 0 rest -> list.last (0%nat :: rest) = Some 1%nat ->
     exists d1, dist_table st !! 1%nat = Some d1 /\ d1 <> -1 /\
                (admissible dist graph table -> d1 <= path_cost dist table 0 rest)).

(** What the event loop of [main] maintains: every building has at least
    three vertices, and the selection fits the mode. *)
Definition well_formed (st : Editor.state) : Prop :=
  Forall (fun polygon => (3 <= length polygon)%nat) (Editor.buildings st) /\
  (Editor.mode st = None \/
   (Editor.mode st = Some 1 /\ exists i j polygon,
      Editor.selected st = Some [i; j] /\ Editor.buildings st !! i = Some polygon /\
      (j < length polygon)%nat) \/
   (Editor.mode st = Some 2 /\
      (Editor.selected st = None \/
       exists i, Editor.selected st = Some [i] /\
                 (i < length (Editor.buildings st))%nat)) \/
   (Editor.mode st = Some 3 /\
      exists i, Editor.selected st = Some [i] /\
                (i < length (Editor.buildings st))%nat)).

(** A vertex that the selection of [main] accepts: nearer to [pos] than the
    selection radius and than the initial minimum. *)
Definition selectable (dist : Point -> Point -> Z) (radius min_dist : Z)
    (pos point : Point) : Prop :=
  dist point pos < radius /\ dist point pos < min_dist.

(** [point] is vertex [j] of building [i]. *)
Definition vertex_at (buildings : list Polygon) (i j : nat) (point : Point) : Prop :=
  exists polygon, buildings !! i = Some polygon /\ polygon !! j = Some point.

(** Both routing classes join the start, the waypoints and the end. *)
Definition straight_through {Position : Type} (alg : RoutingAlgorithm Position) : Prop :=
  forall start waypoints end_,
    calculate_route alg start waypoints end_ = start :: waypoints ++ [end_].

(** A position inside the map and free of buildings. *)
Definition safe_position {Position Building : Type} (x y : Position -> Q)
    (map_obj : Map Position Building) (position : Position) : Prop :=
  (0 <= x position)%Q /\ (x position <= width map_obj)%Q /\
  (0 <= y position)%Q /\ (y position <= height map_obj)%Q /\
  get_building_at_position map_obj position = None.

(** [r], at position [k] of [l], has a total distance that is minimal in
    [l] and smaller than that of every earlier entry. *)
Definition first_minimum (l : list (nat * RouteAnalyzer.analysis)) (k : nat)
    (r : nat * RouteAnalyzer.analysis) : Prop :=
  l !! k = Some r /\
  (forall j e, l !! j = Some e ->
     (RouteAnalyzer.total_distance r.2 <= RouteAnalyzer.total_distance e.2)%Q) /\
  (forall j e, l !! j = Some e -> (j < k)%nat ->
     (RouteAnalyzer.total_distance r.2 < RouteAnalyzer.total_distance e.2)%Q).

(** * Concrete inputs *)

(** [math.hypot] as a rational, for the interfaces of [routing.py]. *)
Definition hypot_q (a b : Point) : Q := hypot_fix a b # 2 ^ 32.

(** The square of the corner-skim scenario. *)
Definition square : Polygon := [(5, -5); (5, 5); (15, 5); (15, -5)].

(** A square around the start, inside a diamond whose edges hide the corners
    of the square, while the square hides the corners of the diamond. *)
Definition inner_square : Polygon := [(2, 2); (2, -2); (-2, -2); (-2, 2)].
Definition diamond : Polygon := [(3, 0); (0, -3); (-3, 0); (0, 3)].

(** A wall across the straight segment, a wall below it that hides the lower
    end of the first wall from the start, and a third wall. *)
Definition wall_A : Polygon := [(50, -40); (52, 1); (50, 41)].
Definition wall_B : Polygon := [(25, -1); (26, -100); (27, -100)].
Definition wall_P : Polygon := [(75, 1); (76, -100); (77, -100)].

(** A triangle far from everything else. *)
Definition far_triangle : Polygon := [(200, 200); (210, 200); (210, 210)].

(** A route of length 5. *)
Definition short_route : list Point := [(0, 0); (3, 4)].

(** A configuration and a drone for the feasibility check. *)
Definition config0 : Config := MkConfig 1800 600.
Definition drone0 : Drone := MkDrone 1 10.



(** The selection radius 8 and the initial minimum 100 of the editor, in
    the units of [hypot_fix]. *)
Definition radius_fix : Z := 8 * 2 ^ 32.
Definition far_fix : Z := 100 * 2 ^ 32.

(** The editor after one click on the free canvas at (300, 300). *)
Definition one_square : Editor.state :=
  Editor.State [new_square (300, 300)] (0, 0) (600, 600) None None false.

(** Two orders, and a drone that carries the first. *)
Definition order7 : DroneRouteOptimizer.Order Z Point :=
  DroneRouteOptimizer.MkOrder 7 (3, 4) (6, 8).
Definition order8 : DroneRouteOptimizer.Order Z Point :=
  DroneRouteOptimizer.MkOrder 8 (1, 1) (2, 2).
Definition drone7 : DroneRouteOptimizer.Drone Z Point :=
  DroneRouteOptimizer.MkDrone (Some order7) (0, 0) (9, 9).

(** A route with a detour, and three routes to compare. *)
Definition detour_route : list Point := [(0, 0); (3, 4); (6, 0)].
Definition three_routes : list (list Point) :=
  [[(0, 0); (3, 4); (6, 0)]; [(0, 0); (6, 0)]; [(0, 0); (0, 3); (6, 0)]].

(** A drone that does not move. *)
Definition drone_at_rest : Drone := MkDrone 1 0.

(** * Properties *)

(** ** Outcomes *)

Lemma bind_Ret {A B : Type} (m : outcome A) (k : A -> outcome B) (b : B) :
  m ≫= k = Ret b <-> exists a, m = Ret a /\ k a = Ret b.
Proof.
  destruct m as [a|e|]; simpl; split.
  - intros H. by exists a.
  - by intros (a' & [= ->] & H).
  - discriminate.
  - by intros (a' & [=] & _).
  - discriminate.
  - by intros (a' & [=] & _).
Qed.

Lemma get_item_Ret {A : Type} (l : list A) (i : nat) (a : A) :
  get_item l i = Ret a <-> l !! i = Some a.
Proof.
  unfold get_item. destruct (l !! i); split; intros H; by simplify_eq.
Qed.

Lemma get_item_lt {A : Type} (l : list A) (i : nat) :
  (i < length l)%nat -> exists a, get_item l i = Ret a /\ l !! i = Some a.
Proof.
  intros H. destruct (lookup_lt_is_Some_2 l i H) as [a Ha].
  exists a. split; [by apply get_item_Ret | done].
Qed.

Lemma set_item_Ret {A : Type} (l l' : list A) (i : nat) (a : A) :
  set_item l i a = Ret l' <-> (i < length l)%nat /\ l' = <[i:=a]> l.
Proof.
  unfold set_item. destruct (decide (i < length l)%nat); split.
  - by intros [= <-].
  - by intros [_ ->].
  - discriminate.
  - by intros [? _].
Qed.

Ltac inv_ret :=
  repeat match goal with
  | H : _ ≫= _ = Ret _ |- _ =>
      let a := fresh "a" in let Ha := fresh "Ha" in
      apply bind_Ret in H as (a & Ha & H)
  | H : get_item _ _ = Ret _ |- _ => apply get_item_Ret in H
  | H : set_item _ _ _ = Ret _ |- _ =>
      let Hlt := fresh "Hlt" in apply set_item_Ret in H as [Hlt H]
  | H : Ret _ = Ret _ |- _ => injection H as H
  | H : Raise _ = Ret _ |- _ => discriminate H
  | H : OutOfFuel = Ret _ |- _ => discriminate H
  | H : (_, _) = (_, _) |- _ => injection H as ? ?
  end.

(** ** Geometry kernel: the tests do not depend on the direction of the line *)

Lemma pt_eqb_eq (a b : Point) : pt_eqb a b = true <-> a = b.
Proof.
  destruct a as [ax ay], b as [bx by_]. unfold pt_eqb. simpl.
  rewrite andb_true_iff, !Z.eqb_eq. split; [intros [-> ->]; done | by intros [= -> ->]].
Qed.

Lemma pt_eqb_refl (a : Point) : pt_eqb a a = true.
Proof. by apply pt_eqb_eq. Qed.

Lemma pt_ltb_irrefl (a : Point) : pt_ltb a a = false.
Proof.
  unfold pt_ltb. rewrite !Z.ltb_irrefl. by rewrite andb_false_r.
Qed.

Lemma pt_ltb_asym (a b : Point) : pt_ltb a b = true -> pt_ltb b a = false.
Proof.
  unfold pt_ltb. intros H.
  apply orb_true_iff in H as [H | H].
  - apply Z.ltb_lt in H. apply orb_false_iff. split.
    + apply Z.ltb_ge. lia.
    + apply andb_false_iff. left. apply Z.eqb_neq. lia.
  - apply andb_true_iff in H as [H1 H2].
    apply Z.eqb_eq in H1. apply Z.ltb_lt in H2. apply orb_false_iff. split.
    + apply Z.ltb_ge. lia.
    + apply andb_false_iff. right. apply Z.ltb_ge. lia.
Qed.

Lemma pt_ltb_total (a b : Point) :
  pt_ltb a b = false -> pt_ltb b a = false -> a = b.
Proof.
  destruct a as [ax ay], b as [bx by_]. unfold pt_ltb. simpl. intros H1 H2.
  apply orb_false_iff in H1 as [H1 H1'], H2 as [H2 H2'].
  apply Z.ltb_ge in H1, H2. assert (ax = bx) as -> by lia.
  rewrite Z.eqb_refl in H1', H2'. simpl in *.
  apply Z.ltb_ge in H1', H2'. f_equal. lia.
Qed.

Lemma segments_intersect_flip (a b : Point) (l2 : Segment) :
  segments_intersect (b, a) l2 = segments_intersect (a, b) l2.
Proof.
  unfold segments_intersect. destruct l2 as [C D].
  destruct (pt_ltb a b) eqn:Hab.
  - by rewrite (pt_ltb_asym _ _ Hab).
  - destruct (pt_ltb b a) eqn:Hba; [done|].
    by rewrite (pt_ltb_total _ _ Hab Hba).
Qed.

Lemma sip_step_flip (a b : Point) (polygon : Polygon) (result : Z) (i : nat) :
  sip_step (b, a) polygon result i = sip_step (a, b) polygon result i.
Proof.
  unfold sip_step. rewrite segments_intersect_flip. cbn [fst snd].
  destruct (pt_eqb a _), (pt_eqb b _), (pt_eqb a _), (pt_eqb b _); done.
Qed.

Lemma segment_intersects_polygon_flip (a b : Point) (polygon : Polygon) :
  segment_intersects_polygon (b, a) polygon = segment_intersects_polygon (a, b) polygon.
Proof.
  unfold segment_intersects_polygon.
  generalize (seq 0 (length polygon)) as idxs, 0 as result.
  induction idxs as [|i idxs IH]; intros result; simpl; [done|].
  by rewrite sip_step_flip, IH.
Qed.

Lemma visible_flip (polygons : list Polygon) (p q : Point) :
  visible polygons q p = visible polygons p q.
Proof.
  unfold visible. induction polygons as [|P polygons IH]; simpl; [done|].
  by rewrite segment_intersects_polygon_flip, IH.
Qed.

Lemma visible_spec (polygons : list Polygon) (p q : Point) :
  visible polygons p q = true <->
  forall P, P ∈ polygons -> segment_intersects_polygon (p, q) P <> 2.
Proof.
  unfold visible. rewrite forallb_forall. split.
  - intros H P HP. apply list_elem_of_In in HP. specialize (H P HP).
    apply negb_true_iff, Z.eqb_neq in H. done.
  - intros H P HP. apply list_elem_of_In in HP.
    apply negb_true_iff, Z.eqb_neq. by apply H.
Qed.

(** ** The visibility-graph builder *)

#[local] Opaque polygon_edges visible.

Lemma grows_refl (R : nat -> nat -> Prop) (graph : list (list nat)) :
  (forall u w, ~ R u w) -> grows R graph graph.
Proof.
  intros HR. split; [done|]. intros u adj Hu. exists [].
  rewrite app_nil_r. split; [done|]. intros w. split; [by intros ?%elem_of_nil | by intros ?%HR].
Qed.

Lemma grows_trans (R1 R2 R : nat -> nat -> Prop) (g1 g2 g3 : list (list nat)) :
  grows R1 g1 g2 -> grows R2 g2 g3 ->
  (forall u w, R u w <-> R1 u w \/ R2 u w) ->
  grows R g1 g3.
Proof.
  intros [Hlen1 H1] [Hlen2 H2] HR. split; [congruence|].
  intros u adj Hu.
  destruct (H1 u adj Hu) as (extra1 & Hu2 & He1).
  destruct (H2 u _ Hu2) as (extra2 & Hu3 & He2).
  exists (extra1 ++ extra2). rewrite app_assoc. split; [done|].
  intros w. rewrite elem_of_app, He1, He2, HR. done.
Qed.

Lemma append_at_spec (graph : list (list nat)) (j v : nat) :
  (j < length graph)%nat ->
  exists graph', append_at graph j v = Ret graph' /\
    grows (fun u w => u = j /\ w = v) graph graph'.
Proof.
  intros Hj. destruct (get_item_lt graph j Hj) as (adj & Hget & Hadj).
  exists (<[j:=adj ++ [v]]> graph). split.
  - unfold append_at. rewrite Hget. simpl. by apply set_item_Ret.
  - split; [by rewrite length_insert|].
    intros u adj' Hu. destruct (decide (u = j)) as [->|Hne].
    + exists [v]. rewrite list_lookup_insert_eq by done.
      assert (adj' = adj) as -> by congruence. split; [done|].
      intros w. rewrite list_elem_of_singleton.
      split; [by intros -> | by intros [_ ->]].
    + exists []. rewrite list_lookup_insert_ne by done. rewrite app_nil_r.
      split; [done|]. intros w. split; [by intros ?%elem_of_nil | by intros [? _]].
Qed.

Lemma scan_table_spec (ps : list Polygon) (p : Point) (v : nat)
    (tbl : list Point) (j : nat) (graph : list (list nat)) (edge : list nat) :
  (j + length tbl <= length graph)%nat ->
  exists graph' extra,
    scan_table ps p v tbl j graph edge = Ret (graph', edge ++ extra) /\
    grows (fun u w => w = v /\ exists k q,
             u = (j + k)%nat /\ tbl !! k = Some q /\ visible ps p q = true)
          graph graph' /\
    forall w, w ∈ extra <->
      exists k q, w = (j + k)%nat /\ tbl !! k = Some q /\ visible ps p q = true.
Proof.
  revert j graph edge.
  induction tbl as [|q0 tbl IH]; intros j graph edge Hlen; simpl in *.
  - exists graph, []. rewrite app_nil_r. split; [done|]. split.
    + apply grows_refl. intros u w (_ & k & q & _ & Hk & _). done.
    + intros w. split; [by intros ?%elem_of_nil | by intros (k & q & _ & Hk & _)].
  - destruct (visible ps p q0) eqn:Hvis.
    + destruct (append_at_spec graph j v) as (graph1 & Happ & Hg1); [lia|].
      destruct (IH (S j) graph1 (edge ++ [j])) as (graph' & extra & Hscan & Hg & Hex).
      { destruct Hg1 as [-> _]. lia. }
      exists graph', (j :: extra). rewrite Happ. simpl. rewrite Hscan.
      rewrite <- app_assoc. split; [done|]. split.
      * eapply grows_trans; [exact Hg1 | exact Hg |].
        intros u w. split.
        -- intros (-> & k & q & -> & Hk & Hq). destruct k as [|k]; simpl in Hk.
           ++ left. split; [lia | done].
           ++ right. split; [done|]. exists k, q. split; [lia | done].
        -- intros [[-> ->] | (-> & k & q & -> & Hk & Hq)].
           ++ split; [done|]. exists 0%nat, q0. split; [lia | done].
           ++ split; [done|]. exists (S k), q. split; [lia | done].
      * intros w. rewrite elem_of_cons, Hex. split.
        -- intros [-> | (k & q & -> & Hk & Hq)].
           ++ exists 0%nat, q0. split; [lia | done].
           ++ exists (S k), q. split; [lia | done].
        -- intros (k & q & -> & Hk & Hq). destruct k as [|k]; simpl in Hk.
           ++ left. lia.
           ++ right. exists k, q. split; [lia | done].
    + destruct (IH (S j) graph edge) as (graph' & extra & Hscan & Hg & Hex); [lia|].
      exists graph', extra. split; [done|]. split.
      * eapply grows_trans; [apply (grows_refl (fun _ _ => False)); tauto | exact Hg |].
        intros u w. split.
        -- intros (-> & k & q & -> & Hk & Hq). destruct k as [|k]; simpl in Hk.
           ++ congruence.
           ++ right. split; [done|]. exists k, q. split; [lia | done].
        -- intros [[] | (-> & k & q & -> & Hk & Hq)].
           split; [done|]. exists (S k), q. split; [lia | done].
      * intros w. rewrite Hex. split.
        -- intros (k & q & -> & Hk & Hq). exists (S k), q. split; [lia | done].
        -- intros (k & q & -> & Hk & Hq). destruct k as [|k]; simpl in Hk.
           ++ congruence.
           ++ exists k, q. split; [lia | done].
Qed.

Lemma add_vertices_spec (ps : list Polygon) (table : list Point)
    (offset n : nat) (vs : list Point) (i : nat)
    (graph : list (list nat)) (edges : list (list nat)) :
  (length table <= length graph)%nat ->
  exists graph' rows,
    add_vertices ps table offset n vs i graph edges = Ret (graph', edges ++ rows) /\
    grows (fun u w => exists k p q,
             vs !! k = Some p /\ w = (offset + (i + k))%nat /\
             table !! u = Some q /\ visible ps p q = true)
          graph graph' /\
    length rows = length vs /\
    forall k p, vs !! k = Some p ->
      exists extra,
        rows !! k = Some (polygon_edges offset n (i + k) ++ extra) /\
        forall w, w ∈ extra <-> exists q, table !! w = Some q /\ visible ps p q = true.
Proof.
  revert i graph edges.
  induction vs as [|p0 vs IH]; intros i graph edges Hlen; simpl.
  - exists graph, []. rewrite app_nil_r. split; [done|]. split; [|done].
    apply grows_refl. intros u w (k & p & q & Hk & _). done.
  - destruct (scan_table_spec ps p0 (offset + i) table 0 graph (polygon_edges offset n i))
      as (graph1 & extra0 & Hscan & Hg1 & Hex0); [simpl; lia|].
    destruct (IH (S i) graph1 (edges ++ [polygon_edges offset n i ++ extra0]))
      as (graph' & rows & Hadd & Hg & Hrows & Hrow).
    { destruct Hg1 as [-> _]. done. }
    exists graph', ((polygon_edges offset n i ++ extra0) :: rows).
    rewrite Hscan. simpl. rewrite Hadd. rewrite <- app_assoc. split; [done|].
    split; [|split].
    + eapply grows_trans; [exact Hg1 | exact Hg |].
      intros u w. split.
      * intros (k & p & q & Hk & -> & Hu & Hvis). destruct k as [|k]; simpl in Hk.
        -- left. simplify_eq. split; [f_equal; lia|]. by exists u, q.
        -- right. exists k, p, q. split; [done|]. split; [lia | done].
      * intros [(-> & k & q & -> & Hk & Hvis) | (k & p & q & Hk & -> & Hu & Hvis)].
        -- exists 0%nat, p0, q. simpl. split; [done|]. split; [lia | done].
        -- exists (S k), p, q. simpl. split; [done|]. split; [lia | done].
    + simpl. by rewrite Hrows.
    + intros k p Hk. destruct k as [|k]; simpl in Hk.
      * simplify_eq. exists extra0. simpl. rewrite Nat.add_0_r. split; [done|].
        intros w. rewrite Hex0. split.
        -- intros (k & q & -> & Hk & Hq). by exists q.
        -- intros (q & Hw & Hq). by exists w, q.
      * destruct (Hrow k p Hk) as (extra & Hr & Hex). exists extra. simpl.
        replace (i + S k)%nat with (S i + k)%nat by lia. done.
Qed.

Lemma snoc_eq_middle {A : Type} (l l1 l2 : list A) (x y : A) :
  l ++ [x] = l1 ++ y :: l2 ->
  (l2 = [] /\ l = l1 /\ x = y) \/ (exists l2', l2 = l2' ++ [x] /\ l = l1 ++ y :: l2').
Proof.
  destruct l2 as [|z l2 _] using rev_ind; intros H.
  - left. apply app_inj_tail in H as [-> ->]. done.
  - right. exists l2. rewrite app_comm_cons, app_assoc in H.
    apply app_inj_tail in H as [-> ->]. done.
Qed.

Lemma concat_lookup_middle {A : Type} (ps1 : list (list A)) (poly : list A)
    (ps2 : list (list A)) (i : nat) (p : A) :
  poly !! i = Some p ->
  concat (ps1 ++ poly :: ps2) !! (length (concat ps1) + i)%nat = Some p.
Proof.
  intros Hi. rewrite concat_app. simpl.
  rewrite lookup_app_r by lia.
  replace (length (concat ps1) + i - length (concat ps1))%nat with i by lia.
  by apply lookup_app_l_Some.
Qed.

Lemma graph_ok_nil (ps : list Polygon) : graph_ok ps [] [].
Proof.
  split; [done|]. intros ps1 poly ps2 i p H. by destruct ps1.
Qed.

Lemma graph_ok_snoc (ps done : list Polygon) (poly : Polygon)
    (graph graph' rows : list (list nat)) :
  graph_ok ps done graph ->
  grows (fun u w => exists k p q,
           poly !! k = Some p /\ w = (length (concat done) + (0 + k))%nat /\
           concat done !! u = Some q /\ visible ps p q = true)
        graph graph' ->
  length rows = length poly ->
  (forall k p, poly !! k = Some p ->
     exists extra,
       rows !! k = Some (polygon_edges (length (concat done)) (length poly) (0 + k) ++ extra) /\
       forall w, w ∈ extra <-> exists q, concat done !! w = Some q /\ visible ps p q = true) ->
  graph_ok ps (done ++ [poly]) (graph' ++ rows).
Proof.
  intros [Hlen Hok] [Hlen' Hg] Hrows Hrow. split.
  - rewrite length_app, concat_app, length_app. simpl. rewrite app_nil_r. lia.
  - intros ps1 poly0 ps2 i p Hdec Hi. unfold node_of.
    apply snoc_eq_middle in Hdec as [(-> & -> & ->) | (ps2' & -> & ->)].
    + destruct (Hrow i p Hi) as (extra & Hr & Hex). exists extra. split.
      * rewrite lookup_app_r by lia.
        replace (length (concat ps1) + i - length graph')%nat with i by lia. done.
      * intros w. rewrite Hex. unfold sees. split; [by left|].
        intros [H | (ps2a & poly' & ps2b & i' & p' & Hnil & _)]; [done|].
        by destruct ps2a.
    + destruct (Hok ps1 poly0 ps2' i p eq_refl Hi) as (extra0 & Hrow0 & Hex0).
      destruct (Hg _ _ Hrow0) as (extra1 & Hrow1 & Hex1).
      exists (extra0 ++ extra1). split.
      * unfold node_of in *. rewrite app_assoc.
        by apply lookup_app_l_Some.
      * intros w. rewrite elem_of_app, Hex0, Hex1. unfold sees, node_of. split.
        -- intros [[H | (ps2a & poly' & ps2b & i' & p' & -> & Hi' & -> & Hvis)]
                   | (k & p' & q & Hk & -> & Hq & Hvis)].
           ++ by left.
           ++ right. exists ps2a, poly', (ps2b ++ [poly]), i', p'.
              rewrite <- app_assoc. done.
           ++ right. exists ps2', poly, [], k, p'.
              rewrite (concat_lookup_middle _ _ _ _ _ Hi) in Hq. simplify_eq.
              repeat split; [done | done]. 
        -- intros [H | (ps2a & poly' & ps2b & i' & p' & Hdec & Hi' & -> & Hvis)];
             [by left; left|].
           apply snoc_eq_middle in Hdec as [(-> & -> & ->) | (ps2b' & -> & ->)].
           ++ right. exists i', p', p.
              rewrite (concat_lookup_middle _ _ _ _ _ Hi). done.
           ++ left. right. by exists ps2a, poly', ps2b', i', p'.
Qed.

Lemma add_polygons_spec (ps rest done : list Polygon) (graph : list (list nat)) :
  graph_ok ps done graph ->
  exists graph',
    add_polygons ps rest (concat done) graph = Ret (concat (done ++ rest), graph') /\
    graph_ok ps (done ++ rest) graph'.
Proof.
  revert done graph. induction rest as [|poly rest IH]; intros done graph Hok; simpl.
  - exists graph. by rewrite app_nil_r.
  - destruct (add_vertices_spec ps (concat done) (length (concat done)) (length poly)
                poly 0 graph [])
      as (graph1 & rows & Hadd & Hg & Hrows & Hrow).
    { destruct Hok as [-> _]. done. }
    rewrite Hadd. simpl.
    pose proof (graph_ok_snoc ps done poly graph graph1 rows Hok Hg Hrows Hrow) as Hok'.
    destruct (IH (done ++ [poly]) (graph1 ++ rows) Hok') as (graph' & Hrest & Hfin).
    exists graph'. rewrite concat_app in Hrest. simpl in Hrest.
    rewrite app_nil_r in Hrest. rewrite <- app_assoc in Hrest, Hfin. done.
Qed.

(** The builder never fails, the node table is the concatenation of the
    polygons, and every adjacency list is the polygon-edge pair followed by
    the nodes related by the visibility test. *)
Lemma build_graph_spec (ps : list Polygon) :
  exists graph, build_graph ps = Ret (concat ps, graph) /\ graph_ok ps ps graph.
Proof.
  destruct (add_polygons_spec ps ps [] [] (graph_ok_nil ps)) as (graph & H & Hok).
  by exists graph.
Qed.

(** Every node below the length of the table is a vertex of one polygon. *)
Lemma node_decompose (ps : list Polygon) (u : nat) :
  (u < length (concat ps))%nat ->
  exists ps1 poly ps2 i p,
    ps = ps1 ++ poly :: ps2 /\ poly !! i = Some p /\ u = node_of ps1 i.
Proof.
  revert u. induction ps as [|poly ps IH]; intros u Hu; simpl in Hu; [lia|].
  rewrite length_app in Hu.
  destruct (decide (u < length poly)%nat) as [Hlt|Hge].
  - destruct (lookup_lt_is_Some_2 poly u Hlt) as [p Hp].
    exists [], poly, ps, u, p. done.
  - destruct (IH (u - length poly)%nat) as (ps1 & poly' & ps2 & i & p & -> & Hi & Hnode);
      [lia|].
    exists (poly :: ps1), poly', ps2, i, p. split; [done|]. split; [done|].
    unfold node_of in *. simpl. rewrite length_app. lia.
Qed.

(** The polygon of a node is determined by the node. *)
Lemma node_of_inj (ps1 ps1' ps2 ps2' : list Polygon) (poly poly' : Polygon)
    (i i' : nat) :
  ps1 ++ poly :: ps2 = ps1' ++ poly' :: ps2' ->
  (i < length poly)%nat -> (i' < length poly')%nat ->
  node_of ps1 i = node_of ps1' i' ->
  ps1 = ps1' /\ poly = poly' /\ ps2 = ps2' /\ i = i'.
Proof.
  unfold node_of. revert ps1'.
  induction ps1 as [|q ps1 IH]; intros [|q' ps1'] Heq Hi Hi' Hnode; simpl in *.
  - injection Heq as -> ->. repeat split; lia.
  - injection Heq as -> _. rewrite length_app in Hnode. lia.
  - injection Heq as -> _. rewrite length_app in Hnode. lia.
  - injection Heq as -> Heq. rewrite !length_app in Hnode.
    destruct (IH ps1' Heq Hi Hi') as (-> & -> & -> & ->); [lia|done].
Qed.

(** ** The search records graph edges only *)

Section PlannerSound.

Variable dist : Point -> Point -> Z.

Lemma relax_conn (table : list Point) (x y : nat) (st st' : search_state) :
  relax dist table x st y = Ret st' ->
  forall y' x', connection st' !! y' = Some (Some x') ->
    connection st !! y' = Some (Some x') \/ (y' = y /\ x' = x).
Proof.
  unfold relax. intros H y' x' Hc. inv_ret.
  destruct (negb (a2 =? -1) && (a2 <=? dist a a0 + a1)).
  - inv_ret. subst. by left.
  - inv_ret. subst. simpl in Hc.
    destruct (decide (y' = y)) as [->|Hne].
    + rewrite list_lookup_insert_eq in Hc by done. right. by simplify_eq.
    + rewrite list_lookup_insert_ne in Hc by done. by left.
Qed.

Lemma relax_all_conn (table : list Point) (x : nat) (ys : list nat)
    (st st' : search_state) :
  relax_all dist table x st ys = Ret st' ->
  forall y' x', connection st' !! y' = Some (Some x') ->
    connection st !! y' = Some (Some x') \/ (y' ∈ ys /\ x' = x).
Proof.
  revert st. induction ys as [|y ys IH]; intros st H y' x' Hc; simpl in H.
  - inv_ret. subst. by left.
  - inv_ret. destruct (IH _ H _ _ Hc) as [Hc' | [Hin ->]].
    + destruct (relax_conn _ _ _ _ _ Ha _ _ Hc') as [? | [-> ->]]; [by left|].
      right. split; [apply elem_of_cons; by left | done].
    + right. split; [apply elem_of_cons; by right | done].
Qed.

Lemma search_conn (fuel : nat) (graph : list (list nat)) (table : list Point)
    (st st' : search_state) :
  search dist fuel graph table st = Ret st' ->
  conn_ok graph (connection st) -> conn_ok graph (connection st').
Proof.
  revert st. induction fuel as [|fuel IH]; intros st H Hok; simpl in H; [done|].
  destruct (queue st) as [|[[f d] x] queue']; [by inv_ret; subst|].
  destruct (x =? 1)%nat; [by inv_ret; subst|].
  simpl in H. inv_ret.
  destruct (negb (a =? d)); [by apply (IH _ H)|].
  inv_ret. apply (IH _ H). intros y' x' Hc.
  destruct (relax_all_conn _ _ _ _ _ Ha1 _ _ Hc) as [Hc' | [Hin ->]]; [by apply Hok|].
  by exists a0.
Qed.

Lemma backtrack_spec (fuel : nat) (conn : list (option nat)) (x : nat)
    (acc r : list nat) :
  backtrack fuel conn x acc = Ret r ->
  exists rest, r = acc ++ rest /\ walk conn x rest.
Proof.
  revert x acc. induction fuel as [|fuel IH]; intros x acc H; simpl in H; [done|].
  destruct (x =? 0)%nat eqn:Hx.
  - apply Nat.eqb_eq in Hx. inv_ret. subst. exists []. by rewrite app_nil_r.
  - apply Nat.eqb_neq in Hx. inv_ret. destruct a as [x'|]; [|done].
    destruct (IH _ _ H) as (rest & -> & Hw).
    exists (x' :: rest). rewrite <- app_assoc. done.
Qed.

Lemma walk_last (conn : list (option nat)) (x : nat) (rest : list nat) :
  walk conn x rest -> list.last (x :: rest) = Some 0%nat.
Proof.
  revert x. induction rest as [|x' rest IH]; intros x H; simpl in H.
  - by subst.
  - destruct H as (_ & _ & H). rewrite last_cons_cons. by apply IH.
Qed.

(** What [find_route] returns: the table of the considered polygons, their
    graph, and a node path from 0 to 1 along recorded predecessors. *)
Lemma initial_state_conn (table : list Point) (st0 : search_state) :
  initial_state table = Ret st0 ->
  connection st0 = replicate (length table) None.
Proof.
  unfold initial_state. intros H.
  apply bind_Ret in H as (dt & _ & H). by injection H as <-.
Qed.

Lemma find_route_spec (fuel : nat) (start end_ : Point) (buildings : list Polygon)
    (table : list Point) (route : list nat) :
  find_route dist fuel start end_ buildings = Ret (table, route) ->
  table = concat (considered start end_ buildings) /\
  exists graph conn rest,
    graph_ok (considered start end_ buildings) (considered start end_ buildings) graph /\
    conn_ok graph conn /\
    route = reverse (1%nat :: rest) /\ walk conn 1%nat rest.
Proof.
  unfold find_route. generalize (considered start end_ buildings) as ps.
  intros ps H.
  destruct (build_graph_spec ps) as (graph & Hbuild & Hok).
  rewrite Hbuild in H. cbn [mbind outcome_bind] in H.
  apply bind_Ret in H as (st0 & Hinit & H).
  apply bind_Ret in H as (st & Hsearch & H).
  apply bind_Ret in H as (route0 & Hback & H).
  injection H as <- <-. split; [done|].
  destruct (backtrack_spec _ _ _ _ _ Hback) as (rest & -> & Hw).
  exists graph, (connection st), rest. split; [done|]. split; [|done].
  apply (search_conn _ _ _ _ _ Hsearch).
  rewrite (initial_state_conn _ _ Hinit).
  intros y x Hc. apply lookup_replicate in Hc as [? _]. done.
Qed.

End PlannerSound.

(** ** Polylines *)

Lemma clean_tail (B : list Polygon) (x : Point) (r : list Point) :
  clean B (x :: r) -> clean B r.
Proof.
  intros H l1 p q l2 ->. by apply (H (x :: l1) p q l2).
Qed.

Lemma clean_join (B : list Polygon) (l l' : list Point) (x : Point) :
  clean B (l ++ [x]) -> clean B (x :: l') -> clean B (l ++ x :: l').
Proof.
  induction l as [|y l IH]; intros H1 H2; [done|].
  intros l1 p q l2 Heq. destruct l1 as [|y' l1]; simpl in Heq.
  - injection Heq as <- Heq. destruct l as [|z l]; simpl in Heq.
    + injection Heq as <- _. by apply (H1 [] y x []).
    + injection Heq as <- _. by apply (H1 [] y z (l ++ [x])).
  - injection Heq as <- Heq.
    apply (IH (clean_tail _ _ _ H1) H2 l1 p q l2 Heq).
Qed.

Lemma head_app_cons {A : Type} (l l' : list A) (x : A) :
  head (l ++ x :: l') = head (l ++ [x]).
Proof. by destruct l. Qed.

(** ** The refinement loop *)

Lemma traced_bind_Ret {A B : Type} (m : traced A) (k : A -> traced B)
    (log : list print_record) (b : B) :
  m ≫= k = (log, Ret b) ->
  exists a log1 log2, m = (log1, Ret a) /\ k a = (log2, Ret b) /\ log = log1 ++ log2.
Proof.
  destruct m as [log1 [a|e|]]; unfold mbind, traced_bind; simpl; intros H;
    [|discriminate..].
  injection H as <- Hb. exists a, log1, (k a).1. split; [done|].
  split; [|done]. rewrite <- Hb. by destruct (k a).
Qed.

Lemma traced_bind_quiet {A B : Type} (m : outcome A) (k : A -> traced B) :
  quiet m ≫= k =
  match m with
  | Ret a => k a
  | Raise e => ([], Raise e)
  | OutOfFuel => ([], OutOfFuel)
  end.
Proof.
  destruct m as [a|e|]; unfold quiet, mbind, traced_bind; simpl; [|done..].
  by destruct (k a).
Qed.

Lemma traced_bind_pair {A B : Type} (log : list print_record) (m : outcome A)
    (k : A -> traced B) :
  (log, m) ≫= k =
  match m with
  | Ret a => (log ++ (k a).1, (k a).2)
  | Raise e => (log, Raise e)
  | OutOfFuel => (log, OutOfFuel)
  end.
Proof. done. Qed.

Lemma quiet_Ret {A : Type} (m : outcome A) (log : list print_record) (a : A) :
  quiet m = (log, Ret a) -> log = [] /\ m = Ret a.
Proof. unfold quiet. by intros [= <- ->]. Qed.

Lemma refine_sound (rec : Point -> Point -> traced (list Point))
    (table : list Point) (route : list nat) (B : list Polygon) :
  (forall a b log r, rec a b = (log, Ret r) ->
     spans a b r /\ (log = [] -> clean B r)) ->
  forall k i acc log r p0 pi,
    (i + k = length route - 1)%nat ->
    pt table route i pi ->
    head (acc ++ [pi]) = Some p0 ->
    (i <> 0%nat -> acc <> []) ->
    refine rec table route (seq i k) acc = (log, Ret r) ->
    exists acc' pl,
      pt table route (length route - 1) pl /\
      r = acc' ++ [pl] /\ head r = Some p0 /\
      ((i + k)%nat <> 0%nat -> acc' <> []) /\
      (log = [] -> clean B (acc ++ [pi]) -> clean B r).
Proof.
  intros Hrec. induction k as [|k IH]; intros i acc log r p0 pi Hik Hpi Hhd Hacc H.
  - simpl in H. apply quiet_Ret in H as [-> H]. unfold finish in H.
    apply bind_Ret in H as (x & Hx & H). apply bind_Ret in H as (p & Hp & H).
    apply get_item_Ret in Hp. injection H as <-.
    destruct (list.last route) as [xl|] eqn:Hlast; simpl in Hx; [|done].
    injection Hx as ->. rewrite last_lookup in Hlast.
    replace (pred (length route)) with i in Hlast by lia.
    destruct Hpi as (x' & Hx' & Hpi). assert (p = pi) as -> by congruence.
    exists acc, pi. split; [|split; [done|split; [done|split]]].
    + exists x. by replace (length route - 1)%nat with i by lia.
    + intros Hne. apply Hacc. lia.
    + done.
  - rewrite <- cons_seq in H. cbn [refine] in H.
    apply traced_bind_Ret in H as ([a b] & log1 & log2 & Hab & H & ->).
    apply quiet_Ret in Hab as [-> Hab]. cbn [fst snd] in H.
    apply traced_bind_Ret in H as (sub & log3 & log4 & Hsub & H & ->).
    unfold endpoints in Hab.
    apply bind_Ret in Hab as (xi & Hxi & Hab). apply bind_Ret in Hab as (xj & Hxj & Hab).
    apply bind_Ret in Hab as (a' & Ha & Hab). apply bind_Ret in Hab as (b' & Hb & Hab).
    injection Hab as -> ->. apply get_item_Ret in Hxi, Hxj, Ha, Hb.
    destruct Hpi as (x' & Hx' & Hpi). assert (a = pi) as -> by congruence.
    destruct (Hrec _ _ _ _ Hsub) as [[mid ->] Hclean].
    assert (acc ++ pi :: mid ++ [b] = (acc ++ pi :: mid) ++ [b]) as Heq
      by (by rewrite <- app_assoc).
    destruct (acc ++ pi :: mid ++ [b]) as [|p ps] eqn:Hnr.
    { by destruct acc. }
    rewrite Heq, removelast_last in H.
    destruct (IH (S i) (acc ++ pi :: mid) log4 r p0 b) as (acc' & pl & Hpl & Hr & Hhd' & Hne & Hcl).
    + lia.
    + exists xj. by replace (S i) with (i + 1)%nat by lia.
    + rewrite <- Heq, <- Hnr, head_app_cons. done.
    + intros _. by destruct acc.
    + done.
    + exists acc', pl. split; [done|]. split; [done|]. split; [done|].
      split; [intros _; apply Hne; lia|].
      intros Hlog Hc. simpl in Hlog. apply app_eq_nil in Hlog as [-> ->].
      apply Hcl; [done|]. rewrite <- app_assoc. apply clean_join; [done|].
      by apply Hclean.
Qed.

(** ** Start and end in the graph of one call *)

#[local] Transparent polygon_edges.

Lemma polygon_edges_single (offset : nat) :
  polygon_edges offset 1 0 = [offset; offset].
Proof.
  unfold polygon_edges.
  change (Z.to_nat ((Z.of_nat 0 - 1) `mod` Z.of_nat 1)) with 0%nat.
  change (Z.to_nat ((Z.of_nat 0 + 1) `mod` Z.of_nat 1)) with 0%nat.
  by rewrite Nat.add_0_r.
Qed.

#[local] Opaque polygon_edges.

(** The adjacency lists of start (node 0) and end (node 1): the two
    self-edges of the polygon-edge rule, then the nodes seen. *)
Lemma graph_ok_start_end (ps rest : list Polygon) (s e : Point)
    (graph : list (list nat)) :
  ps = [s] :: [e] :: rest -> graph_ok ps ps graph ->
  exists extra0 extra1,
    graph !! 0%nat = Some (0 :: 0 :: extra0)%nat /\
    graph !! 1%nat = Some (1 :: 1 :: extra1)%nat /\
    (1%nat ∈ extra0 <-> visible ps e s = true).
Proof.
  intros Hps [_ Hok].
  destruct (Hok [] [s] ([e] :: rest) 0%nat s Hps eq_refl) as (extra0 & H0 & Hex0).
  destruct (Hok [[s]] [e] rest 0%nat e Hps eq_refl) as (extra1 & H1 & Hex1).
  rewrite polygon_edges_single in H0, H1.
  exists extra0, extra1. split; [done|]. split; [done|].
  rewrite Hex0. unfold sees. split.
  - intros [(q & Hq & _) | (ps2a & poly' & ps2b & i' & p' & Hdec & Hi' & Hnode & Hvis)];
      [done|].
    unfold node_of in Hnode. simpl in Hnode.
    destruct ps2a as [|poly0 ps2a]; simpl in Hdec.
    + injection Hdec as <- _. destruct i'; [|simpl in Hnode; lia].
      by injection Hi' as <-.
    + injection Hdec as <- _. simpl in Hnode. lia.
  - intros Hvis. right. by exists [], [e], rest, 0%nat, e.
Qed.

Section RoutingSound.

Variable dist : Point -> Point -> Z.

(** A returned polyline runs from [start] to [end], and when nothing was
    printed (the depth cap never fired) none of its segments intersects a
    building. *)
Lemma routing_sound (fuel : nat) :
  forall start end_ buildings depth log r,
    routing dist fuel start end_ buildings depth = (log, Ret r) ->
    spans start end_ r /\ (log = [] -> clean buildings r).
Proof.
  induction fuel as [|fuel IH]; intros s e B depth log r H; [done|].
  cbn [routing] in H. destruct (100 <? depth).
  { injection H as <- <-. split; [by exists []|done]. }
  apply traced_bind_Ret in H as ([table route] & log1 & log2 & Hfind & H & ->).
  apply quiet_Ret in Hfind as [-> Hfind].
  apply find_route_spec in Hfind as (-> & graph & conn & rest & Hok & Hconn & -> & Hw).
  destruct (graph_ok_start_end _ _ s e graph eq_refl Hok)
    as (extra0 & extra1 & Hg0 & Hg1 & Hvis).
  set (ps := considered s e B) in *.
  assert (concat ps !! 0%nat = Some s) as Ht0 by done.
  assert (concat ps !! 1%nat = Some e) as Ht1 by done.
  assert (list.head (reverse (1%nat :: rest)) = Some 0%nat) as Hhead.
  { rewrite head_reverse. by eapply walk_last. }
  assert (list.last (reverse (1%nat :: rest)) = Some 1%nat) as Hlast.
  { by rewrite last_reverse. }
  destruct rest as [|x' rest]; [done|].
  destruct Hw as (_ & Hc & Hw).
  destruct (length (reverse (1%nat :: x' :: rest)) =? 2)%nat eqn:Hlen.
  - apply Nat.eqb_eq in Hlen. rewrite length_reverse in Hlen.
    destruct rest; [|simpl in Hlen; lia]. simpl in Hw. subst x'.
    apply quiet_Ret in H as [-> H].
    change (reverse [1%nat; 0%nat]) with [0%nat; 1%nat] in H.
    unfold points_of in H. cbn [mapM] in H.
    apply bind_Ret in H as (p0 & Hp0 & H). apply bind_Ret in H as (l & Hl & H).
    apply bind_Ret in Hl as (p1 & Hp1 & Hl).
    apply get_item_Ret in Hp0, Hp1. injection Hl as <-. injection H as <-.
    assert (p0 = s) as -> by congruence. assert (p1 = e) as -> by congruence.
    split; [by exists []|]. intros _ l1 p q l2 Heq P HP.
    assert (p = s /\ q = e) as [-> ->].
    { destruct l1 as [|? [|? [|? ?]]]; simplify_eq/=; auto. }
    destruct (decide (segment_intersects_polygon (s, e) P = 0)) as [Hz | Hnz];
      [lia|].
    assert (has_edge graph 0 1) as (adj & Hadj & Hin) by by apply Hconn.
    rewrite Hg0 in Hadj. injection Hadj as <-.
    assert (1%nat ∈ extra0) as Hin'.
    { apply elem_of_cons in Hin as [?|Hin]; [done|].
      by apply elem_of_cons in Hin as [?|Hin]. }
    apply Hvis in Hin'. rewrite visible_flip in Hin'.
    apply (proj1 (visible_spec _ _ _) Hin').
    apply elem_of_cons; right. apply elem_of_cons; right.
    by apply list_elem_of_filter.
  - destruct (refine_sound _ (concat ps) (reverse (1%nat :: x' :: rest)) B
                (fun a b log r => IH a b B (depth + 1) log r)
                (length (reverse (1%nat :: x' :: rest)) - 1) 0%nat [] log2 r s s)
      as (acc' & pl & Hpl & -> & Hhd & Hne & Hcl).
    + done.
    + exists 0%nat. by rewrite <- head_lookup.
    + done.
    + done.
    + done.
    + destruct Hpl as (xl & Hxl & Hpl).
      rewrite Nat.sub_1_r, <- last_lookup, Hlast in Hxl. injection Hxl as <-.
      assert (pl = e) as -> by congruence.
      destruct acc' as [|a acc'].
      { exfalso. apply Hne; [|done]. rewrite length_reverse. simpl. lia. }
      simpl in Hhd. injection Hhd as ->.
      split; [by exists acc'|]. simpl. intros ->. apply Hcl; [done|].
      intros l1 p q l2 Heq. destruct l1 as [|? [|? ?]]; discriminate.
Qed.

End RoutingSound.

(** ** More fuel does not change a finished computation *)

Section Fuel.

Variable dist : Point -> Point -> Z.

Lemma search_unfold (fuel : nat) (graph : list (list nat)) (table : list Point)
    (st : search_state) :
  search dist (S fuel) graph table st =
  match queue st with
  | [] => Ret st
  | (_, d, x) :: queue' =>
      let st := SearchState (dist_table st) (connection st) queue' in
      if (x =? 1)%nat then Ret st
      else
        dx ← get_item (dist_table st) x;
        if negb (dx =? d) then search dist fuel graph table st
        else
          ys ← get_item graph x;
          st' ← relax_all dist table x st ys;
          search dist fuel graph table st'
  end.
Proof. done. Qed.

Lemma backtrack_unfold (fuel : nat) (conn : list (option nat)) (x : nat)
    (route : list nat) :
  backtrack (S fuel) conn x route =
  if (x =? 0)%nat then Ret route
  else
    c ← get_item conn x;
    match c with
    | None => Raise TypeError
    | Some x' => backtrack fuel conn x' (route ++ [x'])
    end.
Proof. done. Qed.

Lemma search_fuel_S (fuel : nat) (graph : list (list nat)) (table : list Point)
    (st : search_state) (out : outcome search_state) :
  search dist fuel graph table st = out -> out <> OutOfFuel ->
  search dist (S fuel) graph table st = out.
Proof.
  revert st. induction fuel as [|fuel IH]; intros st H Hout; [by subst|].
  rewrite search_unfold in H. rewrite search_unfold.
  destruct (queue st) as [|[[f d] x] queue']; [done|].
  cbn zeta in H |- *. cbn [dist_table] in H |- *.
  destruct (x =? 1)%nat; [done|].
  destruct (get_item (dist_table st) x) as [dx| |];
    cbn [mbind outcome_bind] in H |- *; [|done..].
  destruct (negb (dx =? d)); [by apply IH|].
  destruct (get_item graph x) as [ys| |]; cbn [mbind outcome_bind] in H |- *; [|done..].
  destruct (relax_all _ _ _ _ _) as [st'| |]; cbn [mbind outcome_bind] in H |- *;
    [|done..].
  by apply IH.
Qed.

Lemma search_fuel_le (fuel fuel' : nat) (graph : list (list nat))
    (table : list Point) (st : search_state) (out : outcome search_state) :
  search dist fuel graph table st = out -> out <> OutOfFuel ->
  (fuel <= fuel')%nat -> search dist fuel' graph table st = out.
Proof.
  intros H Hout Hle. induction Hle as [|fuel' _ IH]; [done|].
  by apply search_fuel_S.
Qed.

Lemma backtrack_fuel_S (fuel : nat) (conn : list (option nat)) (x : nat)
    (acc : list nat) (out : outcome (list nat)) :
  backtrack fuel conn x acc = out -> out <> OutOfFuel ->
  backtrack (S fuel) conn x acc = out.
Proof.
  revert x acc. induction fuel as [|fuel IH]; intros x acc H Hout; [by subst|].
  rewrite backtrack_unfold in H. rewrite backtrack_unfold.
  destruct (x =? 0)%nat; [done|].
  destruct (get_item conn x) as [[x'|]| |]; cbn [mbind outcome_bind] in H |- *;
    [|done..].
  by apply IH.
Qed.

Lemma backtrack_fuel_le (fuel fuel' : nat) (conn : list (option nat)) (x : nat)
    (acc : list nat) (out : outcome (list nat)) :
  backtrack fuel conn x acc = out -> out <> OutOfFuel ->
  (fuel <= fuel')%nat -> backtrack fuel' conn x acc = out.
Proof.
  intros H Hout Hle. induction Hle as [|fuel' _ IH]; [done|].
  by apply backtrack_fuel_S.
Qed.

Lemma find_route_fuel_le (fuel fuel' : nat) (start end_ : Point)
    (buildings : list Polygon) (out : outcome (list Point * list nat)) :
  find_route dist fuel start end_ buildings = out -> out <> OutOfFuel ->
  (fuel <= fuel')%nat -> find_route dist fuel' start end_ buildings = out.
Proof.
  unfold find_route. intros H Hout Hle.
  destruct (build_graph _) as [[table graph]| |]; cbn [mbind outcome_bind] in H |- *;
    [|done..].
  destruct (initial_state table) as [st0| |]; cbn [mbind outcome_bind] in H |- *;
    [|done..].
  destruct (search dist fuel graph table st0) as [st| |] eqn:Hs;
    cbn [mbind outcome_bind] in H; [| |by subst].
  - rewrite (search_fuel_le _ _ _ _ _ _ Hs ltac:(done) Hle).
    cbn [mbind outcome_bind].
    destruct (backtrack fuel (connection st) 1 [1%nat]) as [route| |] eqn:Hb;
      cbn [mbind outcome_bind] in H; [| |by subst].
    + by rewrite (backtrack_fuel_le _ _ _ _ _ _ Hb ltac:(done) Hle).
    + by rewrite (backtrack_fuel_le _ _ _ _ _ _ Hb ltac:(done) Hle).
  - by rewrite (search_fuel_le _ _ _ _ _ _ Hs ltac:(done) Hle).
Qed.

Lemma refine_fuel (rec rec' : Point -> Point -> traced (list Point))
    (table : list Point) (route : list nat) :
  (forall a b log out, rec a b = (log, out) -> out <> OutOfFuel ->
     rec' a b = (log, out)) ->
  forall idxs acc log out,
    refine rec table route idxs acc = (log, out) -> out <> OutOfFuel ->
    refine rec' table route idxs acc = (log, out).
Proof.
  intros Hrec. induction idxs as [|i idxs IH]; intros acc log out H Hout; [done|].
  cbn [refine] in H |- *. rewrite traced_bind_quiet in H. rewrite traced_bind_quiet.
  destruct (endpoints table route i) as [[a b]| |]; [|done..].
  cbn [fst snd] in H |- *.
  destruct (rec a b) as [log1 out1] eqn:Hsub. rewrite traced_bind_pair in H.
  destruct out1 as [sub| |]; [| |by injection H as _ <-].
  - rewrite (Hrec _ _ _ _ Hsub ltac:(done)), traced_bind_pair.
    destruct (acc ++ sub) as [|p ps]; [done|].
    destruct (refine rec table route idxs _) as [log2 out2] eqn:Hrest.
    cbn [fst snd] in H. injection H as <- <-.
    by rewrite (IH _ _ _ Hrest Hout).
  - by rewrite (Hrec _ _ _ _ Hsub ltac:(done)), traced_bind_pair.
Qed.

Lemma routing_unfold (fuel : nat) (start end_ : Point) (buildings : list Polygon)
    (depth : Z) :
  routing dist (S fuel) start end_ buildings depth =
  if 100 <? depth then ([(start, end_, buildings)], Ret [start; end_])
  else
    match find_route dist fuel start end_ buildings with
    | Ret (table, route) =>
        if (length route =? 2)%nat then quiet (points_of table route)
        else
          refine (fun a b => routing dist fuel a b buildings (depth + 1))
                 table route (seq 0 (length route - 1)) []
    | Raise e => ([], Raise e)
    | OutOfFuel => ([], OutOfFuel)
    end.
Proof.
  cbn [routing]. destruct (100 <? depth); [done|].
  rewrite traced_bind_quiet. by destruct (find_route _ _ _ _ _) as [[??]| |].
Qed.

Lemma routing_fuel_S (fuel : nat) :
  forall start end_ buildings depth log out,
    routing dist fuel start end_ buildings depth = (log, out) -> out <> OutOfFuel ->
    routing dist (S fuel) start end_ buildings depth = (log, out).
Proof.
  induction fuel as [|fuel IH]; intros s e B depth log out H Hout.
  { by injection H as _ <-. }
  rewrite routing_unfold in H. rewrite routing_unfold.
  destruct (100 <? depth); [done|].
  destruct (find_route dist fuel s e B) as [[table route]| |] eqn:Hfind;
    [| |by injection H as _ <-].
  - rewrite (find_route_fuel_le fuel (S fuel) _ _ _ _ Hfind ltac:(done) ltac:(lia)).
    destruct (length route =? 2)%nat; [done|].
    apply (refine_fuel (fun a b => routing dist fuel a b B (depth + 1)));
      [|done..].
    intros a b. apply IH.
  - by rewrite (find_route_fuel_le fuel (S fuel) _ _ _ _ Hfind ltac:(done) ltac:(lia)).
Qed.

Lemma routing_fuel_le (fuel fuel' : nat) (start end_ : Point)
    (buildings : list Polygon) (depth : Z) (log : list print_record)
    (out : outcome (list Point)) :
  routing dist fuel start end_ buildings depth = (log, out) -> out <> OutOfFuel ->
  (fuel <= fuel')%nat ->
  routing dist fuel' start end_ buildings depth = (log, out).
Proof.
  intros H Hout Hle. induction Hle as [|fuel' _ IH]; [done|].
  by apply routing_fuel_S.
Qed.

End Fuel.

(** ** Well-formed graphs *)

#[local] Transparent polygon_edges.

Lemma polygon_edges_lt (offset n i v : nat) :
  (0 < n)%nat -> v ∈ polygon_edges offset n i -> (v < offset + n)%nat.
Proof.
  unfold polygon_edges. intros Hn Hv.
  assert (forall z, 0 <= z `mod` Z.of_nat n < Z.of_nat n) as Hmod
    by (intros z; apply Z.mod_pos_bound; lia).
  apply elem_of_cons in Hv as [-> | Hv].
  - specialize (Hmod (Z.of_nat i - 1)). lia.
  - apply list_elem_of_singleton in Hv as ->.
    specialize (Hmod (Z.of_nat i + 1)). lia.
Qed.

#[local] Opaque polygon_edges.

Lemma length_concat_middle {A : Type} (l1 l2 : list (list A)) (x : list A) :
  length (concat (l1 ++ x :: l2)) =
  (length (concat l1) + length x + length (concat l2))%nat.
Proof. rewrite concat_app, length_app. simpl. rewrite length_app. lia. Qed.

Lemma graph_ok_wf (ps : list Polygon) (graph : list (list nat)) :
  graph_ok ps ps graph -> graph_wf graph (length (concat ps)).
Proof.
  intros [Hlen Hok]. split; [done|]. intros u adj v Hu Hv.
  assert (u < length (concat ps))%nat as Hlt.
  { rewrite <- Hlen. by eapply lookup_lt_Some. }
  destruct (node_decompose ps u Hlt) as (ps1 & poly & ps2 & i & p & Hps & Hi & ->).
  destruct (Hok ps1 poly ps2 i p Hps Hi) as (extra & Hrow & Hex).
  assert (length (concat ps) =
          length (concat ps1) + length poly + length (concat ps2))%nat as Htot.
  { by rewrite Hps, length_concat_middle. }
  pose proof (lookup_lt_Some _ _ _ Hi) as Hi'.
  rewrite Hrow in Hu. injection Hu as <-.
  apply elem_of_app in Hv as [Hv | Hv].
  - apply polygon_edges_lt in Hv; lia.
  - apply Hex in Hv as [(q & Hq & _) | (ps2a & poly' & ps2b & i' & p' & -> & Hp' & -> & _)].
    + apply lookup_lt_Some in Hq. lia.
    + apply lookup_lt_Some in Hp'. unfold node_of.
      rewrite Htot, !length_concat_middle. lia.
Qed.

(** ** Termination of the search *)

Lemma unset_insert (dt : list Z) (y : nat) (dy d : Z) :
  dt !! y = Some dy ->
  (unset (<[y:=d]> dt) + is_unset dy = unset dt + is_unset d)%nat.
Proof.
  revert y. induction dt as [|d0 dt IH]; intros [|y] Hy; simpl in Hy; [done|done| |].
  - injection Hy as ->. simpl. lia.
  - specialize (IH y Hy). simpl. lia.
Qed.

Lemma total_insert (dt : list Z) (y : nat) (dy d : Z) :
  dt !! y = Some dy ->
  (total (<[y:=d]> dt) + Z.to_nat dy = total dt + Z.to_nat d)%nat.
Proof.
  revert y. induction dt as [|d0 dt IH]; intros [|y] Hy; simpl in Hy; [done|done| |].
  - injection Hy as ->. simpl. lia.
  - specialize (IH y Hy). simpl. lia.
Qed.

Lemma lex_lt_trans (dt1 dt2 dt3 : list Z) :
  lex_lt dt1 dt2 -> lex_lt dt2 dt3 -> lex_lt dt1 dt3.
Proof. unfold lex_lt. lia. Qed.

Lemma heappush_elem_of (q : list entry) (e e' : entry) :
  e' ∈ heappush q e <-> e' = e \/ e' ∈ q.
Proof.
  induction q as [|e0 q IH]; simpl.
  - rewrite list_elem_of_singleton. split; [by left|]. intros [?|H]; [done|].
    by apply elem_of_nil in H.
  - destruct (entry_ltb e e0).
    + by rewrite elem_of_cons.
    + rewrite !elem_of_cons, IH. tauto.
Qed.

Lemma heappush_length (q : list entry) (e : entry) :
  length (heappush q e) = S (length q).
Proof.
  induction q as [|e0 q IH]; simpl; [done|].
  destruct (entry_ltb e e0); simpl; by rewrite ?IH.
Qed.

Section SearchTotal.

Variable dist : Point -> Point -> Z.
Hypothesis dist_nonneg : forall a b, 0 <= dist a b.

Variable graph : list (list nat).
Variable table : list Point.
Hypothesis Hwf : graph_wf graph (length table).
Hypothesis Htable : (2 <= length table)%nat.

Lemma search_inv_pop (st : search_state) (e : entry) (queue' : list entry) :
  search_inv graph table st -> queue st = e :: queue' ->
  search_inv graph table (SearchState (dist_table st) (connection st) queue').
Proof.
  intros [H1 H2 H3 H4 H5 H6 H7] Hq. split; simpl; try done.
  intros f d x Hin. apply (H3 f d x). rewrite Hq. by apply elem_of_cons; right.
Qed.

(** Links from nodes whose cost is below the new cost of [y] do not pass
    through [y]. *)
Lemma reach0_below (st : search_state) (y x : nat) (dy : Z) :
  search_inv graph table st ->
  dist_table st !! y = Some dy ->
  forall q, reach0 (connection st) q ->
    forall dq, dist_table st !! q = Some dq -> 0 <= dq -> (dy = -1 \/ dq < dy) ->
    reach0 (<[y:=Some x]> (connection st)) q.
Proof.
  intros Hinv Hy q Hq.
  induction Hq as [|q q' Hc Hq' IH]; intros dq Hdq Hpos Hlt; [constructor|].
  assert (q <> y) as Hne by (intros ->; simplify_eq; lia).
  destruct (inv_conn _ _ _ Hinv _ _ Hc) as (_ & dq' & dq0 & Hdq' & Hdq0 & Hle).
  simplify_eq. apply (reach0_step _ q q').
  - by rewrite list_lookup_insert_ne.
  - apply (IH dq'); [done | lia | lia].
Qed.

Lemma reach0_insert (conn : list (option nat)) (y x : nat) :
  (y < length conn)%nat ->
  reach0 (<[y:=Some x]> conn) x ->
  forall q, reach0 conn q -> reach0 (<[y:=Some x]> conn) q.
Proof.
  intros Hy Hx q Hq. induction Hq as [|q q' Hc Hq' IH]; [constructor|].
  destruct (decide (q = y)) as [->|Hne].
  - apply (reach0_step _ y x); [by rewrite list_lookup_insert_eq | done].
  - apply (reach0_step _ q q'); [by rewrite list_lookup_insert_ne | done].
Qed.

(** One relaxation succeeds, keeps the invariant and the cost of [x], and
    either changes nothing or decreases the measure. *)
Lemma relax_total (st : search_state) (x y : nat) (dx : Z) :
  search_inv graph table st ->
  dist_table st !! x = Some dx -> 0 <= dx -> has_edge graph x y ->
  exists st',
    relax dist table x st y = Ret st' /\
    search_inv graph table st' /\
    dist_table st' !! x = Some dx /\
    (st' = st \/ lex_lt (dist_table st') (dist_table st)).
Proof.
  intros Hinv Hx Hdx (adj & Hadj & Hy).
  destruct Hwf as [Hglen Hgwf].
  assert (y < length table)%nat as Hylt by by eapply Hgwf.
  assert (x < length table)%nat as Hxlt.
  { rewrite <- (inv_len_dist _ _ _ Hinv). by eapply lookup_lt_Some. }
  destruct (get_item_lt table x Hxlt) as (tx & Htx & _).
  destruct (get_item_lt table y Hylt) as (ty & Hty & _).
  destruct (get_item_lt table 1%nat ltac:(lia)) as (t1 & Ht1 & _).
  destruct (get_item_lt (dist_table st) y) as (dy & Hdy & Hdy').
  { by rewrite (inv_len_dist _ _ _ Hinv). }
  unfold relax. rewrite Htx, Hty. cbn [mbind outcome_bind].
  rewrite (proj2 (get_item_Ret _ _ _) Hx), Hdy. cbn [mbind outcome_bind].
  pose proof (dist_nonneg tx ty) as Hw.
  set (d_ := dist tx ty + dx) in *.
  destruct (negb (dy =? -1) && (dy <=? d_)) eqn:Hskip.
  { exists st. split; [done|]. split; [done|]. split; [done|]. by left. }
  assert (dy = -1 \/ d_ < dy) as Hupd.
  { apply andb_false_iff in Hskip as [H | H].
    - left. apply negb_false_iff, Z.eqb_eq in H. done.
    - right. apply Z.leb_gt in H. done. }
  assert (y <> 0%nat) as Hy0.
  { intros ->. rewrite (inv_zero _ _ _ Hinv) in Hdy'. simplify_eq. lia. }
  assert (y <> x) as Hyx.
  { intros ->. simplify_eq. lia. }
  pose proof (inv_len_dist _ _ _ Hinv) as Hld.
  pose proof (inv_len_conn _ _ _ Hinv) as Hlc.
  unfold set_item.
  rewrite decide_True by lia. cbn [mbind outcome_bind].
  rewrite decide_True by lia. cbn [mbind outcome_bind].
  rewrite Ht1. cbn [mbind outcome_bind].
  eexists. split; [done|].
  assert (reach0 (<[y:=Some x]> (connection st)) x) as Hrx.
  { eapply (reach0_below st y x dy Hinv Hdy' x); [|done|done|lia].
    by eapply inv_reach. }
  split; [|split].
  - split; simpl.
    + by rewrite length_insert.
    + by rewrite length_insert.
    + intros f d x0 Hin. apply heappush_elem_of in Hin as [[= -> -> ->] | Hin].
      * split; [done | lia].
      * by eapply inv_queue.
    + intros i d Hi. destruct (decide (i = y)) as [->|Hne].
      * rewrite list_lookup_insert_eq in Hi by lia. simplify_eq. right. lia.
      * rewrite list_lookup_insert_ne in Hi by done. by eapply inv_dist.
    + rewrite list_lookup_insert_ne by done. apply Hinv.
    + intros y' x' Hc. destruct (decide (y' = y)) as [->|Hne].
      * rewrite list_lookup_insert_eq in Hc by lia. simplify_eq.
        split; [by exists adj|]. exists dx, d_.
        rewrite list_lookup_insert_ne by done.
        rewrite list_lookup_insert_eq by lia. repeat split; [done | lia..].
      * rewrite list_lookup_insert_ne in Hc by done.
        destruct (inv_conn _ _ _ Hinv _ _ Hc) as (He & dx' & dy' & Hdx' & Hdy'' & Hle).
        split; [done|]. destruct (decide (x' = y)) as [->|Hne'].
        -- exists d_, dy'. rewrite list_lookup_insert_eq by lia.
           rewrite list_lookup_insert_ne by done.
           simplify_eq. repeat split; [done | lia..].
        -- exists dx', dy'. rewrite !list_lookup_insert_ne by done. done.
    + intros i d Hi Hd. destruct (decide (i = y)) as [->|Hne].
      * apply (reach0_step _ y x); [|done].
        rewrite list_lookup_insert_eq by lia. done.
      * rewrite list_lookup_insert_ne in Hi by done.
        apply reach0_insert; [lia | done |]. by eapply inv_reach.
  - simpl. by rewrite list_lookup_insert_ne.
  - right. simpl. unfold lex_lt.
    pose proof (unset_insert _ _ _ d_ Hdy') as Hu.
    pose proof (total_insert _ _ _ d_ Hdy') as Ht.
    unfold is_unset in Hu.
    destruct (decide (d_ = -1)) as [?|_]; [lia|].
    destruct (decide (dy = -1)) as [->|Hdy1]; [left; lia|].
    right. split; [lia|].
    destruct (inv_dist _ _ _ Hinv _ _ Hdy') as [?|Hdy0]; [done|]. lia.
Qed.

Lemma relax_all_total (x : nat) (dx : Z) (ys : list nat) :
  (forall y, y ∈ ys -> has_edge graph x y) -> 0 <= dx ->
  forall st,
    search_inv graph table st -> dist_table st !! x = Some dx ->
    exists st',
      relax_all dist table x st ys = Ret st' /\
      search_inv graph table st' /\
      (st' = st \/ lex_lt (dist_table st') (dist_table st)).
Proof.
  intros Hys Hdx. induction ys as [|y ys IH]; intros st Hinv Hx.
  - exists st. split; [done|]. split; [done|]. by left.
  - destruct (relax_total st x y dx Hinv Hx Hdx) as (st1 & Hrel & Hinv1 & Hx1 & Hm1).
    { apply Hys. by apply elem_of_cons; left. }
    destruct (IH ltac:(intros; apply Hys; by apply elem_of_cons; right) st1 Hinv1 Hx1)
      as (st2 & Hall & Hinv2 & Hm2).
    exists st2. cbn [relax_all]. rewrite Hrel. cbn [mbind outcome_bind].
    split; [done|]. split; [done|].
    destruct Hm1 as [-> | Hm1]; [done|]. right.
    destruct Hm2 as [-> | Hm2]; [done|]. by eapply lex_lt_trans.
Qed.

(** The search loop terminates, from every state that satisfies the
    invariant, in a state that satisfies it. *)
Lemma search_total :
  forall nu ns nq st,
    unset (dist_table st) = nu -> total (dist_table st) = ns ->
    length (queue st) = nq -> search_inv graph table st ->
    exists fuel st', search dist fuel graph table st = Ret st' /\
                     search_inv graph table st'.
Proof.
  induction nu as [nu IHU] using lt_wf_ind.
  induction ns as [ns IHS] using lt_wf_ind.
  induction nq as [nq IHQ] using lt_wf_ind.
  intros st HU HS HQ Hinv.
  destruct (queue st) as [|[[f d] x] queue'] eqn:Hq.
  { exists 1%nat, st. by rewrite search_unfold, Hq. }
  pose proof (search_inv_pop st _ _ Hinv Hq) as Hinv1.
  set (st1 := SearchState (dist_table st) (connection st) queue') in *.
  destruct (x =? 1)%nat eqn:Hx1.
  { exists 1%nat, st1. by rewrite search_unfold, Hq; cbn zeta; rewrite Hx1. }
  destruct (inv_queue _ _ _ Hinv f d x) as [Hxlt Hd].
  { rewrite Hq. by apply elem_of_cons; left. }
  destruct (get_item_lt (dist_table st) x) as (dx & Hgx & Hdx).
  { by rewrite (inv_len_dist _ _ _ Hinv). }
  destruct (negb (dx =? d)) eqn:Hstale.
  { destruct (IHQ (length queue') ltac:(simpl in HQ; lia) st1)
      as (fuel & st' & Hs & Hinv'); [done..|].
    exists (S fuel), st'. split; [|done].
    rewrite search_unfold, Hq. cbn zeta. rewrite Hx1. cbn [dist_table].
    rewrite Hgx. cbn [mbind outcome_bind]. by rewrite Hstale. }
  apply negb_false_iff, Z.eqb_eq in Hstale as Hdxd. subst d.
  destruct (get_item_lt graph x) as (ys & Hgys & Hys).
  { destruct Hwf as [-> _]. done. }
  destruct (relax_all_total x dx ys ltac:(intros y ?; by exists ys) Hd st1 Hinv1 Hdx)
    as (st2 & Hall & Hinv2 & Hm).
  assert (exists fuel st', search dist fuel graph table st2 = Ret st' /\
                           search_inv graph table st') as (fuel & st' & Hs & Hinv').
  { destruct Hm as [-> | [Hlt | [Heq Hlt]]].
    - apply (IHQ (length queue') ltac:(simpl in HQ; lia) st1); done.
    - eapply (IHU _ ltac:(subst nu; exact Hlt)); done.
    - eapply (IHS _ ltac:(subst ns; exact Hlt)); [|done..]. by rewrite Heq. }
  exists (S fuel), st'. split; [|done].
  rewrite search_unfold, Hq. cbn zeta. rewrite Hx1. cbn [dist_table].
  rewrite Hgx. cbn [mbind outcome_bind]. rewrite Hstale, Hgys.
  cbn [mbind outcome_bind]. fold st1. rewrite Hall. done.
Qed.

Lemma initial_state_inv :
  exists st0, initial_state table = Ret st0 /\ search_inv graph table st0.
Proof.
  unfold initial_state, set_item. rewrite length_replicate.
  rewrite decide_True by lia. cbn [mbind outcome_bind].
  eexists. split; [done|]. split; cbn [dist_table connection queue].
  - by rewrite length_insert, length_replicate.
  - by rewrite length_replicate.
  - intros f d x Hin. apply list_elem_of_singleton in Hin as [= -> -> ->].
    split; lia.
  - intros i d Hi. destruct (decide (i = 0%nat)) as [->|Hne].
    + rewrite list_lookup_insert_eq in Hi by (rewrite length_replicate; lia).
      right. by simplify_eq.
    + rewrite list_lookup_insert_ne in Hi by done.
      apply lookup_replicate in Hi as [-> _]. by left.
  - rewrite list_lookup_insert_eq by (rewrite length_replicate; lia). done.
  - intros y x Hc. by apply lookup_replicate in Hc as [? _].
  - intros i d Hi Hd. destruct (decide (i = 0%nat)) as [->|Hne]; [constructor|].
    rewrite list_lookup_insert_ne in Hi by done.
    apply lookup_replicate in Hi as [-> _]. lia.
Qed.

Lemma backtrack_reach (conn : list (option nat)) (x : nat) :
  reach0 conn x ->
  forall acc, exists fuel r, backtrack fuel conn x acc = Ret r.
Proof.
  induction 1 as [|y x Hc Hx IH]; intros acc.
  - by exists 1%nat, acc.
  - destruct (y =? 0)%nat eqn:Hy.
    + exists 1%nat, acc. by rewrite backtrack_unfold, Hy.
    + destruct (IH (acc ++ [x])) as (fuel & r & Hb).
      exists (S fuel), r. rewrite backtrack_unfold, Hy.
      by rewrite (proj2 (get_item_Ret _ _ _) Hc).
Qed.

Lemma walk_lt (st : search_state) (x : nat) (rest : list nat) :
  search_inv graph table st -> walk (connection st) x rest ->
  forall x', x' ∈ rest -> (x' < length table)%nat.
Proof.
  intros Hinv. revert x. induction rest as [|x1 rest IH]; intros x Hw x' Hin.
  - by apply elem_of_nil in Hin.
  - destruct Hw as (_ & Hc & Hw). apply elem_of_cons in Hin as [-> | Hin].
    + destruct (inv_conn _ _ _ Hinv _ _ Hc) as (_ & dx & _ & Hdx & _).
      rewrite <- (inv_len_dist _ _ _ Hinv). by eapply lookup_lt_Some.
    + by eapply IH.
Qed.

(** Search and walk back: either the goal has no predecessor (a
    [TypeError]), or a node path inside the table comes out. *)
Lemma search_backtrack_total :
  exists fuel st0,
    initial_state table = Ret st0 /\
    exists st, search dist fuel graph table st0 = Ret st /\
      (backtrack fuel (connection st) 1%nat [1%nat] = Raise TypeError \/
       exists route, backtrack fuel (connection st) 1%nat [1%nat] = Ret route /\
                     forall x, x ∈ route -> (x < length table)%nat).
Proof.
  destruct initial_state_inv as (st0 & Hinit & Hinv0).
  destruct (search_total _ _ _ st0 eq_refl eq_refl eq_refl Hinv0)
    as (fuel1 & st & Hs & Hinv).
  destruct (get_item_lt (connection st) 1%nat) as (c & Hgc & Hc).
  { rewrite (inv_len_conn _ _ _ Hinv). lia. }
  destruct c as [x|].
  - destruct (inv_conn _ _ _ Hinv _ _ Hc) as (_ & dx & dy & _ & Hdy & Hle).
    assert (reach0 (connection st) 1%nat) as Hr by (eapply inv_reach; [done..|lia]).
    destruct (backtrack_reach _ _ Hr [1%nat]) as (fuel2 & route & Hb).
    exists (fuel1 `max` fuel2)%nat, st0. split; [done|]. exists st. split.
    { by apply (search_fuel_le dist fuel1); [| |lia]. }
    right. exists route. split.
    { by apply (backtrack_fuel_le fuel2); [| |lia]. }
    destruct (backtrack_spec _ _ _ _ _ Hb) as (rest & -> & Hw).
    intros x' Hin. apply elem_of_cons in Hin as [-> | Hin]; [lia|].
    by eapply walk_lt.
  - exists (S fuel1), st0. split; [done|]. exists st. split.
    { by apply (search_fuel_le dist fuel1); [| |lia]. }
    left. rewrite backtrack_unfold. simpl. by rewrite Hgc.
Qed.

End SearchTotal.

(** ** Termination of [routing] *)

Lemma terminated_fuel {A : Type} (out : outcome A) :
  terminated out -> out <> OutOfFuel.
Proof. intros [[a ->] | ->]; done. Qed.

Lemma common_fuel (P : nat -> nat -> Prop) (idxs : list nat) :
  (forall i f f', P i f -> (f <= f')%nat -> P i f') ->
  (forall i, i ∈ idxs -> exists f, P i f) ->
  exists F, forall i, i ∈ idxs -> P i F.
Proof.
  intros Hmono. induction idxs as [|i idxs IH]; intros Hex.
  - exists 0%nat. intros i Hi. by apply elem_of_nil in Hi.
  - destruct (Hex i ltac:(by apply elem_of_cons; left)) as [f Hf].
    destruct IH as [F HF]; [intros j Hj; apply Hex; by apply elem_of_cons; right|].
    exists (f `max` F)%nat. intros j Hj. apply elem_of_cons in Hj as [-> | Hj].
    + apply (Hmono _ f); [done | lia].
    + apply (Hmono _ F); [by apply HF | lia].
Qed.

Lemma points_of_total (table : list Point) (route : list nat) :
  (forall x, x ∈ route -> (x < length table)%nat) ->
  exists r, points_of table route = Ret r.
Proof.
  unfold points_of. induction route as [|x route IH]; intros Hlt; [by exists []|].
  destruct (get_item_lt table x) as (p & Hp & _); [apply Hlt; by apply elem_of_cons; left|].
  destruct IH as [r Hr]; [intros y Hy; apply Hlt; by apply elem_of_cons; right|].
  exists (p :: r). cbn [mapM]. rewrite Hp. cbn [mbind outcome_bind].
  rewrite Hr. done.
Qed.

Lemma endpoints_total (table : list Point) (route : list nat) (i : nat) :
  (forall x, x ∈ route -> (x < length table)%nat) ->
  (i + 1 < length route)%nat ->
  exists a b, endpoints table route i = Ret (a, b).
Proof.
  intros Hlt Hi.
  destruct (get_item_lt route i ltac:(lia)) as (xi & Hxi & Hxi').
  destruct (get_item_lt route (i + 1)%nat Hi) as (xj & Hxj & Hxj').
  destruct (get_item_lt table xi) as (a & Ha & _).
  { apply Hlt. by eapply list_elem_of_lookup_2. }
  destruct (get_item_lt table xj) as (b & Hb & _).
  { apply Hlt. by eapply list_elem_of_lookup_2. }
  exists a, b. unfold endpoints. rewrite Hxi. cbn [mbind outcome_bind].
  rewrite Hxj. cbn [mbind outcome_bind]. rewrite Ha. cbn [mbind outcome_bind].
  rewrite Hb. done.
Qed.

Lemma finish_total (table : list Point) (route : list nat) (acc : list Point) :
  (forall x, x ∈ route -> (x < length table)%nat) -> route <> [] ->
  exists r, finish table route acc = Ret r.
Proof.
  intros Hlt Hne. unfold finish.
  destruct (list.last route) as [x|] eqn:Hlast.
  - destruct (get_item_lt table x) as (p & Hp & _).
    { apply Hlt. by eapply last_Some_elem_of. }
    exists (acc ++ [p]). simpl. rewrite Hp. done.
  - by apply last_None in Hlast.
Qed.

Lemma refine_total (rec : Point -> Point -> traced (list Point))
    (table : list Point) (route : list nat) :
  (forall x, x ∈ route -> (x < length table)%nat) -> route <> [] ->
  forall idxs,
    (forall i, i ∈ idxs -> (i + 1 < length route)%nat) ->
    (forall i a b, i ∈ idxs -> endpoints table route i = Ret (a, b) ->
       exists log out, rec a b = (log, out) /\ terminated out /\
                       forall r, out = Ret r -> r <> []) ->
    forall acc, exists log out,
      refine rec table route idxs acc = (log, out) /\ terminated out.
Proof.
  intros Hlt Hne. induction idxs as [|i idxs IH]; intros Hidx Hrec acc.
  - destruct (finish_total table route acc Hlt Hne) as [r Hr].
    exists [], (Ret r). cbn [refine]. rewrite Hr. split; [done|]. left. by exists r.
  - destruct (endpoints_total table route i Hlt) as (a & b & Hab).
    { apply Hidx. by apply elem_of_cons; left. }
    destruct (Hrec i a b ltac:(by apply elem_of_cons; left) Hab)
      as (log1 & out1 & Hsub & Hterm & Hnil).
    cbn [refine]. rewrite traced_bind_quiet, Hab. cbn [fst snd].
    rewrite Hsub, traced_bind_pair.
    destruct Hterm as [[sub ->] | ->].
    + destruct (acc ++ sub) as [|p ps] eqn:Hnr.
      { apply app_eq_nil in Hnr as [_ ->]. by destruct (Hnil [] eq_refl). }
      destruct (IH ltac:(intros j Hj; apply Hidx; by apply elem_of_cons; right)
                   ltac:(intros j a' b' Hj; apply Hrec; by apply elem_of_cons; right)
                   (removelast (p :: ps))) as (log2 & out2 & Href & Hterm2).
      exists (log1 ++ log2), out2. by rewrite Href.
    + exists log1, (Raise TypeError). split; [done|]. by right.
Qed.

Section RoutingTotal.

Variable dist : Point -> Point -> Z.
Hypothesis dist_nonneg : forall a b, 0 <= dist a b.

Lemma find_route_total (start end_ : Point) (buildings : list Polygon) :
  exists fuel,
    find_route dist fuel start end_ buildings = Raise TypeError \/
    exists table route,
      find_route dist fuel start end_ buildings = Ret (table, route) /\
      (forall x, x ∈ route -> (x < length table)%nat).
Proof.
  unfold find_route.
  destruct (build_graph_spec (considered start end_ buildings)) as (graph & Hb & Hok).
  apply graph_ok_wf in Hok.
  assert (2 <= length (concat (considered start end_ buildings)))%nat as Hlen.
  { simpl. lia. }
  revert Hb Hok Hlen. generalize (concat (considered start end_ buildings)) as table.
  intros table Hb Hwf Hlen.
  destruct (search_backtrack_total dist dist_nonneg graph table Hwf Hlen)
    as (fuel & st0 & Hinit & st & Hs & Hback).
  exists fuel. rewrite Hb. cbn [mbind outcome_bind].
  rewrite Hinit. cbn [mbind outcome_bind]. rewrite Hs. cbn [mbind outcome_bind].
  destruct Hback as [-> | (route & -> & Hlt)]; [by left|].
  right. exists table, (reverse route). split; [done|].
  intros x Hx. apply Hlt. by apply elem_of_reverse.
Qed.

(** Every call of [routing] terminates: below the depth cap by the
    termination of the search and of the calls one level deeper, above it
    at once. *)
Lemma routing_total (buildings : list Polygon) (n : nat) :
  forall depth, 101 - depth <= Z.of_nat n ->
  forall start end_, exists fuel log out,
    routing dist fuel start end_ buildings depth = (log, out) /\ terminated out.
Proof.
  induction n as [|n IH]; intros depth Hn s e.
  - exists 1%nat, [(s, e, buildings)], (Ret [s; e]).
    rewrite routing_unfold. rewrite (proj2 (Z.ltb_lt 100 depth)) by lia.
    split; [done|]. left. by eexists.
  - destruct (100 <? depth) eqn:Hcap.
    { exists 1%nat, [(s, e, buildings)], (Ret [s; e]).
      rewrite routing_unfold, Hcap. split; [done|]. left. by eexists. }
    apply Z.ltb_ge in Hcap.
    destruct (find_route_total s e buildings) as (fuel0 & Hfind).
    destruct Hfind as [Hfind | (table & route & Hfind & Hlt)].
    { exists (S fuel0), [], (Raise TypeError).
      rewrite routing_unfold, (proj2 (Z.ltb_ge 100 depth)) by lia.
      rewrite Hfind. split; [done|]. by right. }
    destruct (length route =? 2)%nat eqn:Hlen.
    { destruct (points_of_total table route Hlt) as [r Hr].
      exists (S fuel0), [], (Ret r).
      rewrite routing_unfold, (proj2 (Z.ltb_ge 100 depth)) by lia.
      rewrite Hfind, Hlen, Hr. split; [done|]. left. by eexists. }
    set (idxs := seq 0 (length route - 1)).
    destruct (common_fuel
      (fun i f => forall a b, endpoints table route i = Ret (a, b) ->
         exists log out, routing dist f a b buildings (depth + 1) = (log, out) /\
                         terminated out) idxs) as [F HF].
    { intros i f f' Hf Hle a b Hab. destruct (Hf a b Hab) as (log & out & Hr & Ht).
      exists log, out. split; [|done].
      by apply (routing_fuel_le dist f f'); [|apply terminated_fuel|]. }
    { intros i _. destruct (endpoints table route i) as [[a b]| |] eqn:Hab.
      - destruct (IH (depth + 1) ltac:(lia) a b) as (f & log & out & Hr & Ht).
        exists f. intros a' b' [= <- <-]. by exists log, out.
      - by exists 0%nat.
      - by exists 0%nat. }
    assert (route <> []) as Hne.
    { destruct (find_route_spec _ _ _ _ _ _ _ Hfind) as (_ & _ & _ & rest & _ & _ & -> & _).
      rewrite reverse_cons. by destruct (reverse rest). }
    destruct (refine_total
                (fun a b => routing dist (fuel0 `max` F) a b buildings (depth + 1))
                table route Hlt Hne idxs) with (acc := @nil Point)
      as (log & out & Href & Hterm).
    { intros i Hi. apply elem_of_seq in Hi. lia. }
    { intros i a b Hi Hab. destruct (HF i Hi a b Hab) as (log & out & Hr & Ht).
      exists log, out. split; [|split; [done|]].
      - by apply (routing_fuel_le dist F); [|apply terminated_fuel|lia].
      - intros r ->. apply routing_sound in Hr as [[mid ->] _]. done. }
    exists (S (fuel0 `max` F)), log, out.
    rewrite routing_unfold, (proj2 (Z.ltb_ge 100 depth)) by lia.
    rewrite (find_route_fuel_le dist fuel0 _ _ _ _ _ Hfind) by (done || lia).
    rewrite Hlen. done.
Qed.

End RoutingTotal.

(** ** [routing.py]: the two routing classes and the feasibility check *)

Lemma foldl_append {A : Type} (acc ws : list A) :
  foldl (fun route w => route ++ [w]) acc ws = acc ++ ws.
Proof.
  revert acc. induction ws as [|w ws IH]; intros acc; simpl.
  - by rewrite app_nil_r.
  - by rewrite IH, <- app_assoc.
Qed.

Lemma accumulate_foldl {Position : Type} (step : Position -> Position -> Q)
    (total : Q) (route : list Position) :
  accumulate step total route =
  foldl Qplus total (zip_with step route (tail route)).
Proof.
  revert total. induction route as [|a route IH]; intros total; [done|].
  destruct route as [|b route]; [done|].
  change (accumulate step total (a :: b :: route))
    with (accumulate step (total + step a b)%Q (b :: route)).
  by rewrite IH.
Qed.

Lemma simple_calculate_distance_length {Position : Type}
    (distance_to : Position -> Position -> Q) (route : list Position) :
  SimpleRouting.calculate_distance Position distance_to route =
  polyline_length distance_to route.
Proof.
  unfold SimpleRouting.calculate_distance, polyline_length.
  destruct (length route <? 2)%nat eqn:Hlen.
  - apply Nat.ltb_lt in Hlen. by destruct route as [|a [|b route]]; [| |simpl in Hlen; lia].
  - apply accumulate_foldl.
Qed.

(** ** Which pairs of vertices the builder joins *)

#[local] Transparent polygon_edges.

Lemma polygon_edges_ge (offset n i v : nat) :
  v ∈ polygon_edges offset n i -> (offset <= v)%nat.
Proof.
  unfold polygon_edges. intros Hv.
  apply elem_of_cons in Hv as [-> | Hv]; [lia|].
  apply list_elem_of_singleton in Hv as ->. lia.
Qed.

#[local] Opaque polygon_edges.

(** Two vertices of one polygon are joined exactly by the polygon-edge rule:
    the visibility test is never run on them. *)
Lemma graph_ok_same_polygon (ps : list Polygon) (graph : list (list nat))
    (ps1 : list Polygon) (poly : Polygon) (ps2 : list Polygon) (i j : nat)
    (p : Point) :
  graph_ok ps ps graph ->
  ps = ps1 ++ poly :: ps2 -> poly !! i = Some p -> (j < length poly)%nat ->
  has_edge graph (node_of ps1 i) (node_of ps1 j) <->
  node_of ps1 j ∈ polygon_edges (length (concat ps1)) (length poly) i.
Proof.
  intros [_ Hok] Hps Hi Hj.
  destruct (Hok ps1 poly ps2 i p Hps Hi) as (extra & Hrow & Hex).
  unfold has_edge. rewrite Hrow. split.
  - intros (adj & [= <-] & Hin). apply elem_of_app in Hin as [Hin | Hin]; [done|].
    exfalso. apply Hex in Hin as [(q & Hq & _) | (ps2a & poly' & ps2b & i' & p' & _ & _ & Hn & _)].
    + apply lookup_lt_Some in Hq. unfold node_of in Hq. lia.
    + unfold node_of in Hn. rewrite length_concat_middle in Hn. lia.
  - intros Hin. eexists. split; [done|]. apply elem_of_app. by left.
Qed.

(** A vertex [p] and a vertex [q] of a later polygon are joined, in both
    directions, exactly when the visibility test passes on [(q, p)]. *)
Lemma graph_ok_cross_polygon (ps : list Polygon) (graph : list (list nat))
    (ps1 : list Polygon) (poly : Polygon) (ps2 : list Polygon) (poly' : Polygon)
    (ps3 : list Polygon) (i j : nat) (p q : Point) :
  graph_ok ps ps graph ->
  ps = ps1 ++ poly :: ps2 ++ poly' :: ps3 ->
  poly !! i = Some p -> poly' !! j = Some q ->
  (has_edge graph (node_of ps1 i) (node_of (ps1 ++ poly :: ps2) j) <->
   visible ps q p = true) /\
  (has_edge graph (node_of (ps1 ++ poly :: ps2) j) (node_of ps1 i) <->
   visible ps q p = true).
Proof.
  intros [_ Hok] Hps Hi Hj.
  pose proof (lookup_lt_Some _ _ _ Hi) as Hi'.
  pose proof (lookup_lt_Some _ _ _ Hj) as Hj'.
  assert (ps = (ps1 ++ poly :: ps2) ++ poly' :: ps3) as Hps'.
  { by rewrite Hps, <- app_assoc. }
  destruct (Hok ps1 poly (ps2 ++ poly' :: ps3) i p Hps Hi) as (extra & Hrow & Hex).
  destruct (Hok (ps1 ++ poly :: ps2) poly' ps3 j q Hps' Hj) as (extra' & Hrow' & Hex').
  unfold has_edge. rewrite Hrow, Hrow'. split; split.
  - intros (adj & [= <-] & Hin). apply elem_of_app in Hin as [Hin | Hin].
    { apply polygon_edges_lt in Hin; [|lia]. unfold node_of in Hin.
      rewrite length_concat_middle in Hin. lia. }
    apply Hex in Hin as [(x & Hx & _) | (ps2a & poly'' & ps2b & i' & p' & Hdec & Hp' & Hn & Hvis)].
    { apply lookup_lt_Some in Hx. unfold node_of in Hx.
      rewrite length_concat_middle in Hx. lia. }
    assert ((ps1 ++ poly :: ps2) ++ poly' :: ps3 = (ps1 ++ poly :: ps2a) ++ poly'' :: ps2b)
      as Heq.
    { rewrite <- !app_assoc. simpl. by rewrite Hdec. }
    destruct (node_of_inj _ _ _ _ _ _ _ _ Heq Hj' (lookup_lt_Some _ _ _ Hp') Hn)
      as (_ & <- & _ & <-).
    by simplify_eq.
  - intros Hvis. eexists. split; [done|]. apply elem_of_app. right.
    apply Hex. right. by exists ps2, poly', ps3, j, q.
  - intros (adj & [= <-] & Hin). apply elem_of_app in Hin as [Hin | Hin].
    { apply polygon_edges_ge in Hin. unfold node_of in Hin.
      rewrite length_concat_middle in Hin. lia. }
    apply Hex' in Hin as [(x & Hx & Hvis) | (ps2a & poly'' & ps2b & i' & p' & _ & _ & Hn & _)].
    + unfold node_of in Hx.
      rewrite (concat_lookup_middle _ _ _ _ _ Hi) in Hx. by simplify_eq.
    + unfold node_of in Hn. rewrite !length_concat_middle in Hn. lia.
  - intros Hvis. eexists. split; [done|]. apply elem_of_app. right.
    apply Hex'. left. exists p. split; [|done].
    unfold node_of. by apply concat_lookup_middle.
Qed.

(** ** An obstacle that no candidate segment meets *)

Lemma considered_skip (start end_ : Point) (B1 B2 : list Polygon) (P : Polygon) :
  segment_intersects_polygon (start, end_) P = 0 ->
  considered start end_ (B1 ++ P :: B2) = considered start end_ (B1 ++ B2).
Proof.
  intros HP. unfold considered. f_equal.
  rewrite !list.filter_app. f_equal. apply list.filter_cons_False.
  intros H. by apply H.
Qed.

Lemma elem_of_concat {A : Type} (x : A) (ls : list (list A)) :
  x ∈ concat ls <-> exists l, x ∈ l /\ l ∈ ls.
Proof.
  induction ls as [|l0 ls IH]; simpl.
  - split; [by intros ?%elem_of_nil | by intros (l & _ & ?%elem_of_nil)].
  - rewrite elem_of_app, IH. split.
    + intros [H | (l & Hx & Hl)].
      * exists l0. split; [done|]. by apply elem_of_cons; left.
      * exists l. split; [done|]. by apply elem_of_cons; right.
    + intros (l & Hx & Hl). apply elem_of_cons in Hl as [-> | Hl]; [by left|].
      right. by exists l.
Qed.

Lemma considered_points (start end_ : Point) (B : list Polygon) (a : Point) :
  a ∈ concat (considered start end_ B) -> a ∈ start :: end_ :: concat B.
Proof.
  unfold considered. simpl. rewrite !elem_of_cons. intros [?|[?|Ha]]; [by left|by right; left|].
  right. right. apply elem_of_concat in Ha as (poly & Ha & Hpoly).
  apply elem_of_concat. exists poly. split; [done|].
  by apply list_elem_of_filter in Hpoly as [_ ?].
Qed.

Lemma endpoints_elem_of (table : list Point) (route : list nat) (i : nat)
    (a b : Point) :
  endpoints table route i = Ret (a, b) -> a ∈ table /\ b ∈ table.
Proof.
  unfold endpoints. intros H.
  apply bind_Ret in H as (xi & _ & H). apply bind_Ret in H as (xj & _ & H).
  apply bind_Ret in H as (a' & Ha & H). apply bind_Ret in H as (b' & Hb & H).
  injection H as -> ->. apply get_item_Ret in Ha, Hb.
  split; by eapply list_elem_of_lookup_2.
Qed.

Lemma refine_ext (rec rec' : Point -> Point -> traced (list Point))
    (table : list Point) (route : list nat) (idxs : list nat) :
  (forall i a b, endpoints table route i = Ret (a, b) -> (rec a b).2 = (rec' a b).2) ->
  forall acc,
    (refine rec table route idxs acc).2 = (refine rec' table route idxs acc).2.
Proof.
  intros Hrec. induction idxs as [|i idxs IH]; intros acc; [done|].
  cbn [refine]. rewrite !traced_bind_quiet.
  destruct (endpoints table route i) as [[a b]| |] eqn:Hab; [|done..].
  cbn [fst snd]. specialize (Hrec i a b Hab).
  destruct (rec a b) as [log1 out1], (rec' a b) as [log2 out2].
  cbn [snd] in Hrec. subst out2. rewrite !traced_bind_pair.
  destruct out1 as [sub| |]; [|done..].
  destruct (acc ++ sub) as [|p ps]; [done|]. cbn [snd]. apply IH.
Qed.

Section Irrelevant.

Variable dist : Point -> Point -> Z.
Variables B1 B2 : list Polygon.
Variable P : Polygon.
Variable pts : list Point.
Hypothesis Hpts : forall a, a ∈ concat (B1 ++ B2) -> a ∈ pts.
Hypothesis Hclear :
  forall a b, a ∈ pts -> b ∈ pts -> segment_intersects_polygon (a, b) P = 0.

Lemma find_route_skip (fuel : nat) (start end_ : Point) :
  start ∈ pts -> end_ ∈ pts ->
  find_route dist fuel start end_ (B1 ++ P :: B2) =
  find_route dist fuel start end_ (B1 ++ B2).
Proof.
  intros Hs He. unfold find_route. by rewrite considered_skip by by apply Hclear.
Qed.

Lemma routing_skip (fuel : nat) :
  forall start end_ depth, start ∈ pts -> end_ ∈ pts ->
    (routing dist fuel start end_ (B1 ++ P :: B2) depth).2 =
    (routing dist fuel start end_ (B1 ++ B2) depth).2.
Proof.
  induction fuel as [|fuel IH]; intros s e depth Hs He; [done|].
  rewrite !routing_unfold. destruct (100 <? depth); [done|].
  rewrite find_route_skip by done.
  destruct (find_route dist fuel s e (B1 ++ B2)) as [[table route]| |] eqn:Hfind;
    [|done..].
  destruct (length route =? 2)%nat; [done|].
  apply refine_ext. intros i a b Hab.
  apply find_route_spec in Hfind as [-> _].
  apply endpoints_elem_of in Hab as [Ha Hb].
  apply considered_points in Ha, Hb.
  assert (forall x, x ∈ s :: e :: concat (B1 ++ B2) -> x ∈ pts) as Hin.
  { intros x Hx. apply elem_of_cons in Hx as [-> | Hx]; [done|].
    apply elem_of_cons in Hx as [-> | Hx]; [done|]. by apply Hpts. }
  apply IH; by apply Hin.
Qed.

End Irrelevant.

(** ** Start and end at the same point *)

Section GoalDirect.

Variable dist : Point -> Point -> Z.
Hypothesis dist_nonneg : forall a b, 0 <= dist a b.
Variable graph : list (list nat).
Variable table : list Point.
Hypothesis Hwf : graph_wf graph (length table).
Hypothesis Htable : (2 <= length table)%nat.
Variable s : Point.
Hypothesis Ht0 : table !! 0%nat = Some s.
Hypothesis Ht1 : table !! 1%nat = Some s.
Hypothesis Hss : dist s s = 0.

Lemma relax_inversion (st st' : search_state) (x y : nat) :
  relax dist table x st y = Ret st' ->
  exists tx ty dx dy,
    table !! x = Some tx /\ table !! y = Some ty /\
    dist_table st !! x = Some dx /\ dist_table st !! y = Some dy /\
    ((negb (dy =? -1) && (dy <=? dist tx ty + dx) = true /\ st' = st) \/
     (negb (dy =? -1) && (dy <=? dist tx ty + dx) = false /\
      exists t1, table !! 1%nat = Some t1 /\
        st' = SearchState (<[y:=dist tx ty + dx]> (dist_table st))
                          (<[y:=Some x]> (connection st))
                          (heappush (queue st)
                             (dist tx ty + dx + dist t1 ty, dist tx ty + dx, y)))).
Proof.
  unfold relax. intros H.
  apply bind_Ret in H as (tx & Htx & H). apply bind_Ret in H as (ty & Hty & H).
  apply bind_Ret in H as (dx & Hdx & H). cbn zeta in H.
  apply bind_Ret in H as (dy & Hdy & H).
  apply get_item_Ret in Htx, Hty, Hdx, Hdy.
  exists tx, ty, dx, dy. do 4 (split; [done|]).
  destruct (negb (dy =? -1) && (dy <=? dist tx ty + dx)).
  - left. by injection H as <-.
  - right. split; [done|].
    apply bind_Ret in H as (dt' & Hdt & H). apply bind_Ret in H as (c' & Hc & H).
    apply bind_Ret in H as (t1 & Hti & H). apply get_item_Ret in Hti.
    apply set_item_Ret in Hdt as [_ ->], Hc as [_ ->].
    injection H as <-. by exists t1.
Qed.

Lemma relax_keeps_goal (st st' : search_state) (x y : nat) (dx : Z) :
  dist_table st !! x = Some dx -> 0 <= dx ->
  relax dist table x st y = Ret st' -> goal_direct st -> goal_direct st'.
Proof.
  intros Hx Hdx H [Hg1 Hg2].
  apply relax_inversion in H
    as (tx & ty & dx' & dy & _ & _ & Hdx' & Hdy & [[_ ->] | [Hupd (t1 & _ & ->)]]);
    [done|].
  assert (dx' = dx) as -> by congruence.
  pose proof (dist_nonneg tx ty) as Hw.
  assert (y <> 1%nat) as Hne.
  { intros ->. assert (dy = 0) as -> by congruence.
    apply andb_false_iff in Hupd as [H | H]; [done|]. apply Z.leb_gt in H. lia. }
  split; simpl; by rewrite list_lookup_insert_ne.
Qed.

Lemma relax_all_keeps_goal (x : nat) (dx : Z) (ys : list nat) :
  (forall y, y ∈ ys -> has_edge graph x y) -> 0 <= dx ->
  forall st st',
    search_inv graph table st -> dist_table st !! x = Some dx ->
    relax_all dist table x st ys = Ret st' -> goal_direct st -> goal_direct st'.
Proof.
  intros Hys Hdx. induction ys as [|y ys IH]; intros st st' Hinv Hx H Hg.
  - by injection H as <-.
  - cbn [relax_all] in H. apply bind_Ret in H as (st1 & Hrel & H).
    destruct (relax_total dist dist_nonneg graph table Hwf Htable st x y dx Hinv Hx Hdx)
      as (st1' & Hrel' & Hinv1 & Hx1 & _).
    { apply Hys. by apply elem_of_cons; left. }
    assert (st1' = st1) as -> by congruence.
    apply (IH ltac:(intros; apply Hys; by apply elem_of_cons; right) st1 st' Hinv1 Hx1 H).
    by apply (relax_keeps_goal st st1 x y dx).
Qed.

(** Relaxing the edges of the start sets the goal as soon as the goal is
    one of them. *)
Lemma relax_all_sets_goal (ys : list nat) :
  (forall y, y ∈ ys -> has_edge graph 0 y) ->
  forall st st',
    search_inv graph table st ->
    relax_all dist table 0 st ys = Ret st' ->
    goal_direct st \/ dist_table st !! 1%nat = Some (-1) ->
    goal_direct st' \/ ((1%nat ∉ ys) /\ dist_table st' !! 1%nat = Some (-1)).
Proof.
  intros Hys. induction ys as [|y ys IH]; intros st st' Hinv H Hg.
  - injection H as <-. destruct Hg as [?|?]; [by left|]. right. split; [|done].
    apply not_elem_of_nil.
  - cbn [relax_all] in H. apply bind_Ret in H as (st1 & Hrel & H).
    pose proof (inv_zero _ _ _ Hinv) as Hz.
    destruct (relax_total dist dist_nonneg graph table Hwf Htable st 0 y 0 Hinv Hz)
      as (st1' & Hrel' & Hinv1 & _ & _); [lia | |].
    { apply Hys. by apply elem_of_cons; left. }
    assert (st1' = st1) as -> by congruence.
    assert (goal_direct st1 \/ (y <> 1%nat /\ dist_table st1 !! 1%nat = Some (-1)))
      as Hg1.
    { destruct Hg as [Hg | Hun].
      { left. eapply (relax_keeps_goal st st1 0%nat y 0); done || lia. }
      apply relax_inversion in Hrel
        as (tx & ty & dx & dy & Htx & Hty & Hdx & Hdy & [[Hskip ->] | [Hupd (t1 & _ & ->)]]).
      - right. split; [|done]. intros ->.
        assert (dy = -1) as -> by congruence. done.
      - destruct (decide (y = 1%nat)) as [->|Hne].
        + left. assert (tx = s) as -> by congruence.
          assert (ty = s) as -> by congruence.
          assert (dx = 0) as -> by congruence. rewrite Hss.
          pose proof (inv_len_dist _ _ _ Hinv). pose proof (inv_len_conn _ _ _ Hinv).
          split; simpl; by rewrite list_lookup_insert_eq by lia.
        + right. split; [done|]. simpl. by rewrite list_lookup_insert_ne. }
    destruct Hg1 as [Hg1 | [Hne Hun1]].
    + left. destruct (IH ltac:(intros; apply Hys; by apply elem_of_cons; right)
                         st1 st' Hinv1 H (or_introl Hg1)) as [? | [_ Hun]]; [done|].
      destruct (relax_all_keeps_goal 0%nat 0 ys
                  ltac:(intros; apply Hys; by apply elem_of_cons; right) ltac:(lia)
                  st1 st' Hinv1 (inv_zero _ _ _ Hinv1) H Hg1). congruence.
    + destruct (IH ltac:(intros; apply Hys; by apply elem_of_cons; right)
                   st1 st' Hinv1 H (or_intror Hun1)) as [? | [Hnin Hun]]; [by left|].
      right. split; [|done]. by apply not_elem_of_cons.
Qed.

Lemma search_keeps_goal (fuel : nat) :
  forall st st',
    search_inv graph table st ->
    search dist fuel graph table st = Ret st' -> goal_direct st -> goal_direct st'.
Proof.
  induction fuel as [|fuel IH]; intros st st' Hinv H Hg; [done|].
  rewrite search_unfold in H.
  destruct (queue st) as [|[[f d] x] queue'] eqn:Hq; [by injection H as <-|].
  cbn zeta in H. cbn [dist_table connection] in H.
  pose proof (search_inv_pop graph table st _ _ Hinv Hq) as Hinv1.
  destruct (x =? 1)%nat; [by injection H as <-|].
  apply bind_Ret in H as (dx & Hdx & H). apply get_item_Ret in Hdx.
  destruct (negb (dx =? d)) eqn:Hstale; [by apply (IH _ _ Hinv1 H)|].
  apply negb_false_iff, Z.eqb_eq in Hstale. subst d.
  apply bind_Ret in H as (ys & Hys & H). apply get_item_Ret in Hys.
  apply bind_Ret in H as (st2 & Hall & H).
  destruct (inv_queue _ _ _ Hinv f dx x) as [_ Hd].
  { rewrite Hq. by apply elem_of_cons; left. }
  destruct (relax_all_total dist dist_nonneg graph table Hwf Htable x dx ys
              ltac:(intros y ?; by exists ys) Hd _ Hinv1 Hdx) as (st2' & Hall' & Hinv2 & _).
  assert (st2' = st2) as -> by congruence.
  apply (IH _ _ Hinv2 H).
  by apply (relax_all_keeps_goal x dx ys ltac:(intros y ?; by exists ys) Hd _ _ Hinv1 Hdx Hall).
Qed.

Lemma initial_state_facts (st0 : search_state) :
  initial_state table = Ret st0 ->
  queue st0 = [(0, 0, 0%nat)] /\ dist_table st0 !! 1%nat = Some (-1).
Proof.
  unfold initial_state. intros H.
  apply bind_Ret in H as (dt & Hdt & H). apply set_item_Ret in Hdt as [Hlt ->].
  injection H as <-. split; [done|]. cbn [dist_table].
  rewrite list_lookup_insert_ne by done. apply lookup_replicate. split; [done|lia].
Qed.

(** With the goal on the adjacency list of the start, the search ends with
    the start as predecessor of the goal. *)
Lemma search_goal_direct (fuel : nat) (st0 st : search_state) :
  has_edge graph 0 1 ->
  initial_state table = Ret st0 ->
  search dist fuel graph table st0 = Ret st ->
  goal_direct st.
Proof.
  intros (adj & Hadj & H1) Hinit Hs.
  destruct (initial_state_inv graph table Htable) as (st0' & Hinit' & Hinv0).
  assert (st0' = st0) as -> by congruence.
  destruct (initial_state_facts st0 Hinit) as [Hq Hun].
  destruct fuel as [|fuel]; [done|]. rewrite search_unfold, Hq in Hs.
  cbn zeta in Hs. cbn [dist_table] in Hs.
  change (0 =? 1)%nat with false in Hs. cbn iota in Hs.
  rewrite (proj2 (get_item_Ret _ _ _) (inv_zero _ _ _ Hinv0)) in Hs.
  cbn [mbind outcome_bind] in Hs. change (negb (0 =? 0)) with false in Hs.
  cbn iota in Hs.
  rewrite (proj2 (get_item_Ret _ _ _) Hadj) in Hs. cbn [mbind outcome_bind] in Hs.
  apply bind_Ret in Hs as (st2 & Hall & Hs).
  pose proof (search_inv_pop graph table _ _ _ Hinv0 Hq) as Hinv1.
  destruct (relax_all_total dist dist_nonneg graph table Hwf Htable 0%nat 0 adj
              ltac:(intros y ?; by exists adj) ltac:(lia) _ Hinv1 (inv_zero _ _ _ Hinv1))
    as (st2' & Hall' & Hinv2 & _).
  assert (st2' = st2) as -> by congruence.
  apply (search_keeps_goal fuel st2 st Hinv2 Hs).
  destruct (relax_all_sets_goal adj ltac:(intros y ?; by exists adj) _ st2 Hinv1 Hall)
    as [? | [Hnin _]]; [|done|done].
  by right.
Qed.

End GoalDirect.

Lemma sip_own_vertex (a b : Point) :
  segment_intersects_polygon (a, b) [a] = 1.
Proof.
  unfold segment_intersects_polygon. simpl. unfold sip_step, item. simpl.
  by rewrite pt_eqb_refl.
Qed.

Section SamePoint.

Variable dist : Point -> Point -> Z.
Hypothesis dist_nonneg : forall a b, 0 <= dist a b.

(** With start and end at the same point [s], and no building that the
    degenerate segment [(s, s)] intersects, the search goes straight from
    node 0 to node 1 and [routing] returns [[s, s]]. *)
Lemma routing_same_point (s : Point) (buildings : list Polygon) (depth : Z) :
  dist s s = 0 -> depth <= 100 ->
  (forall P, P ∈ buildings -> segment_intersects_polygon (s, s) P <> 2) ->
  exists fuel, routing dist fuel s s buildings depth = ([], Ret [s; s]).
Proof.
  intros Hss Hdepth Hfree.
  destruct (build_graph_spec (considered s s buildings)) as (graph & Hbuild & Hok).
  destruct (graph_ok_start_end _ _ s s graph eq_refl Hok)
    as (extra0 & extra1 & Hg0 & _ & Hvis).
  assert (has_edge graph 0 1) as Hedge.
  { exists (0 :: 0 :: extra0)%nat. split; [done|].
    do 2 (apply elem_of_cons; right). apply Hvis, visible_spec.
    intros P HP. apply elem_of_cons in HP as [-> | HP]; [by rewrite sip_own_vertex|].
    apply elem_of_cons in HP as [-> | HP]; [by rewrite sip_own_vertex|].
    apply list_elem_of_filter in HP as [_ HP]. by apply Hfree. }
  pose proof (graph_ok_wf _ _ Hok) as Hwf.
  assert (concat (considered s s buildings) !! 0%nat = Some s) as Ht0 by done.
  assert (concat (considered s s buildings) !! 1%nat = Some s) as Ht1 by done.
  assert (2 <= length (concat (considered s s buildings)))%nat as Hlen
    by (simpl; lia).
  revert Hbuild Hwf Ht0 Ht1 Hlen.
  generalize (concat (considered s s buildings)) as table.
  intros table Hbuild Hwf Ht0 Ht1 Hlen.
  destruct (initial_state_inv graph table Hlen) as (st0 & Hinit & Hinv0).
  destruct (search_total dist dist_nonneg graph table Hwf Hlen _ _ _ st0
              eq_refl eq_refl eq_refl Hinv0) as (fuel1 & st & Hs & Hinv).
  destruct (search_goal_direct dist dist_nonneg graph table Hwf Hlen s Ht0 Ht1 Hss
              fuel1 st0 st Hedge Hinit Hs) as [_ Hc].
  set (F := (fuel1 `max` 2)%nat).
  assert (find_route dist F s s buildings = Ret (table, [0; 1]%nat)) as Hfind.
  { unfold find_route. rewrite Hbuild. cbn [mbind outcome_bind].
    rewrite Hinit. cbn [mbind outcome_bind].
    rewrite (search_fuel_le dist fuel1 F _ _ _ _ Hs) by (done || lia).
    cbn [mbind outcome_bind].
    rewrite (backtrack_fuel_le 2 F (connection st) 1 [1%nat] (Ret [1; 0]%nat));
      [done| |done|lia].
    rewrite !backtrack_unfold. simpl.
    by rewrite (proj2 (get_item_Ret _ _ _) Hc). }
  exists (S F). rewrite routing_unfold, (proj2 (Z.ltb_ge 100 depth)) by lia.
  rewrite Hfind. simpl. unfold points_of. cbn [mapM].
  rewrite (proj2 (get_item_Ret _ _ _) Ht0), (proj2 (get_item_Ret _ _ _) Ht1). done.
Qed.

End SamePoint.

(** * The claims *)

Lemma hypot_fix_nonneg (a b : Point) : 0 <= hypot_fix a b.
Proof. unfold hypot_fix. apply Z.sqrt_nonneg. Qed.

Lemma hypot_fix_refl (a : Point) : hypot_fix a a = 0.
Proof. unfold hypot_fix, vector. simpl. by rewrite !Z.sub_diag. Qed.

(** ** The planner *)

(** C1: when the depth cap never fires during the call (nothing is printed),
    no segment of the polyline returned by [plan] intersects (value 2) any
    of the polygons. *)
Theorem plan_route_never_crosses (dist : Point -> Point -> Z) (fuel : nat)
    (start end_ : Point) (buildings : list Polygon) (r : list Point) :
  plan dist fuel start end_ buildings = ([], Ret r) ->
  forall l1 p q l2, r = l1 ++ p :: q :: l2 ->
    forall P, P ∈ buildings -> segment_intersects_polygon (p, q) P <> 2.
Proof.
  intros H. unfold plan in H.
  destruct (routing_sound dist fuel _ _ _ _ _ _ H) as [_ Hclean].
  exact (Hclean eq_refl).
Qed.

Lemma plan_route_never_crosses_witness :
  plan hypot_fix 10 (0, 0) (20, 0) [square]
    = ([], Ret [(0, 0); (5, 5); (15, 5); (20, 0)]) /\
  forall l1 p q l2, [(0, 0); (5, 5); (15, 5); (20, 0)] = l1 ++ p :: q :: l2 ->
    forall P, P ∈ [square] -> segment_intersects_polygon (p, q) P <> 2.
Proof.
  split; [vm_compute; reflexivity|].
  apply (plan_route_never_crosses hypot_fix 10 (0, 0) (20, 0) [square]).
  vm_compute; reflexivity.
Defined.

(** C2: on an input where the search ends without reaching the goal, [plan]
    does not return [[start, end]]: walking the predecessors back from the
    goal reads [connection[None]] and a [TypeError] escapes, whatever fuel
    is added. *)
Theorem plan_unreachable_goal_raises (fuel : nat) :
  plan hypot_fix (3 + fuel) (0, 0) (10, 0) [inner_square; diamond]
    = ([], Raise TypeError).
Proof.
  apply (routing_fuel_le hypot_fix 3); [vm_compute; reflexivity | done | lia].
Qed.

(** C3: every polyline returned by [plan] is non-empty, starts at [start]
    and ends at [end]; and with a non-negative distance the call finishes,
    with a polyline or with the [TypeError] of an unreachable goal. *)
Theorem plan_endpoints (dist : Point -> Point -> Z) (start end_ : Point)
    (buildings : list Polygon) :
  (forall fuel log r, plan dist fuel start end_ buildings = (log, Ret r) ->
     r <> [] /\ head r = Some start /\ list.last r = Some end_) /\
  ((forall a b, 0 <= dist a b) ->
   exists fuel log out,
     plan dist fuel start end_ buildings = (log, out) /\ terminated out).
Proof.
  split.
  - intros fuel log r H. unfold plan in H.
    apply routing_sound in H as [[mid ->] _].
    split; [done|]. split; [done|].
    by rewrite app_comm_cons, last_snoc.
  - intros Hnn.
    destruct (routing_total dist Hnn buildings 101 0 ltac:(lia) start end_)
      as (fuel & log & out & H & Ht).
    by exists fuel, log, out.
Qed.

Lemma plan_endpoints_witness :
  plan hypot_fix 10 (0, 0) (20, 0) [square]
    = ([], Ret [(0, 0); (5, 5); (15, 5); (20, 0)]) /\
  ([(0, 0); (5, 5); (15, 5); (20, 0)] <> [] /\
   head [(0, 0); (5, 5); (15, 5); (20, 0)] = Some (0, 0) /\
   list.last [(0, 0); (5, 5); (15, 5); (20, 0)] = Some (20, 0)) /\
  exists fuel log out,
    plan hypot_fix fuel (0, 0) (20, 0) [square] = (log, out) /\ terminated out.
Proof.
  split; [vm_compute; reflexivity|]. split.
  - apply (proj1 (plan_endpoints hypot_fix (0, 0) (20, 0) [square]) 10%nat []).
    vm_compute; reflexivity.
  - apply (proj2 (plan_endpoints hypot_fix (0, 0) (20, 0) [square])).
    exact hypot_fix_nonneg.
Defined.

(** C4, counterexample: with no obstacle, [plan(s, s)] returns the two
    points [[s, s]], not the single point [[s]]. *)
Lemma plan_same_point_counterexample :
  plan hypot_fix 10 (0, 0) (0, 0) [] = ([], Ret [(0, 0); (0, 0)]) /\
  length [(0, 0); (0, 0)] = 2%nat.
Proof. split; [vm_compute; reflexivity | reflexivity]. Qed.

(** C4, amended: when the degenerate segment [(s, s)] intersects (value 2)
    no polygon of the list, in particular for the empty list,
    [plan(s, s, obstacles)] returns the two-point polyline [[s, s]]; and
    whatever the obstacles, a polyline returned by [plan(s, s, obstacles)]
    starts and ends at [s]. *)
Theorem plan_same_point (dist : Point -> Point -> Z) (s : Point)
    (buildings : list Polygon) :
  (forall a b, 0 <= dist a b) -> dist s s = 0 ->
  ((forall P, P ∈ buildings -> segment_intersects_polygon (s, s) P <> 2) ->
   exists fuel, plan dist fuel s s buildings = ([], Ret [s; s])) /\
  (forall fuel log r, plan dist fuel s s buildings = (log, Ret r) ->
     head r = Some s /\ list.last r = Some s).
Proof.
  intros Hnn Hss. split.
  - intros Hfree.
    exact (routing_same_point dist Hnn s buildings 0 Hss ltac:(lia) Hfree).
  - intros fuel log r H. unfold plan in H.
    apply routing_sound in H as [[mid ->] _]. split; [done|].
    by rewrite app_comm_cons, last_snoc.
Qed.

Lemma plan_same_point_witness :
  exists fuel, plan hypot_fix fuel (0, 0) (0, 0) [square] = ([], Ret [(0, 0); (0, 0)]).
Proof.
  apply (proj1 (plan_same_point hypot_fix (0, 0) [square]
                  hypot_fix_nonneg (hypot_fix_refl (0, 0)))).
  intros P HP. apply list_elem_of_singleton in HP. rewrite HP.
  vm_compute. discriminate.
Defined.

(** ** The visibility-graph builder *)

(** C5, counterexample: in the corner-skim scenario the diagonal of the
    square from (5,-5) (node 2) to (15,5) (node 4) joins two non-adjacent
    vertices (the neighbours of node 2 are the nodes 5 and 3) and passes the
    test against every considered polygon, yet neither adjacency list holds
    the other node. *)
Lemma build_graph_chord_counterexample :
  build_graph (considered (0, 0) (20, 0) [square])
    = Ret ([(0, 0); (20, 0); (5, -5); (5, 5); (15, 5); (15, -5)],
           [[0; 0; 2; 3]; [1; 1; 4; 5]; [5; 3; 0]; [2; 4; 0]; [3; 5; 1]; [4; 2; 1]]%nat) /\
  polygon_edges 2 4 0 = [5; 3]%nat /\
  visible (considered (0, 0) (20, 0) [square]) (5, -5) (15, 5) = true /\
  visible (considered (0, 0) (20, 0) [square]) (15, 5) (5, -5) = true /\
  bool_decide (4%nat ∈ [5; 3; 0]%nat) = false /\
  bool_decide (2%nat ∈ [3; 5; 1]%nat) = false.
Proof. repeat split; vm_compute; reflexivity. Qed.

(** C5, amended: the builder tests a vertex only against the vertices of the
    polygons placed before its own polygon in the table.  Two vertices of
    different polygons are joined, in both directions, exactly when the
    segment between them intersects (value 2) no considered polygon; two
    vertices of the same polygon are joined exactly when the polygon-edge
    rule joins them, so a same-polygon chord never becomes an edge. *)
Theorem build_graph_edges (ps : list Polygon) :
  exists graph,
    build_graph ps = Ret (concat ps, graph) /\
    (forall ps1 poly ps2 poly' ps3 i j p q,
       ps = ps1 ++ poly :: ps2 ++ poly' :: ps3 ->
       poly !! i = Some p -> poly' !! j = Some q ->
       (has_edge graph (node_of ps1 i) (node_of (ps1 ++ poly :: ps2) j) <->
        forall P, P ∈ ps -> segment_intersects_polygon (q, p) P <> 2) /\
       (has_edge graph (node_of (ps1 ++ poly :: ps2) j) (node_of ps1 i) <->
        forall P, P ∈ ps -> segment_intersects_polygon (q, p) P <> 2)) /\
    (forall ps1 poly ps2 i j p,
       ps = ps1 ++ poly :: ps2 -> poly !! i = Some p -> (j < length poly)%nat ->
       has_edge graph (node_of ps1 i) (node_of ps1 j) <->
       node_of ps1 j ∈ polygon_edges (length (concat ps1)) (length poly) i).
Proof.
  destruct (build_graph_spec ps) as (graph & Hbuild & Hok).
  exists graph. split; [done|]. split.
  - intros ps1 poly ps2 poly' ps3 i j p q Hps Hi Hj.
    rewrite <- visible_spec.
    by apply (graph_ok_cross_polygon ps graph ps1 poly ps2 poly' ps3).
  - intros ps1 poly ps2 i j p Hps Hi Hj.
    by apply (graph_ok_same_polygon ps graph ps1 poly ps2 i j p).
Qed.

Lemma build_graph_edges_witness :
  exists graph,
    build_graph (considered (0, 0) (20, 0) [square])
      = Ret (concat (considered (0, 0) (20, 0) [square]), graph) /\
    (has_edge graph 2 4 <-> 4%nat ∈ polygon_edges 2 4 0) /\
    (has_edge graph 0 2 <->
     forall P, P ∈ considered (0, 0) (20, 0) [square] ->
       segment_intersects_polygon ((5, -5), (0, 0)) P <> 2).
Proof.
  destruct (build_graph_edges (considered (0, 0) (20, 0) [square]))
    as (graph & Hbuild & Hcross & Hsame).
  exists graph. split; [exact Hbuild|]. split.
  - apply (Hsame [[(0, 0)]; [(20, 0)]] square [] 0%nat 2%nat (5, -5));
      [reflexivity | reflexivity | simpl; lia].
  - apply (Hcross [] [(0, 0)] [[(20, 0)]] square [] 0%nat 0%nat (0, 0) (5, -5));
      reflexivity.
Defined.

(** C6, counterexample: with no obstacle the graph is [[0,0,1],[1,1,0]]:
    the polygon-edge rule gave node 0 the self-edges [0, 0] and node 1 the
    self-edges [1, 1]. *)
Lemma polygon_edge_step_counterexample :
  build_graph (considered (0, 0) (20, 0) [])
    = Ret ([(0, 0); (20, 0)], [[0; 0; 1]; [1; 1; 0]]%nat) /\
  polygon_edges 0 1 0 = [0; 0]%nat /\
  polygon_edges 1 1 0 = [1; 1]%nat.
Proof. repeat split; vm_compute; reflexivity. Qed.

(** C6, amended: the polygon-edge step is not skipped for the single-vertex
    polygons [[S]] and [[E]]: with [n = 1] both [(i-1) % n] and [(i+1) % n]
    are 0, so the adjacency list of node 0 begins with the two self-edges
    [0, 0] and that of node 1 with the two self-edges [1, 1]. *)
Theorem start_end_self_edges (start end_ : Point) (buildings : list Polygon) :
  exists graph extra0 extra1,
    build_graph (considered start end_ buildings)
      = Ret (concat (considered start end_ buildings), graph) /\
    graph !! 0%nat = Some (polygon_edges 0 1 0 ++ extra0) /\
    graph !! 1%nat = Some (polygon_edges 1 1 0 ++ extra1) /\
    polygon_edges 0 1 0 = [0; 0]%nat /\
    polygon_edges 1 1 0 = [1; 1]%nat.
Proof.
  destruct (build_graph_spec (considered start end_ buildings)) as (graph & Hb & Hok).
  destruct (graph_ok_start_end _ _ start end_ graph eq_refl Hok)
    as (extra0 & extra1 & Hg0 & Hg1 & _).
  exists graph, extra0, extra1. rewrite !polygon_edges_single. done.
Qed.

(** ** Monotonicity *)

(** C7, counterexample: with the walls A and B the route goes below A and
    around the top of B; with the wall P added it goes above A and is
    shorter. *)
Lemma adding_obstacle_counterexample :
  plan hypot_fix 10 (0, 0) (100, 0) [wall_A; wall_B]
    = ([], Ret [(0, 0); (25, -1); (50, -40); (100, 0)]) /\
  plan hypot_fix 10 (0, 0) (100, 0) [wall_A; wall_B; wall_P]
    = ([], Ret [(0, 0); (50, 41); (100, 0)]) /\
  route_length hypot_fix [(0, 0); (50, 41); (100, 0)]
    < route_length hypot_fix [(0, 0); (25, -1); (50, -40); (100, 0)].
Proof. repeat split; vm_compute; reflexivity. Qed.

(** C7, amended: adding an obstacle that no segment between two of the
    points start, end and the vertices of the other obstacles touches or
    intersects leaves the outcome of [plan] unchanged, so the route is not
    shortened. *)
Theorem adding_untouched_obstacle (dist : Point -> Point -> Z) (fuel : nat)
    (start end_ : Point) (B1 B2 : list Polygon) (P : Polygon) :
  (forall a b, a ∈ start :: end_ :: concat (B1 ++ B2) ->
               b ∈ start :: end_ :: concat (B1 ++ B2) ->
               segment_intersects_polygon (a, b) P = 0) ->
  (plan dist fuel start end_ (B1 ++ P :: B2)).2
    = (plan dist fuel start end_ (B1 ++ B2)).2 /\
  forall r, (plan dist fuel start end_ (B1 ++ B2)).2 = Ret r ->
    exists r', (plan dist fuel start end_ (B1 ++ P :: B2)).2 = Ret r' /\
               route_length dist r <= route_length dist r'.
Proof.
  intros Hclear.
  assert ((plan dist fuel start end_ (B1 ++ P :: B2)).2
          = (plan dist fuel start end_ (B1 ++ B2)).2) as Heq.
  { unfold plan.
    apply (routing_skip dist B1 B2 P (start :: end_ :: concat (B1 ++ B2))).
    - intros a Ha. by do 2 (apply elem_of_cons; right).
    - done.
    - by apply elem_of_cons; left.
    - apply elem_of_cons; right. by apply elem_of_cons; left. }
  split; [done|]. intros r Hr. exists r. rewrite Heq. split; [done | lia].
Qed.

Lemma clear_pairs_check (pts : list Point) (P : Polygon) :
  forallb (fun a => forallb (fun b => segment_intersects_polygon (a, b) P =? 0) pts) pts
    = true ->
  forall a b, a ∈ pts -> b ∈ pts -> segment_intersects_polygon (a, b) P = 0.
Proof.
  intros H a b Ha Hb. rewrite forallb_forall in H.
  apply list_elem_of_In in Ha, Hb. specialize (H a Ha).
  rewrite forallb_forall in H. by apply Z.eqb_eq, H.
Defined.

Lemma adding_untouched_obstacle_witness :
  (plan hypot_fix 10 (0, 0) (20, 0) ([square] ++ far_triangle :: [])).2
    = (plan hypot_fix 10 (0, 0) (20, 0) ([square] ++ [])).2 /\
  (plan hypot_fix 10 (0, 0) (20, 0) ([square] ++ [])).2
    = Ret [(0, 0); (5, 5); (15, 5); (20, 0)].
Proof.
  split; [|vm_compute; reflexivity].
  apply (adding_untouched_obstacle hypot_fix 10 (0, 0) (20, 0) [square] [] far_triangle).
  apply clear_pairs_check. vm_compute; reflexivity.
Defined.

(** ** Termination *)

(** C9: with a non-negative distance, [routing(start, end, obstacles, 0)]
    terminates, with a polyline or with the [TypeError] of an unreachable
    goal, and more fuel does not change the result; a call with
    [depth > 100] returns [[start, end]] at once, after printing its
    arguments, so no call is made at a depth above 101. *)
Theorem routing_terminates (dist : Point -> Point -> Z)
    (start end_ : Point) (buildings : list Polygon) :
  (forall a b, 0 <= dist a b) ->
  (exists fuel log out,
     routing dist fuel start end_ buildings 0 = (log, out) /\ terminated out /\
     forall fuel', (fuel <= fuel')%nat ->
       routing dist fuel' start end_ buildings 0 = (log, out)) /\
  (forall fuel s e depth, 100 < depth ->
     routing dist (S fuel) s e buildings depth
       = ([(s, e, buildings)], Ret [s; e])).
Proof.
  intros Hnn. split.
  - destruct (routing_total dist Hnn buildings 101 0 ltac:(lia) start end_)
      as (fuel & log & out & H & Ht).
    exists fuel, log, out. split; [done|]. split; [done|].
    intros fuel' Hle.
    by apply (routing_fuel_le dist fuel fuel'); [|apply terminated_fuel|].
  - intros fuel s e depth Hd. rewrite routing_unfold.
    by rewrite (proj2 (Z.ltb_lt 100 depth) Hd).
Qed.

Lemma routing_terminates_witness :
  (exists fuel log out,
     routing hypot_fix fuel (0, 0) (10, 0) [inner_square; diamond] 0 = (log, out) /\
     terminated out /\
     forall fuel', (fuel <= fuel')%nat ->
       routing hypot_fix fuel' (0, 0) (10, 0) [inner_square; diamond] 0 = (log, out)) /\
  routing hypot_fix 1 (0, 0) (10, 0) [inner_square; diamond] 101
    = ([((0, 0), (10, 0), [inner_square; diamond])], Ret [(0, 0); (10, 0)]).
Proof.
  destruct (routing_terminates hypot_fix (0, 0) (10, 0) [inner_square; diamond]
              hypot_fix_nonneg) as [Hterm Hcap].
  split; [exact Hterm|]. apply Hcap. reflexivity.
Defined.

(** ** [routing.py] *)

(** C8, counterexample: for the empty route the total length 0 is within
    the battery range and the time 0 within the maximum delay, yet the
    validator answers [false], with the text "Empty route". *)
Lemma validate_empty_route_counterexample :
  RouteValidator.validate_route_feasibility Point hypot_q config0 [] drone0
    = Ret (false, Empty_route) /\
  (polyline_length hypot_q []
     <= battery_level drone0 * speed drone0 * DRONE_BATTERY_LIFE config0)%Q /\
  (polyline_length hypot_q [] / speed drone0 <= MAX_ORDER_DELAY config0)%Q.
Proof. repeat split; vm_compute; discriminate. Qed.

(** C8, amended: for a non-empty route and a drone whose speed is not zero,
    the validator returns a pair whose first component is true exactly when
    the total polyline length is at most battery_level * speed *
    battery_life and the length divided by the speed is at most max_delay;
    for the empty route it returns false with the text "Empty route". *)
Theorem validate_route_feasibility_spec (Position : Type)
    (distance_to : Position -> Position -> Q) (config : Config) (drone : Drone) :
  RouteValidator.validate_route_feasibility Position distance_to config [] drone
    = Ret (false, Empty_route) /\
  forall p route, ~ (speed drone == 0)%Q ->
    exists ok msg,
      RouteValidator.validate_route_feasibility Position distance_to config (p :: route) drone
        = Ret (ok, msg) /\
      (ok = true <->
       (polyline_length distance_to (p :: route)
          <= battery_level drone * speed drone * DRONE_BATTERY_LIFE config)%Q /\
       (polyline_length distance_to (p :: route) / speed drone
          <= MAX_ORDER_DELAY config)%Q).
Proof.
  split; [done|]. intros p route Hspeed.
  unfold RouteValidator.validate_route_feasibility, polyline_length.
  rewrite accumulate_foldl.
  set (total := foldl Qplus 0%Q _).
  destruct (Qle_bool total _) eqn:Hbat; simpl.
  - apply Qle_bool_iff in Hbat.
    destruct (Qeq_bool (speed drone) 0) eqn:Hz.
    { apply Qeq_bool_iff in Hz. by destruct Hspeed. }
    destruct (Qle_bool (total / speed drone) _) eqn:Htime; simpl.
    + apply Qle_bool_iff in Htime. eexists _, _. split; [done|]. done.
    + eexists _, _. split; [done|]. split; [done|]. intros [_ Hle].
      apply Qle_bool_iff in Hle. congruence.
  - eexists _, _. split; [done|]. split; [done|]. intros [Hle _].
    apply Qle_bool_iff in Hle. congruence.
Qed.

Lemma validate_route_feasibility_witness :
  exists ok msg,
    RouteValidator.validate_route_feasibility Point hypot_q config0 short_route drone0
      = Ret (ok, msg) /\
    (ok = true <->
     (polyline_length hypot_q short_route
        <= battery_level drone0 * speed drone0 * DRONE_BATTERY_LIFE config0)%Q /\
     (polyline_length hypot_q short_route / speed drone0
        <= MAX_ORDER_DELAY config0)%Q).
Proof.
  apply (proj2 (validate_route_feasibility_spec Point hypot_q config0 drone0)).
  vm_compute. discriminate.
Defined.

(** C10: the two routing classes return the same route, the start followed
    by the waypoints in order and the end, and the same distance, the sum
    of the distances of the consecutive pairs (0 for fewer than two
    points), whatever the map of the A* variant. *)
Theorem routing_classes_agree (Position Map : Type)
    (distance_to : Position -> Position -> Q) (this : AStarRouting.self Map)
    (start : Position) (waypoints : list Position) (end_ : Position)
    (route : list Position) :
  SimpleRouting.calculate_route Position start waypoints end_
    = start :: waypoints ++ [end_] /\
  AStarRouting.calculate_route Position Map this start waypoints end_
    = SimpleRouting.calculate_route Position start waypoints end_ /\
  SimpleRouting.calculate_distance Position distance_to route
    = polyline_length distance_to route /\
  AStarRouting.calculate_distance Position distance_to Map this route
    = SimpleRouting.calculate_distance Position distance_to route /\
  ((length route < 2)%nat ->
   SimpleRouting.calculate_distance Position distance_to route = 0%Q).
Proof.
  split; [|split; [|split; [|split]]].
  - unfold SimpleRouting.calculate_route. by rewrite foldl_append.
  - done.
  - apply simple_calculate_distance_length.
  - done.
  - intros Hlen. unfold SimpleRouting.calculate_distance.
    by rewrite (proj2 (Nat.ltb_lt _ _) Hlen).
Qed.

Lemma routing_classes_agree_witness :
  SimpleRouting.calculate_distance Point hypot_q [(0, 0)] = 0%Q /\
  AStarRouting.calculate_route Point unit (AStarRouting.Init unit tt 10) (0, 0) [(3, 4)] (6, 8)
    = [(0, 0); (3, 4); (6, 8)].
Proof.
  destruct (routing_classes_agree Point unit hypot_q (AStarRouting.Init unit tt 10)
              (0, 0) [(3, 4)] (6, 8) [(0, 0)]) as (H1 & H2 & _ & _ & H5).
  split; [apply H5; simpl; lia|]. rewrite H2. exact H1.
Defined.

(** * Further properties *)

(** ** Geometry kernel *)

Lemma segments_intersect_flip_r (l1 : Segment) (c d : Point) :
  segments_intersect l1 (d, c) = segments_intersect l1 (c, d).
Proof.
  unfold segments_intersect. destruct l1 as [A B].
  destruct (pt_ltb c d) eqn:Hcd.
  - by rewrite (pt_ltb_asym _ _ Hcd).
  - destruct (pt_ltb d c) eqn:Hdc; [done|].
    by rewrite (pt_ltb_total _ _ Hcd Hdc).
Qed.

Lemma pt_ltb_neq (a b : Point) : pt_ltb a b = true -> a <> b.
Proof. intros H ->. by rewrite pt_ltb_irrefl in H. Qed.

Lemma pt_neq_ltb (a b : Point) : a <> b -> pt_ltb a b = true \/ pt_ltb b a = true.
Proof.
  intros Hne. destruct (pt_ltb a b) eqn:Hab; [by left|].
  destruct (pt_ltb b a) eqn:Hba; [by right|].
  destruct Hne. by apply pt_ltb_total.
Qed.

(** Two points on the line through two distinct points [a], [b] span a line
    that holds [a] and [b]. *)
Lemma ccw_collinear (a b c d : Point) :
  a <> b -> ccw a b c = 0 -> ccw a b d = 0 -> ccw c d a = 0 /\ ccw c d b = 0.
Proof.
  destruct a as [a1 a2], b as [b1 b2], c as [c1 c2], d as [d1 d2].
  unfold ccw, vector. cbn [fst snd]. intros Hne H1 H2.
  assert (Hu : b1 - a1 <> 0 \/ b2 - a2 <> 0).
  { destruct (decide (b1 - a1 = 0)) as [E1|]; [|by left].
    destruct (decide (b2 - a2 = 0)) as [E2|]; [|by right].
    destruct Hne. f_equal; lia. }
  set (X := (c1 - a1) * (d2 - a2) - (c2 - a2) * (d1 - a1)).
  assert (HX1 : (b1 - a1) * X = 0).
  { replace ((b1 - a1) * X) with
      ((c1 - a1) * ((b1 - a1) * (d2 - a2) - (b2 - a2) * (d1 - a1))
       - (d1 - a1) * ((b1 - a1) * (c2 - a2) - (b2 - a2) * (c1 - a1)))
      by (unfold X; ring).
    rewrite H1, H2. ring. }
  assert (HX2 : (b2 - a2) * X = 0).
  { replace ((b2 - a2) * X) with
      ((c2 - a2) * ((b1 - a1) * (d2 - a2) - (b2 - a2) * (d1 - a1))
       - (d2 - a2) * ((b1 - a1) * (c2 - a2) - (b2 - a2) * (c1 - a1)))
      by (unfold X; ring).
    rewrite H1, H2. ring. }
  assert (HX : X = 0).
  { destruct Hu as [Hu|Hu].
    - apply Z.mul_eq_0 in HX1 as [?|?]; [done|done].
    - apply Z.mul_eq_0 in HX2 as [?|?]; [done|done]. }
  split.
  - replace ((d1 - c1) * (a2 - c2) - (d2 - c2) * (a1 - c1)) with X by (unfold X; ring).
    done.
  - replace ((d1 - c1) * (b2 - c2) - (d2 - c2) * (b1 - c1))
      with (X + ((b1 - a1) * (c2 - a2) - (b2 - a2) * (c1 - a1))
              - ((b1 - a1) * (d2 - a2) - (b2 - a2) * (d1 - a1)))
      by (unfold X; ring).
    rewrite H1, H2, HX. done.
Qed.

Lemma collinear_test_swap (a b c d : Point) :
  a <> b -> c <> d ->
  (ccw a b c =? ccw a b d) && (ccw a b d =? 0)
  = (ccw c d a =? ccw c d b) && (ccw c d b =? 0).
Proof.
  intros Hab Hcd.
  destruct ((ccw a b c =? ccw a b d) && (ccw a b d =? 0)) eqn:E1.
  - apply andb_true_iff in E1 as [E1 E2]. apply Z.eqb_eq in E1, E2.
    rewrite E2 in E1.
    destruct (ccw_collinear a b c d Hab E1 E2) as [-> ->]. done.
  - destruct ((ccw c d a =? ccw c d b) && (ccw c d b =? 0)) eqn:E2; [|done].
    apply andb_true_iff in E2 as [E2 E3]. apply Z.eqb_eq in E2, E3.
    rewrite E3 in E2.
    destruct (ccw_collinear c d a b Hcd E2 E3) as [F1 F2].
    rewrite F1, F2 in E1. done.
Qed.

Lemma segments_intersect_swap_ordered (a b c d : Point) :
  pt_ltb a b = true -> pt_ltb c d = true ->
  segments_intersect (a, b) (c, d) = segments_intersect (c, d) (a, b).
Proof.
  intros Hab Hcd. unfold segments_intersect.
  rewrite (pt_ltb_asym _ _ Hab), (pt_ltb_asym _ _ Hcd).
  rewrite (collinear_test_swap a b c d (pt_ltb_neq _ _ Hab) (pt_ltb_neq _ _ Hcd)).
  rewrite (orb_comm (pt_ltb b c)), (orb_comm (pt_eqb b c)).
  rewrite (andb_comm (ccw a b c * ccw a b d <=? 0)).
  done.
Qed.

(** X2: the result of [segments_intersect] does not depend on the order of
    its two arguments when both segments have two distinct end points. *)
Theorem segments_intersect_swap (a b c d : Point) :
  a <> b -> c <> d ->
  segments_intersect (a, b) (c, d) = segments_intersect (c, d) (a, b).
Proof.
  intros Hab Hcd.
  destruct (pt_neq_ltb a b Hab) as [H1|H1], (pt_neq_ltb c d Hcd) as [H2|H2].
  - by apply segments_intersect_swap_ordered.
  - rewrite <- (segments_intersect_flip_r (a, b) c d), <- (segments_intersect_flip c d).
    by apply segments_intersect_swap_ordered.
  - rewrite <- (segments_intersect_flip a b), <- (segments_intersect_flip_r (c, d) a b).
    by apply segments_intersect_swap_ordered.
  - rewrite <- (segments_intersect_flip a b), <- (segments_intersect_flip_r (b, a) c d).
    rewrite <- (segments_intersect_flip c d), <- (segments_intersect_flip_r (d, c) a b).
    by apply segments_intersect_swap_ordered.
Qed.

Lemma segments_intersect_swap_witness :
  segments_intersect ((0, 0), (4, 4)) ((0, 4), (4, 0)) = 1 /\
  segments_intersect ((0, 0), (4, 4)) ((0, 4), (4, 0))
    = segments_intersect ((0, 4), (4, 0)) ((0, 0), (4, 4)).
Proof.
  split; [reflexivity|].
  apply (segments_intersect_swap (0, 0) (4, 4) (0, 4) (4, 0)); discriminate.
Defined.

(** With a first segment reduced to a point the order matters. *)
Lemma segments_intersect_point_example :
  segments_intersect ((1, 1), (1, 1)) ((0, 0), (4, 0)) = 2 /\
  segments_intersect ((0, 0), (4, 0)) ((1, 1), (1, 1)) = 0.
Proof. split; reflexivity. Qed.

(** X1: reversing either segment changes neither [segments_intersect] nor
    [segment_intersects_polygon]. *)
Theorem intersection_tests_ignore_direction (a b c d : Point) (polygon : Polygon) :
  segments_intersect (b, a) (c, d) = segments_intersect (a, b) (c, d) /\
  segments_intersect (a, b) (d, c) = segments_intersect (a, b) (c, d) /\
  segment_intersects_polygon (b, a) polygon = segment_intersects_polygon (a, b) polygon.
Proof.
  split; [apply segments_intersect_flip|].
  split; [apply segments_intersect_flip_r|].
  apply segment_intersects_polygon_flip.
Qed.

Lemma segments_intersect_range (l1 l2 : Segment) :
  segments_intersect l1 l2 = 0 \/ segments_intersect l1 l2 = 1 \/
  segments_intersect l1 l2 = 2.
Proof.
  unfold segments_intersect. destruct l1 as [A B], l2 as [C D].
  destruct (pt_ltb B A), (pt_ltb D C);
    repeat match goal with |- context [if ?c then _ else _] => destruct c end; auto.
Qed.

Lemma ccw_same_l (a b : Point) : ccw a b a = 0.
Proof. unfold ccw, vector. cbn [fst snd]. ring. Qed.

Lemma ccw_same_r (a b : Point) : ccw a b b = 0.
Proof. unfold ccw, vector. cbn [fst snd]. ring. Qed.

Lemma ccw_same_ll (a b : Point) : ccw a a b = 0.
Proof. unfold ccw, vector. cbn [fst snd]. ring. Qed.

Lemma pt_ltb_trans (a b c : Point) :
  pt_ltb a b = true -> pt_ltb b c = true -> pt_ltb a c = true.
Proof.
  destruct a as [a1 a2], b as [b1 b2], c as [c1 c2]. unfold pt_ltb. cbn [fst snd].
  rewrite !orb_true_iff, !andb_true_iff, !Z.ltb_lt, !Z.eqb_eq. lia.
Qed.

(** The body of [segments_intersect] on ordered segments. *)
Lemma segments_intersect_ordered (A B C D : Point) :
  pt_ltb B A = false -> pt_ltb D C = false ->
  segments_intersect (A, B) (C, D) =
  if (ccw A B C =? ccw A B D) && (ccw A B D =? 0) then
    if pt_ltb B C || pt_ltb D A then 0
    else if pt_eqb B C || pt_eqb D A then 1
    else 2
  else if (ccw A B C * ccw A B D <=? 0) && (ccw C D A * ccw C D B <=? 0) then 1
  else 0.
Proof. intros H1 H2. unfold segments_intersect. by rewrite H1, H2. Qed.

Lemma pt_leb_ltb_false (a b c : Point) :
  pt_ltb b a = false -> pt_ltb c b = false -> pt_ltb c a = false.
Proof.
  destruct a as [a1 a2], b as [b1 b2], c as [c1 c2]. unfold pt_ltb. cbn [fst snd].
  rewrite !orb_false_iff, !andb_false_iff, !Z.ltb_ge, !Z.eqb_neq. lia.
Qed.

(** On ordered segments with a common point [p] ([A <= p <= B] and
    [C <= p <= D] in tuple order, [p] one end of each), the result is not 0. *)
Lemma segments_intersect_common_ordered (A B C D p : Point) :
  pt_ltb B A = false -> pt_ltb D C = false ->
  (p = A \/ p = B) -> (p = C \/ p = D) ->
  0 < segments_intersect (A, B) (C, D).
Proof.
  intros HAB HCD HpAB HpCD. rewrite segments_intersect_ordered by done.
  destruct ((ccw A B C =? ccw A B D) && (ccw A B D =? 0)) eqn:E.
  - assert (pt_ltb B C = false) as ->.
    { destruct HpAB as [->| ->], HpCD as [->| ->];
        rewrite ?pt_ltb_irrefl; try done.
      - eapply pt_leb_ltb_false; [exact HCD | exact HAB]. }
    assert (pt_ltb D A = false) as ->.
    { destruct HpAB as [->| ->], HpCD as [->| ->];
        rewrite ?pt_ltb_irrefl; try done.
      - eapply pt_leb_ltb_false; [exact HAB | exact HCD]. }
    cbn [orb]. destruct (pt_eqb B C || pt_eqb D A); lia.
  - assert (ccw A B C * ccw A B D = 0) as ->.
    { destruct HpCD as [<-| <-]; destruct HpAB as [->| ->];
        rewrite ?ccw_same_l, ?ccw_same_r; lia. }
    assert (ccw C D A * ccw C D B = 0) as ->.
    { destruct HpAB as [<-| <-]; destruct HpCD as [->| ->];
        rewrite ?ccw_same_l, ?ccw_same_r; lia. }
    done.
Qed.

Lemma segments_intersect_common_end_aux (a b c : Point) :
  0 < segments_intersect (a, b) (a, c).
Proof.
  destruct (pt_ltb b a) eqn:Hab.
  - rewrite <- segments_intersect_flip.
    destruct (pt_ltb c a) eqn:Hac.
    + rewrite <- segments_intersect_flip_r.
      apply (segments_intersect_common_ordered b a c a a);
        auto using pt_ltb_asym.
    + apply (segments_intersect_common_ordered b a a c a);
        auto using pt_ltb_asym.
  - destruct (pt_ltb c a) eqn:Hac.
    + rewrite <- segments_intersect_flip_r.
      apply (segments_intersect_common_ordered a b c a a);
        auto using pt_ltb_asym.
    + apply (segments_intersect_common_ordered a b a c a); auto.
Qed.

(** X3: two segments with a common end point are never reported as not
    crossing, and a segment with two distinct ends overlaps itself. *)
Theorem segments_intersect_common_end (a b c : Point) :
  0 < segments_intersect (a, b) (a, c) /\
  0 < segments_intersect (a, b) (c, a) /\
  0 < segments_intersect (b, a) (a, c) /\
  0 < segments_intersect (b, a) (c, a) /\
  segments_intersect (a, b) (a, b) = (if pt_eqb a b then 1 else 2).
Proof.
  split; [apply segments_intersect_common_end_aux|].
  split; [rewrite segments_intersect_flip_r; apply segments_intersect_common_end_aux|].
  split; [rewrite segments_intersect_flip; apply segments_intersect_common_end_aux|].
  split.
  { rewrite segments_intersect_flip, segments_intersect_flip_r.
    apply segments_intersect_common_end_aux. }
  destruct (pt_eqb a b) eqn:E.
  - apply pt_eqb_eq in E as <-.
    rewrite segments_intersect_ordered by apply pt_ltb_irrefl.
    rewrite !ccw_same_ll, pt_ltb_irrefl, pt_eqb_refl. done.
  - assert (Hne : a <> b) by (intros ->; by rewrite pt_eqb_refl in E).
    assert (Haux : forall p q, pt_ltb p q = true ->
                     segments_intersect (p, q) (p, q) = 2).
    { intros p q Hpq. rewrite segments_intersect_ordered by by apply pt_ltb_asym.
      rewrite ccw_same_l, ccw_same_r, (pt_ltb_asym _ _ Hpq). cbn.
      destruct (pt_eqb q p) eqn:E'; [|done].
      apply pt_eqb_eq in E' as ->. by rewrite pt_ltb_irrefl in Hpq. }
    destruct (pt_neq_ltb a b Hne) as [H|H].
    + by apply Haux.
    + rewrite <- segments_intersect_flip, <- segments_intersect_flip_r. by apply Haux.
Qed.

(** ** What the loop of [segment_intersects_polygon] computes *)

Lemma sip_fold (line : Segment) (polygon : Polygon) (idxs : list nat) :
  forall r, 0 <= r <= 2 ->
    0 <= foldl (sip_step line polygon) r idxs <= 2 /\
    (foldl (sip_step line polygon) r idxs = 2 <->
       r = 2 \/ exists i, i ∈ idxs /\ shares_vertex line polygon i = false /\
                          segments_intersect line (edge polygon i) <> 0) /\
    (foldl (sip_step line polygon) r idxs = 0 <->
       r = 0 /\ forall i, i ∈ idxs -> shares_vertex line polygon i = false /\
                          segments_intersect line (edge polygon i) = 0).
Proof.
  induction idxs as [|i idxs IH]; intros r Hr; cbn [foldl].
  - split; [done|]. split.
    + split; [by left|]. intros [?|(i & Hi & _)]; [done|]. by apply elem_of_nil in Hi.
    + split; [|by intros [? _]]. intros ->. split; [done|].
      intros i Hi. by apply elem_of_nil in Hi.
  - assert (Hstep : sip_step line polygon r i =
              if shares_vertex line polygon i then Z.max r 1
              else if negb (segments_intersect line (edge polygon i) =? 0) then 2
              else r) by reflexivity.
    destruct (shares_vertex line polygon i) eqn:Hsv.
    + destruct (IH (Z.max r 1) ltac:(lia)) as (IH1 & IH2 & IH3).
      rewrite Hstep. split; [done|]. split.
      * rewrite IH2. split.
        -- intros [?|(j & Hj & Hj1 & Hj2)]; [left; lia|].
           right. exists j. split; [by right|done].
        -- intros [->|(j & Hj & Hj1 & Hj2)]; [by left|].
           apply elem_of_cons in Hj as [->|Hj]; [congruence|].
           right. by exists j.
      * rewrite IH3. split; [intros [? _]; lia|].
        intros [_ H]. destruct (H i ltac:(left)) as [? _]. congruence.
    + destruct (segments_intersect line (edge polygon i) =? 0) eqn:Hsi; cbn [negb] in Hstep.
      * apply Z.eqb_eq in Hsi. destruct (IH r Hr) as (IH1 & IH2 & IH3).
        rewrite Hstep. split; [done|]. split.
        -- rewrite IH2. split.
           ++ intros [?|(j & Hj & Hj1 & Hj2)]; [by left|].
              right. exists j. split; [by right|done].
           ++ intros [?|(j & Hj & Hj1 & Hj2)]; [by left|].
              apply elem_of_cons in Hj as [->|Hj]; [congruence|].
              right. by exists j.
        -- rewrite IH3. split.
           ++ intros [-> H]. split; [done|]. intros j Hj.
              apply elem_of_cons in Hj as [->|Hj]; [done|by apply H].
           ++ intros [-> H]. split; [done|]. intros j Hj. apply H. by right.
      * apply Z.eqb_neq in Hsi. destruct (IH 2 ltac:(lia)) as (IH1 & IH2 & IH3).
        rewrite Hstep. split; [done|]. split.
        -- rewrite IH2. split; [|by intros; left].
           intros _. right. exists i. split; [by left|done].
        -- rewrite IH3. split; [by intros [? _]|].
           intros [_ H]. destruct (H i ltac:(left)) as [_ ?]. congruence.
Qed.

(** X4: [segment_intersects_polygon] returns 0, 1 or 2; it returns 2 exactly
    when some edge that shares no vertex with the line is met by the line,
    and 0 exactly when no edge shares a vertex with the line or is met by
    it. *)
Theorem segment_intersects_polygon_spec (line : Segment) (polygon : Polygon) :
  (segment_intersects_polygon line polygon = 0 \/
   segment_intersects_polygon line polygon = 1 \/
   segment_intersects_polygon line polygon = 2) /\
  (segment_intersects_polygon line polygon = 2 <->
     exists i, (i < length polygon)%nat /\ shares_vertex line polygon i = false /\
               segments_intersect line (edge polygon i) <> 0) /\
  (segment_intersects_polygon line polygon = 0 <->
     forall i, (i < length polygon)%nat -> shares_vertex line polygon i = false /\
               segments_intersect line (edge polygon i) = 0).
Proof.
  unfold segment_intersects_polygon.
  destruct (sip_fold line polygon (seq 0 (length polygon)) 0 ltac:(lia))
    as (H1 & H2 & H3).
  split; [lia|]. split.
  - rewrite H2. split.
    + intros [?|(i & Hi & ?)]; [done|]. exists i. split; [|done].
      apply elem_of_seq in Hi. lia.
    + intros (i & Hi & ?). right. exists i. split; [|done].
      apply elem_of_seq. lia.
  - rewrite H3. split.
    + intros [_ H] i Hi. apply H. apply elem_of_seq. lia.
    + intros H. split; [done|]. intros i Hi. apply H. apply elem_of_seq in Hi. lia.
Qed.

(** ** [is_in_polygon] on the square that the editor adds *)

Lemma pt_ltb_lt_x (a b : Point) : a.1 < b.1 -> pt_ltb b a = false.
Proof.
  intros H. unfold pt_ltb. apply orb_false_iff. split.
  - apply Z.ltb_ge. lia.
  - apply andb_false_iff. left. apply Z.eqb_neq. lia.
Qed.

Lemma pt_ltb_lt_y (a b : Point) : a.1 = b.1 -> a.2 < b.2 -> pt_ltb b a = false.
Proof.
  intros H1 H2. unfold pt_ltb. apply orb_false_iff. split.
  - apply Z.ltb_ge. lia.
  - apply andb_false_iff. right. apply Z.ltb_ge. lia.
Qed.

(** The general branch of [segments_intersect] on ordered segments. *)
Lemma segments_intersect_cross (A B C D : Point) :
  pt_ltb B A = false -> pt_ltb D C = false ->
  ccw A B C <> 0 \/ ccw A B D <> 0 ->
  segments_intersect (A, B) (C, D) =
  if (ccw A B C * ccw A B D <=? 0) && (ccw C D A * ccw C D B <=? 0) then 1 else 0.
Proof.
  intros H1 H2 Hne. rewrite segments_intersect_ordered by done.
  destruct ((ccw A B C =? ccw A B D) && (ccw A B D =? 0)) eqn:E; [|done].
  apply andb_true_iff in E as [E1 E2]. apply Z.eqb_eq in E1, E2. lia.
Qed.

Lemma segments_intersect_miss (A B C D : Point) :
  pt_ltb B A = false -> pt_ltb D C = false ->
  ccw A B C <> 0 \/ ccw A B D <> 0 ->
  0 < ccw A B C * ccw A B D \/ 0 < ccw C D A * ccw C D B ->
  segments_intersect (A, B) (C, D) = 0.
Proof.
  intros H1 H2 Hne Hs. rewrite segments_intersect_cross by done.
  destruct (Z.leb_spec (ccw A B C * ccw A B D) 0); [|done].
  destruct (Z.leb_spec (ccw C D A * ccw C D B) 0); [|done]. lia.
Qed.

Lemma segments_intersect_hit (A B C D : Point) :
  pt_ltb B A = false -> pt_ltb D C = false ->
  ccw A B C <> 0 \/ ccw A B D <> 0 ->
  ccw A B C * ccw A B D <= 0 -> ccw C D A * ccw C D B <= 0 ->
  segments_intersect (A, B) (C, D) = 1.
Proof.
  intros H1 H2 Hne Hs1 Hs2. rewrite segments_intersect_cross by done.
  rewrite (proj2 (Z.leb_le _ _) Hs1), (proj2 (Z.leb_le _ _) Hs2). done.
Qed.

Lemma ccw_eq (A B C : Point) :
  ccw A B C = (B.1 - A.1) * (C.2 - A.2) - (B.2 - A.2) * (C.1 - A.1).
Proof. reflexivity. Qed.

Lemma prod_pos (a b : Z) : (0 < a /\ 0 < b) \/ (a < 0 /\ b < 0) -> 0 < a * b.
Proof. nia. Qed.

Lemma prod_nonpos (a b : Z) : (a <= 0 /\ 0 <= b) \/ (0 <= a /\ b <= 0) -> a * b <= 0.
Proof. nia. Qed.

Lemma scale_up (t b : Z) : 0 < t -> 1 <= b -> t <= t * b.
Proof. nia. Qed.

Lemma scale_down (t b : Z) : 0 < t -> b <= -1 -> t * b <= - t.
Proof. nia. Qed.

Lemma is_in_polygon_quad (a b c d p : Point) (n0 n1 n2 n3 : Z) :
  segments_intersect (d, a) (p, (10 ^ 9, p.2 + 1)) = n0 ->
  segments_intersect (a, b) (p, (10 ^ 9, p.2 + 1)) = n1 ->
  segments_intersect (b, c) (p, (10 ^ 9, p.2 + 1)) = n2 ->
  segments_intersect (c, d) (p, (10 ^ 9, p.2 + 1)) = n3 ->
  is_in_polygon [a; b; c; d] p =
  let c0 := if negb (n0 =? 0) then 0 + 1 else 0 in
  let c1 := if negb (n1 =? 0) then c0 + 1 else c0 in
  let c2 := if negb (n2 =? 0) then c1 + 1 else c1 in
  let c3 := if negb (n3 =? 0) then c2 + 1 else c2 in
  c3 `mod` 2 =? 1.
Proof. intros <- <- <- <-. reflexivity. Qed.

Section Square.

Variables x y px py : Z.
Hypothesis Hx : x - 10 < px < x + 10.
Hypothesis Hy : y - 10 < py < y + 10.
Hypothesis Hfar : x + 10 < 1000000000.

Lemma square_top :
  segments_intersect ((x - 10, y + 10), (x + 10, y + 10))
                     ((px, py), (1000000000, py + 1)) = 0.
Proof.
  apply segments_intersect_miss.
  - apply pt_ltb_lt_x. cbn. lia.
  - apply pt_ltb_lt_x. cbn. lia.
  - left. rewrite ccw_eq. cbn [fst snd]. lia.
  - rewrite !ccw_eq. cbn [fst snd].
    destruct (decide (py = y + 9)) as [->|Hne].
    + right. apply prod_pos. left. split; lia.
    + left. apply prod_pos. right. split; lia.
Qed.

Lemma square_right :
  segments_intersect ((x + 10, y - 10), (x + 10, y + 10))
                     ((px, py), (1000000000, py + 1)) = 1.
Proof.
  pose proof (scale_down (1000000000 - px) (y - 10 - py) ltac:(lia) ltac:(lia)).
  pose proof (scale_up (1000000000 - px) (y + 10 - py) ltac:(lia) ltac:(lia)).
  apply segments_intersect_hit.
  - apply pt_ltb_lt_y; cbn; lia.
  - apply pt_ltb_lt_x. cbn. lia.
  - left. rewrite ccw_eq. cbn [fst snd]. lia.
  - rewrite !ccw_eq. cbn [fst snd]. apply prod_nonpos. right. split; lia.
  - rewrite !ccw_eq. cbn [fst snd]. apply prod_nonpos. left. split; lia.
Qed.

Lemma square_bottom :
  segments_intersect ((x - 10, y - 10), (x + 10, y - 10))
                     ((px, py), (1000000000, py + 1)) = 0.
Proof.
  apply segments_intersect_miss.
  - apply pt_ltb_lt_x. cbn. lia.
  - apply pt_ltb_lt_x. cbn. lia.
  - left. rewrite ccw_eq. cbn [fst snd]. lia.
  - left. rewrite !ccw_eq. cbn [fst snd]. apply prod_pos. left. split; lia.
Qed.

Lemma square_left :
  segments_intersect ((x - 10, y - 10), (x - 10, y + 10))
                     ((px, py), (1000000000, py + 1)) = 0.
Proof.
  apply segments_intersect_miss.
  - apply pt_ltb_lt_y; cbn; lia.
  - apply pt_ltb_lt_x. cbn. lia.
  - left. rewrite ccw_eq. cbn [fst snd]. lia.
  - left. rewrite !ccw_eq. cbn [fst snd]. apply prod_pos. right. split; lia.
Qed.

Lemma is_in_new_square : is_in_polygon (new_square (x, y)) (px, py) = true.
Proof.
  apply (is_in_polygon_quad (x + 10, y + 10) (x + 10, y - 10) (x - 10, y - 10)
           (x - 10, y + 10) (px, py) 0 1 0 0).
  - exact square_top.
  - rewrite segments_intersect_flip. exact square_right.
  - rewrite segments_intersect_flip. exact square_bottom.
  - exact square_left.
Qed.

End Square.

Section RightOfSquare.

Variables x y px py : Z.
Hypothesis Hx : x + 10 < px < 1000000000.

Lemma right_top :
  segments_intersect ((x - 10, y + 10), (x + 10, y + 10))
                     ((px, py), (1000000000, py + 1)) = 0.
Proof.
  apply segments_intersect_miss.
  - apply pt_ltb_lt_x. cbn. lia.
  - apply pt_ltb_lt_x. cbn. lia.
  - rewrite !ccw_eq. cbn [fst snd]. lia.
  - rewrite !ccw_eq. cbn [fst snd].
    destruct (decide (py = y + 10)) as [->|Hne1].
    { right. apply prod_pos. left. split; lia. }
    destruct (decide (py = y + 9)) as [->|Hne2].
    { right. apply prod_pos. left. split; lia. }
    left. apply prod_pos. lia.
Qed.

Lemma right_right :
  segments_intersect ((x + 10, y - 10), (x + 10, y + 10))
                     ((px, py), (1000000000, py + 1)) = 0.
Proof.
  apply segments_intersect_miss.
  - apply pt_ltb_lt_y; cbn; lia.
  - apply pt_ltb_lt_x. cbn. lia.
  - left. rewrite ccw_eq. cbn [fst snd]. lia.
  - left. rewrite !ccw_eq. cbn [fst snd]. apply prod_pos. right. split; lia.
Qed.

Lemma right_bottom :
  segments_intersect ((x - 10, y - 10), (x + 10, y - 10))
                     ((px, py), (1000000000, py + 1)) = 0.
Proof.
  apply segments_intersect_miss.
  - apply pt_ltb_lt_x. cbn. lia.
  - apply pt_ltb_lt_x. cbn. lia.
  - rewrite !ccw_eq. cbn [fst snd]. lia.
  - rewrite !ccw_eq. cbn [fst snd].
    destruct (decide (py = y - 10)) as [->|Hne1].
    { right. apply prod_pos. left. split; lia. }
    destruct (decide (py = y - 11)) as [->|Hne2].
    { right. apply prod_pos. left. split; lia. }
    left. apply prod_pos. lia.
Qed.

Lemma right_left :
  segments_intersect ((x - 10, y - 10), (x - 10, y + 10))
                     ((px, py), (1000000000, py + 1)) = 0.
Proof.
  apply segments_intersect_miss.
  - apply pt_ltb_lt_y; cbn; lia.
  - apply pt_ltb_lt_x. cbn. lia.
  - left. rewrite ccw_eq. cbn [fst snd]. lia.
  - left. rewrite !ccw_eq. cbn [fst snd]. apply prod_pos. right. split; lia.
Qed.

Lemma is_right_of_new_square : is_in_polygon (new_square (x, y)) (px, py) = false.
Proof.
  apply (is_in_polygon_quad (x + 10, y + 10) (x + 10, y - 10) (x - 10, y - 10)
           (x - 10, y + 10) (px, py) 0 0 0 0).
  - exact right_top.
  - rewrite segments_intersect_flip. exact right_right.
  - rewrite segments_intersect_flip. exact right_bottom.
  - exact right_left.
Qed.

End RightOfSquare.

(** X5: for the square that the editor adds around [(x, y)], with
    [x + 10 < 10^9], [is_in_polygon] answers [True] for every point strictly
    inside the square, so for [(x, y)] itself, and [False] for every point
    to the right of the square. *)
Theorem is_in_new_square_spec (x y px py : Z) :
  x + 10 < 10 ^ 9 ->
  (x - 10 < px < x + 10 -> y - 10 < py < y + 10 ->
   is_in_polygon (new_square (x, y)) (px, py) = true) /\
  (x + 10 < px < 10 ^ 9 -> is_in_polygon (new_square (x, y)) (px, py) = false).
Proof.
  change (10 ^ 9) with 1000000000. intros Hfar. split.
  - intros Hx Hy. by apply is_in_new_square.
  - intros Hx. by apply is_right_of_new_square.
Qed.

Lemma is_in_new_square_witness :
  is_in_polygon (new_square (300, 300)) (300, 300) = true /\
  is_in_polygon (new_square (300, 300)) (320, 295) = false.
Proof.
  destruct (is_in_new_square_spec 300 300 300 300 ltac:(reflexivity)) as [H1 _].
  destruct (is_in_new_square_spec 300 300 320 295 ltac:(reflexivity)) as [_ H2].
  split; [apply H1; lia | apply H2; split; [lia | reflexivity]].
Defined.

(** ** The distance *)












(** ** The graph is undirected; what a returned polyline is made of *)

Lemma removelast_Forall {A : Type} (Q : A -> Prop) (l : list A) :
  Forall Q l -> Forall Q (removelast l).
Proof.
  induction 1 as [|x l Hx Hl IH]; [constructor|].
  destruct l as [|y l]; [constructor|].
  change (removelast (x :: y :: l)) with (x :: removelast (y :: l)).
  by constructor.
Qed.

Lemma points_of_elem_of (table : list Point) (route : list nat) :
  forall r, points_of table route = Ret r -> forall p, p ∈ r -> p ∈ table.
Proof.
  unfold points_of. induction route as [|x route IH]; intros r H p Hp.
  - injection H as <-. by apply elem_of_nil in Hp.
  - cbn [mapM] in H. apply bind_Ret in H as (q & Hq & H).
    apply bind_Ret in H as (k & Hk & H). injection H as <-.
    apply get_item_Ret in Hq. apply elem_of_cons in Hp as [->|Hp].
    + by eapply list_elem_of_lookup_2.
    + by eapply IH.
Qed.

Lemma refine_Forall (Q : Point -> Prop) (rec : Point -> Point -> traced (list Point))
    (table : list Point) (route : list nat) :
  (forall p, p ∈ table -> Q p) ->
  (forall a b log r, Q a -> Q b -> rec a b = (log, Ret r) -> Forall Q r) ->
  forall idxs acc log r, Forall Q acc ->
    refine rec table route idxs acc = (log, Ret r) -> Forall Q r.
Proof.
  intros Ht Hrec. induction idxs as [|i idxs IH]; intros acc log r Hacc H.
  - cbn in H. apply quiet_Ret in H as [-> H]. unfold finish in H.
    apply bind_Ret in H as (x & Hx & H). apply bind_Ret in H as (p & Hp & H).
    apply get_item_Ret in Hp. injection H as <-.
    apply Forall_app. split; [done|]. constructor; [|constructor].
    apply Ht. by eapply list_elem_of_lookup_2.
  - cbn [refine] in H.
    apply traced_bind_Ret in H as ([a b] & log1 & log2 & Hab & H & ->).
    apply quiet_Ret in Hab as [-> Hab]. cbn [fst snd] in H.
    apply traced_bind_Ret in H as (sub & log3 & log4 & Hsub & H & ->).
    apply endpoints_elem_of in Hab as [Ha Hb].
    assert (Forall Q sub) as Hsubq
      by (apply (Hrec a b log3 sub); [apply Ht, Ha|apply Ht, Hb|exact Hsub]).
    destruct (acc ++ sub) as [|p ps] eqn:E.
    { by apply quiet_Ret in H as [_ ?]. }
    assert (Hall : Forall Q (p :: ps)) by (rewrite <- E; by apply Forall_app).
    exact (IH _ _ _ (removelast_Forall Q _ Hall) H).
Qed.

Lemma routing_points (dist : Point -> Point -> Z) (fuel : nat) :
  forall start end_ buildings depth log r,
    routing dist fuel start end_ buildings depth = (log, Ret r) ->
    Forall (fun p => p ∈ start :: end_ :: concat buildings) r.
Proof.
  induction fuel as [|fuel IH]; intros s e B depth log r H; [done|].
  cbn [routing] in H. destruct (100 <? depth).
  { injection H as <- <-. constructor; [by left|].
    constructor; [right; by left|constructor]. }
  apply traced_bind_Ret in H as ([table route] & log1 & log2 & Hfind & H & ->).
  apply quiet_Ret in Hfind as [-> Hfind].
  apply find_route_spec in Hfind as (-> & _).
  destruct (length route =? 2)%nat.
  - apply quiet_Ret in H as [-> H]. apply list.Forall_forall. intros p Hp.
    apply considered_points. by eapply points_of_elem_of.
  - eapply (refine_Forall _ _ _ _ _ _ _ [] log2 r ltac:(constructor) H).
    Unshelve.
    + intros p Hp. by apply considered_points.
    + intros a b log' r' Ha Hb Hr. cbn beta in Hr.
      apply IH in Hr. eapply list.Forall_impl; [exact Hr|].
      intros p Hp. cbn beta in Hp.
      apply elem_of_cons in Hp as [->|Hp]; [done|].
      apply elem_of_cons in Hp as [->|Hp]; [done|].
      right; by right.
Qed.


#[local] Transparent polygon_edges.

Lemma polygon_edges_sym (offset n i j : nat) :
  (i < n)%nat -> (j < n)%nat ->
  (offset + j)%nat ∈ polygon_edges offset n i ->
  (offset + i)%nat ∈ polygon_edges offset n j.
Proof.
  intros Hi Hj. unfold polygon_edges.
  rewrite !elem_of_cons, !elem_of_nil.
  pose proof (Z.mod_pos_bound (Z.of_nat i - 1) (Z.of_nat n) ltac:(lia)) as Hb1.
  pose proof (Z.mod_pos_bound (Z.of_nat i + 1) (Z.of_nat n) ltac:(lia)) as Hb2.
  intros [H|[H|[]]].
  - right; left. f_equal.
    assert (Hz : Z.of_nat j = (Z.of_nat i - 1) `mod` Z.of_nat n) by lia.
    rewrite Hz, Zplus_mod_idemp_l.
    replace (Z.of_nat i - 1 + 1) with (Z.of_nat i) by lia.
    rewrite Z.mod_small by lia. lia.
  - left. f_equal.
    assert (Hz : Z.of_nat j = (Z.of_nat i + 1) `mod` Z.of_nat n) by lia.
    rewrite Hz, Zminus_mod_idemp_l.
    replace (Z.of_nat i + 1 - 1) with (Z.of_nat i) by lia.
    rewrite Z.mod_small by lia. lia.
Qed.

#[local] Opaque polygon_edges.

Lemma decompose_cases {A : Type} (l1 l2 k1 k2 : list (list A)) (x y : list A) :
  l1 ++ x :: l2 = k1 ++ y :: k2 ->
  (l1 = k1 /\ x = y /\ l2 = k2) \/
  (exists mid, l2 = mid ++ y :: k2 /\ k1 = l1 ++ x :: mid) \/
  (exists mid, k2 = mid ++ x :: l2 /\ l1 = k1 ++ y :: mid).
Proof.
  intros H. apply app_eq_inv in H as [(k & -> & Hk) | (k & -> & Hk)].
  - destruct k as [|z k].
    + injection Hk as -> ->. left. by rewrite app_nil_r.
    + injection Hk as -> ->. right; right. by exists k.
  - destruct k as [|z k].
    + injection Hk as -> ->. left. by rewrite app_nil_r.
    + injection Hk as -> ->. right; left. by exists k.
Qed.

Lemma graph_ok_undirected (ps : list Polygon) (graph : list (list nat)) (u v : nat) :
  graph_ok ps ps graph -> has_edge graph u v ->
  (u < length graph)%nat /\ (v < length graph)%nat /\ has_edge graph v u.
Proof.
  intros Hok Huv.
  pose proof (graph_ok_wf _ _ Hok) as [Hlen Hwf].
  assert (Hu : (u < length graph)%nat).
  { destruct Huv as (adj & Hadj & _). by eapply lookup_lt_Some. }
  assert (Hv : (v < length graph)%nat).
  { destruct Huv as (adj & Hadj & Hin). rewrite Hlen. by eapply Hwf. }
  split; [done|]. split; [done|].
  destruct (node_decompose ps u ltac:(lia)) as (ps1 & poly & ps2 & i & p & Hps & Hi & ->).
  destruct (node_decompose ps v ltac:(lia)) as (ps1' & poly' & ps2' & j & q & Hps' & Hj & ->).
  assert (Hcases := Hps'). rewrite Hps in Hcases.
  apply decompose_cases in Hcases
    as [(<- & <- & <-) | [(mid & -> & ->) | (mid & -> & ->)]].
  - assert (Hilt : (i < length poly)%nat) by by eapply lookup_lt_Some.
    assert (Hjlt : (j < length poly)%nat) by by eapply lookup_lt_Some.
    apply (graph_ok_same_polygon ps graph ps1 poly ps2 j i q Hok Hps Hj Hilt).
    apply (graph_ok_same_polygon ps graph ps1 poly ps2 i j p Hok Hps Hi Hjlt) in Huv.
    unfold node_of in *. by apply polygon_edges_sym.
  - destruct (graph_ok_cross_polygon ps graph ps1 poly mid poly' ps2' i j p q Hok Hps Hi Hj)
      as [H1 H2].
    apply H2, H1, Huv.
  - destruct (graph_ok_cross_polygon ps graph ps1' poly' mid poly ps2 j i q p Hok Hps' Hj Hi)
      as [H1 H2].
    apply H1, H2, Huv.
Qed.

(** X7: the builder never fails, gives every node of the table an adjacency
    list, and the graph is undirected: the nodes on an adjacency list are
    nodes of the table, and whenever [v] is on the list of [u], [u] is on
    the list of [v]. *)
Theorem build_graph_undirected (ps : list Polygon) :
  exists graph,
    build_graph ps = Ret (concat ps, graph) /\
    length graph = length (concat ps) /\
    forall u v, has_edge graph u v ->
      (u < length graph)%nat /\ (v < length graph)%nat /\ has_edge graph v u.
Proof.
  destruct (build_graph_spec ps) as (graph & Hb & Hok).
  exists graph. split; [done|]. split; [apply Hok|].
  intros u v Huv. by apply (graph_ok_undirected ps).
Qed.

(** X11: every point of a polyline returned by [plan] is the start, the end
    or a vertex of one of the buildings. *)
Theorem plan_points (dist : Point -> Point -> Z) (fuel : nat) (start end_ : Point)
    (buildings : list Polygon) (log : list print_record) (r : list Point) :
  plan dist fuel start end_ buildings = (log, Ret r) ->
  forall p, p ∈ r ->
    p = start \/ p = end_ \/ exists P, P ∈ buildings /\ p ∈ P.
Proof.
  unfold plan. intros H p Hp.
  pose proof (routing_points dist fuel start end_ buildings 0 log r H) as Hall.
  pose proof (proj1 (list.Forall_forall _ _) Hall p Hp) as Hin. cbn beta in Hin.
  apply elem_of_cons in Hin as [->|Hin]; [by left|].
  apply elem_of_cons in Hin as [->|Hin]; [right; by left|].
  right; right. apply elem_of_concat in Hin as (P & HpP & HP). by exists P.
Qed.

Lemma plan_points_witness :
  plan hypot_fix 10 (0, 0) (20, 0) [square]
    = ([], Ret [(0, 0); (5, 5); (15, 5); (20, 0)]) /\
  ((5, 5) = (0, 0) \/ (5, 5) = (20, 0) \/ exists P, P ∈ [square] /\ ((5, 5) : Point) ∈ P).
Proof.
  assert (H : plan hypot_fix 10 (0, 0) (20, 0) [square]
              = ([], Ret [(0, 0); (5, 5); (15, 5); (20, 0)]))
    by (vm_compute; reflexivity).
  split; [exact H|].
  apply (plan_points hypot_fix 10 (0, 0) (20, 0) [square] [] _ H (5, 5)).
  right. left.
Defined.



(** ** The search finds a shortest path of the graph *)

Lemma entry_ltb_true (a b : entry) :
  entry_ltb a b = true <->
  a.1.1 < b.1.1 \/
  (a.1.1 = b.1.1 /\ (a.1.2 < b.1.2 \/ (a.1.2 = b.1.2 /\ (a.2 < b.2)%nat))).
Proof.
  destruct a as [[f1 d1] x1], b as [[f2 d2] x2]. unfold entry_ltb. cbn [fst snd].
  rewrite !orb_true_iff, !andb_true_iff, !orb_true_iff, !andb_true_iff.
  rewrite !Z.ltb_lt, !Z.eqb_eq, Nat.ltb_lt. done.
Qed.

Lemma entry_ltb_false (a b : entry) :
  entry_ltb a b = false <->
  ~ (a.1.1 < b.1.1 \/
     (a.1.1 = b.1.1 /\ (a.1.2 < b.1.2 \/ (a.1.2 = b.1.2 /\ (a.2 < b.2)%nat)))).
Proof. by rewrite <- entry_ltb_true, not_true_iff_false. Qed.

Lemma entry_lt_le (a b c : entry) :
  entry_ltb a b = true -> entry_ltb c b = false -> entry_ltb c a = false.
Proof.
  rewrite entry_ltb_true, !entry_ltb_false.
  destruct a as [[f1 d1] x1], b as [[f2 d2] x2], c as [[f3 d3] x3]. cbn [fst snd]. lia.
Qed.

Lemma entry_lt_asym (a b : entry) : entry_ltb a b = true -> entry_ltb b a = false.
Proof.
  rewrite entry_ltb_true, !entry_ltb_false.
  destruct a as [[f1 d1] x1], b as [[f2 d2] x2]. cbn [fst snd]. lia.
Qed.

Lemma heappush_sorted (q : list entry) (e : entry) :
  queue_sorted q -> queue_sorted (heappush q e).
Proof.
  induction q as [|e' q IH]; intros Hs.
  - cbn. split; [|done]. intros x Hx. by apply elem_of_nil in Hx.
  - destruct Hs as [Hhd Htl]. cbn [heappush].
    destruct (entry_ltb e e') eqn:Hlt.
    + split; [|by split]. intros x Hx. apply elem_of_cons in Hx as [->|Hx].
      * by apply entry_lt_asym.
      * eapply entry_lt_le; [exact Hlt|]. by apply Hhd.
    + split; [|by apply IH]. intros x Hx.
      apply heappush_elem_of in Hx as [->|Hx]; [done|by apply Hhd].
Qed.

Lemma queue_sorted_head (e w : entry) (q : list entry) :
  queue_sorted (e :: q) -> w ∈ e :: q -> e.1.1 <= w.1.1.
Proof.
  intros [Hhd _] Hw. apply elem_of_cons in Hw as [->|Hw]; [lia|].
  specialize (Hhd w Hw). apply entry_ltb_false in Hhd.
  destruct e as [[f1 d1] x1], w as [[f2 d2] x2]. cbn [fst snd] in *. lia.
Qed.

Lemma is_path_snoc (graph : list (list nat)) (rest : list nat) :
  forall x z y, is_path graph x rest -> list.last (x :: rest) = Some z ->
    has_edge graph z y -> is_path graph x (rest ++ [y]).
Proof.
  induction rest as [|x1 rest IH]; intros x z y Hp Hl He.
  - injection Hl as ->. by split.
  - destruct Hp as [He1 Hp]. split; [done|]. by eapply IH.
Qed.

Lemma path_cost_snoc (dist : Point -> Point -> Z) (table : list Point)
    (rest : list nat) :
  forall x z y, list.last (x :: rest) = Some z ->
    path_cost dist table x (rest ++ [y])
    = path_cost dist table x rest + edge_cost dist table z y.
Proof.
  induction rest as [|x1 rest IH]; intros x z y Hl.
  - injection Hl as ->. cbn. lia.
  - cbn [app path_cost]. rewrite (IH x1 z y Hl). lia.
Qed.

Lemma last_snoc_cons {A : Type} (x y : A) (l : list A) :
  list.last (x :: l ++ [y]) = Some y.
Proof. by rewrite app_comm_cons, last_snoc. Qed.

Section Astar.

Variable dist : Point -> Point -> Z.
Hypothesis dist_nonneg : forall a b, 0 <= dist a b.
Variable graph : list (list nat).
Variable table : list Point.
Hypothesis Hwf : graph_wf graph (length table).
Hypothesis Htable : (2 <= length table)%nat.

Lemma relax_astar (ex : nat -> Prop) (st st' : search_state) (x y : nat) (dx : Z) :
  search_inv graph table st -> astar_inv dist graph table ex st ->
  dist_table st !! x = Some dx -> 0 <= dx ->
  relax dist table x st y = Ret st' ->
  astar_inv dist graph table ex st' /\
  (forall z dz, dist_table st !! z = Some dz -> dz <> -1 ->
     exists dz', dist_table st' !! z = Some dz' /\ dz' <> -1 /\ dz' <= dz) /\
  (exists dy', dist_table st' !! y = Some dy' /\ dy' <> -1 /\
               dy' <= dx + edge_cost dist table x y).
Proof.
  intros Hinv Hai Hx Hdx H.
  apply relax_inversion in H
    as (tx & ty & dx' & dy & Htx & Hty & Hdx' & Hdy & Hcases).
  assert (dx' = dx) as -> by congruence.
  assert (Hcost : edge_cost dist table x y = dist tx ty).
  { unfold edge_cost, node_point. by rewrite Htx, Hty. }
  pose proof (dist_nonneg tx ty) as Hw.
  destruct Hcases as [[Hskip ->] | [Hupd (t1 & Ht1 & ->)]].
  - split; [done|]. split.
    + intros z dz Hz Hne. by exists dz.
    + apply andb_true_iff in Hskip as [Hs1 Hs2].
      apply negb_true_iff, Z.eqb_neq in Hs1. apply Z.leb_le in Hs2.
      exists dy. rewrite Hcost. split; [done|]. split; [done|lia].
  - assert (Hupd' : dy = -1 \/ dist tx ty + dx < dy).
    { apply andb_false_iff in Hupd as [H | H].
      - left. by apply negb_false_iff, Z.eqb_eq in H.
      - right. by apply Z.leb_gt in H. }
    clear Hupd.
    assert (Hyx : y <> x).
    { intros ->. assert (dy = dx) by congruence. lia. }
    assert (Hylt : (y < length (dist_table st))%nat) by by eapply lookup_lt_Some.
    assert (Hylt' : (y < length (connection st))%nat).
    { rewrite (inv_len_conn _ _ _ Hinv), <- (inv_len_dist _ _ _ Hinv). done. }
    assert (Hheur : heuristic dist table y = dist t1 ty).
    { unfold heuristic, node_point. by rewrite Ht1, Hty. }
    pose proof (dist_nonneg t1 ty) as Hh.
    rewrite <- Hcost in *.
    set (d_ := edge_cost dist table x y + dx) in *.
    assert (Hmono : forall z dz, dist_table st !! z = Some dz -> dz <> -1 ->
              exists dz', <[y:=d_]> (dist_table st) !! z = Some dz' /\
                          dz' <> -1 /\ dz' <= dz).
    { intros z dz Hz Hne. destruct (decide (z = y)) as [->|Hzy].
      - exists d_. rewrite list_lookup_insert_eq by done.
        assert (dz = dy) as -> by congruence. split; [done|]. lia.
      - exists dz. rewrite list_lookup_insert_ne by done. split; [done|]. lia. }
    split; [|split].
    + split; cbn [dist_table connection queue].
      * apply heappush_sorted, Hai.
      * intros f d z Hin. apply heappush_elem_of in Hin as [[= -> -> ->]|Hin].
        -- exists d_. rewrite list_lookup_insert_eq by done. rewrite Hheur.
           split; [done|]. lia.
        -- destruct (ai_entry _ _ _ _ _ Hai f d z Hin)
             as (dz & Hz & Hne & Hle1 & Hle2 & Hle3).
           destruct (Hmono z dz Hz Hne) as (dz' & Hz' & Hne' & Hle').
           exists dz'. split; [done|]. lia.
      * intros z dz Hz Hne. destruct (decide (z = y)) as [->|Hzy].
        -- rewrite list_lookup_insert_eq in Hz by done. injection Hz as <-.
           right; left. exists (d_ + dist t1 ty). apply heappush_elem_of. by left.
        -- rewrite list_lookup_insert_ne in Hz by done.
           destruct (ai_open _ _ _ _ _ Hai z dz Hz Hne) as [?|[(f & Hf)|Hcl]].
           ++ by left.
           ++ right; left. exists f. apply heappush_elem_of. by right.
           ++ right; right. intros y' He.
              destruct (Hcl y' He) as (dy' & Hy' & Hne' & Hle').
              destruct (Hmono y' dy' Hy' Hne') as (d2 & ? & ? & ?).
              exists d2. split; [done|]. lia.
      * intros y' x' Hc. destruct (decide (y' = y)) as [->|Hne].
        -- rewrite list_lookup_insert_eq in Hc by done. injection Hc as <-.
           exists dx, d_. rewrite list_lookup_insert_ne by done.
           rewrite list_lookup_insert_eq by done. split; [done|]. split; [done|]. lia.
        -- rewrite list_lookup_insert_ne in Hc by done.
           destruct (ai_conn _ _ _ _ _ Hai y' x' Hc)
             as (dx1 & dy1 & Hx1 & Hy1 & Hne1 & Hle1).
           destruct (Hmono x' dx1 Hx1 Hne1) as (dx2 & ? & ? & ?).
           exists dx2, dy1. split; [done|].
           split; [by rewrite list_lookup_insert_ne|]. lia.
    + exact Hmono.
    + exists d_. cbn [dist_table]. rewrite list_lookup_insert_eq by done.
      split; [done|]. lia.
Qed.

Lemma relax_all_astar (ex : nat -> Prop) (x : nat) (dx : Z) (ys : list nat) :
  (forall y, y ∈ ys -> has_edge graph x y) -> 0 <= dx ->
  forall st st',
    search_inv graph table st -> astar_inv dist graph table ex st ->
    dist_table st !! x = Some dx ->
    relax_all dist table x st ys = Ret st' ->
    search_inv graph table st' /\ astar_inv dist graph table ex st' /\
    dist_table st' !! x = Some dx /\
    (forall z dz, dist_table st !! z = Some dz -> dz <> -1 ->
       exists dz', dist_table st' !! z = Some dz' /\ dz' <> -1 /\ dz' <= dz) /\
    (forall y, y ∈ ys ->
       exists dy', dist_table st' !! y = Some dy' /\ dy' <> -1 /\
                   dy' <= dx + edge_cost dist table x y).
Proof.
  intros Hys Hdx. induction ys as [|y ys IH]; intros st st' Hinv Hai Hx H.
  - injection H as <-. split; [done|]. split; [done|]. split; [done|]. split.
    + intros z dz Hz Hne. by exists dz.
    + intros y Hy. by apply elem_of_nil in Hy.
  - cbn [relax_all] in H. apply bind_Ret in H as (st1 & Hrel & H).
    destruct (relax_total dist dist_nonneg graph table Hwf Htable st x y dx Hinv Hx Hdx)
      as (st1' & Hrel' & Hinv1 & Hx1 & _).
    { apply Hys. by apply elem_of_cons; left. }
    assert (st1' = st1) as -> by congruence.
    destruct (relax_astar ex st st1 x y dx Hinv Hai Hx Hdx Hrel)
      as (Hai1 & Hmono1 & Hy1).
    destruct (IH ltac:(intros; apply Hys; by apply elem_of_cons; right)
                 st1 st' Hinv1 Hai1 Hx1 H) as (Hinv' & Hai' & Hx' & Hmono' & Hys').
    split; [done|]. split; [done|]. split; [done|]. split.
    + intros z dz Hz Hne. destruct (Hmono1 z dz Hz Hne) as (d1 & Hz1 & Hne1 & Hle1).
      destruct (Hmono' z d1 Hz1 Hne1) as (d2 & Hz2 & Hne2 & Hle2).
      exists d2. split; [done|]. lia.
    + intros y' Hy'. apply elem_of_cons in Hy' as [->|Hy']; [|by apply Hys'].
      destruct Hy1 as (d1 & Hz1 & Hne1 & Hle1).
      destruct (Hmono' y d1 Hz1 Hne1) as (d2 & Hz2 & Hne2 & Hle2).
      exists d2. split; [done|]. lia.
Qed.

(** From a node with a cost, along a path: the last node has a cost within
    the cost of the path, or a node of the path waits in the queue with a
    cost that, with the rest of the path, stays within the cost of the
    path. *)
Lemma frontier (st : search_state) :
  astar_inv dist graph table (fun _ => False) st ->
  forall rest x dx, dist_table st !! x = Some dx -> dx <> -1 ->
    is_path graph x rest ->
    (exists z dz, list.last (x :: rest) = Some z /\ dist_table st !! z = Some dz /\
                  dz <> -1 /\ dz <= dx + path_cost dist table x rest) \/
    (exists y post f dy,
       list.last (y :: post) = list.last (x :: rest) /\ is_path graph y post /\
       (f, dy, y) ∈ queue st /\
       dy + path_cost dist table y post <= dx + path_cost dist table x rest).
Proof.
  intros Hai. induction rest as [|x1 rest IH]; intros x dx Hx Hne Hp.
  - left. exists x, dx. cbn. split; [done|]. split; [done|]. split; [done|]. lia.
  - destruct (ai_open _ _ _ _ _ Hai x dx Hx Hne) as [[]|[(f & Hf)|Hcl]].
    + right. exists x, (x1 :: rest), f, dx. split; [done|]. split; [done|].
      split; [done|]. lia.
    + destruct Hp as [He Hp].
      destruct (Hcl x1 He) as (d1 & Hx1 & Hne1 & Hle1).
      destruct (IH x1 d1 Hx1 Hne1 Hp)
        as [(z & dz & Hl & Hz & Hnez & Hlez) | (y & post & f & dy & Hl & Hpp & Hin & Hle)].
      * left. exists z, dz. split; [done|]. split; [done|]. split; [done|].
        cbn [path_cost]. lia.
      * right. exists y, post, f, dy. split; [done|]. split; [done|]. split; [done|].
        cbn [path_cost]. lia.
Qed.

Lemma search_astar (fuel : nat) :
  forall st st',
    search_inv graph table st -> astar_inv dist graph table (fun _ => False) st ->
    search dist fuel graph table st = Ret st' ->
    search_result dist graph table st'.
Proof.
  induction fuel as [|fuel IH]; intros st st' Hinv Hai H; [done|].
  rewrite search_unfold in H.
  destruct (queue st) as [|[[f d] x] queue'] eqn:Hq.
  { injection H as <-. split; [done|]. split; [apply Hai|].
    intros rest Hp Hl.
    destruct (frontier st Hai rest 0%nat 0 (inv_zero _ _ _ Hinv) ltac:(lia) Hp)
      as [(z & dz & Hl' & Hz & Hnez & Hlez) | (y & post & f & dy & _ & _ & Hin & _)].
    - assert (z = 1%nat) as -> by congruence.
      exists dz. split; [done|]. split; [done|]. intros _. lia.
    - rewrite Hq in Hin. by apply elem_of_nil in Hin. }
  cbn zeta in H. cbn [dist_table connection] in H.
  pose proof (search_inv_pop graph table st _ _ Hinv Hq) as Hinv1.
  destruct (x =? 1)%nat eqn:Hx1.
  { injection H as <-. apply Nat.eqb_eq in Hx1 as ->.
    split; [done|]. split; [apply Hai|].
    intros rest Hp Hl. cbn [dist_table].
    destruct (ai_entry _ _ _ _ _ Hai f d 1%nat) as (d1 & Hd1 & Hne1 & Hle1 & Hle2 & _).
    { rewrite Hq. by apply elem_of_cons; left. }
    exists d1. split; [done|]. split; [done|]. intros Hadm.
    destruct (frontier st Hai rest 0%nat 0 (inv_zero _ _ _ Hinv) ltac:(lia) Hp)
      as [(z & dz & Hl' & Hz & Hnez & Hlez) | (y & post & fy & dy & Hl' & Hpp & Hin & Hle)].
    - assert (z = 1%nat) as -> by congruence.
      assert (dz = d1) as -> by congruence. lia.
    - rewrite Hq in Hin.
      pose proof (queue_sorted_head (f, d, 1%nat) (fy, dy, y) queue') as Hhead.
      rewrite <- Hq in Hhead at 1. specialize (Hhead (ai_sorted _ _ _ _ _ Hai) Hin).
      cbn [fst snd] in Hhead.
      destruct (ai_entry _ _ _ _ _ Hai fy dy y) as (dy0 & _ & _ & _ & _ & Hfy).
      { by rewrite Hq. }
      pose proof (Hadm y post Hpp ltac:(by rewrite Hl')) as Hh. lia. }
  apply bind_Ret in H as (dx & Hdx & H). apply get_item_Ret in Hdx.
  assert (Hsorted1 : queue_sorted queue').
  { pose proof (ai_sorted _ _ _ _ _ Hai) as Hs. rewrite Hq in Hs. apply Hs. }
  assert (Hentry1 : forall f0 d0 x0, (f0, d0, x0) ∈ queue' ->
            exists dx0, dist_table st !! x0 = Some dx0 /\ dx0 <> -1 /\ dx0 <= d0 /\
                        d0 <= f0 /\ f0 <= d0 + heuristic dist table x0).
  { intros f0 d0 x0 Hin. apply (ai_entry _ _ _ _ _ Hai). rewrite Hq.
    by apply elem_of_cons; right. }
  destruct (negb (dx =? d)) eqn:Hstale.
  { apply negb_true_iff, Z.eqb_neq in Hstale.
    apply (IH _ st' Hinv1); [|done]. split; cbn [dist_table connection queue].
    - done.
    - done.
    - intros z dz Hz Hne.
      destruct (ai_open _ _ _ _ _ Hai z dz Hz Hne) as [[]|[(f0 & Hf0)|Hcl]].
      + right; left. rewrite Hq in Hf0. apply elem_of_cons in Hf0 as [[= -> -> ->]|Hf0].
        * congruence.
        * by exists f0.
      + right; right. exact Hcl.
    - apply Hai. }
  apply negb_false_iff, Z.eqb_eq in Hstale. subst d.
  apply bind_Ret in H as (ys & Hys & H). apply get_item_Ret in Hys.
  apply bind_Ret in H as (st2 & Hall & H).
  destruct (inv_queue _ _ _ Hinv f dx x) as [_ Hd].
  { rewrite Hq. by apply elem_of_cons; left. }
  assert (Hai1 : astar_inv dist graph table (fun z => z = x)
            (SearchState (dist_table st) (connection st) queue')).
  { split; cbn [dist_table connection queue].
    - done.
    - done.
    - intros z dz Hz Hne.
      destruct (ai_open _ _ _ _ _ Hai z dz Hz Hne) as [[]|[(f0 & Hf0)|Hcl]].
      + rewrite Hq in Hf0. apply elem_of_cons in Hf0 as [[= -> -> ->]|Hf0].
        * by left.
        * right; left. by exists f0.
      + right; right. exact Hcl.
    - apply Hai. }
  destruct (relax_all_astar (fun z => z = x) x dx ys ltac:(intros y ?; by exists ys) Hd
              _ st2 Hinv1 Hai1 Hdx Hall) as (Hinv2 & Hai2 & Hx2 & _ & Hys2).
  apply (IH st2 st' Hinv2); [|done]. split.
  - apply Hai2.
  - apply Hai2.
  - intros z dz Hz Hne.
    destruct (ai_open _ _ _ _ _ Hai2 z dz Hz Hne) as [->|[Hopen|Hcl]].
    + right; right. assert (dz = dx) as -> by congruence.
      intros y (adj & Hadj & Hy). assert (adj = ys) as -> by congruence.
      by apply Hys2.
    + right; by left.
    + right; by right.
  - apply Hai2.
Qed.

Lemma initial_state_astar (st0 : search_state) :
  initial_state table = Ret st0 ->
  astar_inv dist graph table (fun _ => False) st0.
Proof.
  unfold initial_state. intros H.
  apply bind_Ret in H as (dt & Hdt & H). apply set_item_Ret in Hdt as [Hlt ->].
  injection H as <-. split; cbn [dist_table connection queue].
  - split; [|done]. intros e He. by apply elem_of_nil in He.
  - intros f d x Hin. apply list_elem_of_singleton in Hin as [= -> -> ->].
    exists 0. rewrite list_lookup_insert_eq by done.
    pose proof (dist_nonneg (node_point table 1) (node_point table 0)).
    unfold heuristic. split; [done|]. lia.
  - intros z dz Hz Hne. destruct (decide (z = 0%nat)) as [->|Hz0].
    + rewrite list_lookup_insert_eq in Hz by done. injection Hz as <-.
      right; left. exists 0. by apply list_elem_of_singleton.
    + rewrite list_lookup_insert_ne in Hz by done.
      apply lookup_replicate in Hz as [-> _]. done.
  - intros y x Hc. by apply lookup_replicate in Hc as [? _].
Qed.

(** The walk back from a node with a cost follows a path of the graph from
    the start whose cost is at most the cost of the node. *)
Lemma walk_path (st : search_state) (rest : list nat) :
  search_result dist graph table st ->
  forall x dx, walk (connection st) x rest -> dist_table st !! x = Some dx ->
    exists path, reverse (x :: rest) = 0%nat :: path /\
      is_path graph 0 path /\ list.last (0%nat :: path) = Some x /\
      path_cost dist table 0 path <= dx.
Proof.
  intros (Hinv & Hconn & _). induction rest as [|x1 rest IH]; intros x dx Hw Hx.
  - cbn in Hw. subst x. exists []. cbn. split; [done|]. split; [done|].
    split; [done|]. pose proof (inv_zero _ _ _ Hinv). assert (dx = 0) by congruence. lia.
  - destruct Hw as (Hx0 & Hc & Hw).
    destruct (Hconn _ _ Hc) as (d1 & dx' & Hd1 & Hdx' & Hne1 & Hle).
    assert (dx' = dx) as -> by congruence.
    destruct (IH x1 d1 Hw Hd1) as (path & Hrev & Hp & Hl & Hcost).
    destruct (inv_conn _ _ _ Hinv _ _ Hc) as (He & _).
    exists (path ++ [x]). split; [|split; [|split]].
    + rewrite reverse_cons, Hrev. done.
    + by eapply is_path_snoc.
    + apply last_snoc_cons.
    + rewrite (path_cost_snoc dist table path 0%nat x1 x Hl). lia.
Qed.

End Astar.


Lemma find_route_inversion (dist : Point -> Point -> Z) (fuel : nat)
    (start end_ : Point) (buildings : list Polygon) (table : list Point)
    (route : list nat) :
  find_route dist fuel start end_ buildings = Ret (table, route) ->
  exists graph st0 st rest,
    build_graph (considered start end_ buildings) = Ret (table, graph) /\
    table = concat (considered start end_ buildings) /\
    graph_ok (considered start end_ buildings) (considered start end_ buildings) graph /\
    initial_state table = Ret st0 /\
    search dist fuel graph table st0 = Ret st /\
    walk (connection st) 1%nat rest /\
    route = reverse (1%nat :: rest).
Proof.
  unfold find_route. intros H.
  destruct (build_graph_spec (considered start end_ buildings)) as (graph & Hb & Hok).
  rewrite Hb in H. cbn [mbind outcome_bind] in H.
  apply bind_Ret in H as (st0 & Hinit & H).
  apply bind_Ret in H as (st & Hs & H).
  apply bind_Ret in H as (r & Hr & H).
  injection H as <- <-.
  destruct (backtrack_spec _ _ _ _ _ Hr) as (rest & -> & Hw).
  exists graph, st0, st, rest. done.
Qed.

Section FindRoute.

Variable dist : Point -> Point -> Z.
Hypothesis dist_nonneg : forall a b, 0 <= dist a b.

(** What one call finds: a path of its graph from node 0 to node 1, whose
    cost is at most the final cost of the goal. *)
Lemma find_route_result (fuel : nat) (start end_ : Point) (buildings : list Polygon)
    (table : list Point) (route : list nat) :
  find_route dist fuel start end_ buildings = Ret (table, route) ->
  exists graph st path d1,
    build_graph (considered start end_ buildings) = Ret (table, graph) /\
    table = concat (considered start end_ buildings) /\
    search_result dist graph table st /\
    route = 0%nat :: path /\ is_path graph 0 path /\
    list.last route = Some 1%nat /\
    dist_table st !! 1%nat = Some d1 /\ path_cost dist table 0 path <= d1.
Proof.
  intros H.
  apply find_route_inversion in H
    as (graph & st0 & st & rest & Hb & Ht & Hok & Hinit & Hs & Hw & ->).
  pose proof (graph_ok_wf _ _ Hok) as Hwf. rewrite <- Ht in Hwf.
  assert (Hlen : (2 <= length table)%nat) by (subst table; simpl; lia).
  destruct (initial_state_inv graph table Hlen) as (st0' & Hinit' & Hinv0).
  assert (st0' = st0) as -> by congruence.
  pose proof (initial_state_astar dist dist_nonneg graph table Hlen st0 Hinit) as Hai0.
  pose proof (search_astar dist dist_nonneg graph table Hwf Hlen fuel st0 st
                Hinv0 Hai0 Hs) as Hres.
  destruct (lookup_lt_is_Some_2 (dist_table st) 1%nat) as [d1 Hd1].
  { destruct Hres as (Hinv & _). rewrite (inv_len_dist _ _ _ Hinv). lia. }
  destruct (walk_path dist graph table Hlen st rest Hres 1%nat d1 Hw Hd1)
    as (path & Hrev & Hp & Hl & Hcost).
  exists graph, st, path, d1. rewrite Hrev. done.
Qed.

End FindRoute.


(** X9: the [TypeError] of the walk back is raised exactly when the
    visibility graph of the call has no path from node 0 to node 1. *)
Theorem find_route_type_error (dist : Point -> Point -> Z) (start end_ : Point)
    (buildings : list Polygon) :
  (forall a b, 0 <= dist a b) ->
  exists graph,
    build_graph (considered start end_ buildings)
      = Ret (concat (considered start end_ buildings), graph) /\
    ((exists fuel, find_route dist fuel start end_ buildings = Raise TypeError) <->
     ~ exists path, is_path graph 0 path /\ list.last (0%nat :: path) = Some 1%nat).
Proof.
  intros Hnn.
  destruct (build_graph_spec (considered start end_ buildings)) as (graph & Hb & Hok).
  exists graph. split; [done|].
  pose proof (graph_ok_wf _ _ Hok) as Hwf.
  assert (Hlen : (2 <= length (concat (considered start end_ buildings)))%nat)
    by (simpl; lia).
  revert Hb Hwf Hlen. generalize (concat (considered start end_ buildings)) as table.
  intros table Hb Hwf Hlen.
  destruct (initial_state_inv graph table Hlen) as (st0 & Hinit & Hinv0).
  pose proof (initial_state_astar dist Hnn graph table Hlen st0 Hinit) as Hai0.
  destruct (search_total dist Hnn graph table Hwf Hlen _ _ _ st0
              eq_refl eq_refl eq_refl Hinv0) as (fuel1 & st & Hs1 & Hinv).
  pose proof (search_astar dist Hnn graph table Hwf Hlen fuel1 st0 st Hinv0 Hai0 Hs1)
    as Hres.
  split.
  - intros (fuel & Hf) (path & Hp & Hl).
    unfold find_route in Hf. rewrite Hb in Hf. cbn [mbind outcome_bind] in Hf.
    rewrite Hinit in Hf. cbn [mbind outcome_bind] in Hf.
    destruct (search dist fuel graph table st0) as [st'|e|] eqn:Hs;
      cbn [mbind outcome_bind] in Hf; [| |done].
    2:{ pose proof (search_fuel_le dist fuel (fuel `max` fuel1)%nat graph table st0 _
                      Hs ltac:(done) ltac:(lia)) as E1.
        pose proof (search_fuel_le dist fuel1 (fuel `max` fuel1)%nat graph table st0 _
                      Hs1 ltac:(done) ltac:(lia)) as E2.
        congruence. }
    assert (st' = st) as ->.
    { pose proof (search_fuel_le dist fuel (fuel `max` fuel1)%nat graph table st0 _
                    Hs ltac:(done) ltac:(lia)) as E1.
      pose proof (search_fuel_le dist fuel1 (fuel `max` fuel1)%nat graph table st0 _
                    Hs1 ltac:(done) ltac:(lia)) as E2.
      congruence. }
    destruct (backtrack fuel (connection st) 1 [1%nat]) as [r|e|] eqn:Hbt;
      cbn [mbind outcome_bind] in Hf; [done| |done].
    injection Hf as ->.
    destruct Hres as (_ & _ & Hopt).
    destruct (Hopt path Hp Hl) as (d1 & Hd1 & Hne1 & _).
    assert (Hr : reach0 (connection st) 1%nat).
    { eapply inv_reach; [done|done|].
      destruct (inv_dist _ _ _ Hinv _ _ Hd1); [done|lia]. }
    destruct (backtrack_reach _ _ Hr [1%nat]) as (fuel2 & r & Hbt2).
    pose proof (backtrack_fuel_le fuel (fuel `max` fuel2)%nat _ _ _ _
                  Hbt ltac:(done) ltac:(lia)) as E1.
    pose proof (backtrack_fuel_le fuel2 (fuel `max` fuel2)%nat _ _ _ _
                  Hbt2 ltac:(done) ltac:(lia)) as E2.
    congruence.
  - intros Hno.
    destruct (find_route_total dist Hnn start end_ buildings)
      as (fuel & [Hf | (table' & route & Hf & _)]); [by exists fuel|].
    destruct (find_route_result dist Hnn fuel start end_ buildings table' route Hf)
      as (graph' & st' & path & d1 & Hb' & Ht' & _ & -> & Hp & Hl & _).
    destruct Hno. exists path.
    assert (graph' = graph) as <-.
    { destruct (build_graph_spec (considered start end_ buildings)) as (g & Hg & _).
      congruence. }
    done.
Qed.

(** ** A clear straight line *)

Section Line.

Variable dist : Point -> Point -> Z.
Hypothesis dist_nonneg : forall a b, 0 <= dist a b.
Hypothesis dist_refl : forall a, dist a a = 0.
Hypothesis dist_triangle : forall a b c, dist a c <= dist a b + dist b c.
Variable graph : list (list nat).
Variable table : list Point.
Hypothesis Hwf : graph_wf graph (length table).
Hypothesis Htable : (2 <= length table)%nat.







End Line.

Section ClearLine.

Variable dist : Point -> Point -> Z.
Hypothesis dist_nonneg : forall a b, 0 <= dist a b.
Hypothesis dist_refl : forall a, dist a a = 0.
Hypothesis dist_triangle : forall a b c, dist a c <= dist a b + dist b c.


End ClearLine.


Lemma find_route_type_error_witness :
  exists graph,
    build_graph (considered (0, 0) (10, 0) [inner_square; diamond])
      = Ret (concat (considered (0, 0) (10, 0) [inner_square; diamond]), graph) /\
    ~ exists path, is_path graph 0 path /\ list.last (0%nat :: path) = Some 1%nat.
Proof.
  destruct (find_route_type_error hypot_fix (0, 0) (10, 0) [inner_square; diamond]
              hypot_fix_nonneg) as (graph & Hb & Hiff).
  exists graph. split; [exact Hb|]. apply Hiff. exists 10%nat. vm_compute. reflexivity.
Defined.



(** ** The event handling of [main] *)

Section EditorProps.

Import Editor.

Variable dist : Point -> Point -> Z.
Variable POINT_SELECT_RADIUS : Z.
Variable min_dist0 : Z.

Lemma scan_points_valid (bs : list Polygon) (pos : Point) (i : nat) (polygon : Polygon) :
  bs !! i = Some polygon ->
  forall points j min_dist sel,
    (j + length points <= length polygon)%nat ->
    (sel = None \/ exists i' j' polygon', sel = Some [i'; j'] /\
        bs !! i' = Some polygon' /\ (j' < length polygon')%nat) ->
    let r := scan_points dist POINT_SELECT_RADIUS pos i points j min_dist sel in
    r.2 = None \/ exists i' j' polygon', r.2 = Some [i'; j'] /\
        bs !! i' = Some polygon' /\ (j' < length polygon')%nat.
Proof.
  intros Hi. induction points as [|point points IH]; intros j min_dist sel Hlen Hsel.
  - exact Hsel.
  - cbn [scan_points length] in *.
    destruct ((dist point pos <? POINT_SELECT_RADIUS) && (dist point pos <? min_dist)).
    + apply IH; [lia|]. right. exists i, j, polygon. split; [done|]. split; [done|]. lia.
    + apply IH; [lia|done].
Qed.

Lemma scan_buildings_valid (bs : list Polygon) (pos : Point) :
  forall rest i min_dist sel,
    (forall k polygon, rest !! k = Some polygon -> bs !! (i + k)%nat = Some polygon) ->
    (sel = None \/ exists i' j' polygon', sel = Some [i'; j'] /\
        bs !! i' = Some polygon' /\ (j' < length polygon')%nat) ->
    let r := scan_buildings dist POINT_SELECT_RADIUS pos rest i min_dist sel in
    r = None \/ exists i' j' polygon', r = Some [i'; j'] /\
        bs !! i' = Some polygon' /\ (j' < length polygon')%nat.
Proof.
  induction rest as [|polygon rest IH]; intros i min_dist sel Hrest Hsel.
  - exact Hsel.
  - cbn [scan_buildings]. apply IH.
    + intros k P Hk. replace (S i + k)%nat with (i + S k)%nat by lia. by apply Hrest.
    + apply (scan_points_valid bs pos i polygon); [|simpl; lia|done].
      rewrite <- (Nat.add_0_r i). by apply Hrest.
Qed.

Lemma find_polygon_valid (n : nat) (pos : Point) :
  forall rest i sel,
    (i + length rest = n)%nat ->
    (sel = None \/ exists i', sel = Some [i'] /\ (i' < n)%nat) ->
    find_polygon pos rest i sel = None \/
    exists i', find_polygon pos rest i sel = Some [i'] /\ (i' < n)%nat.
Proof.
  induction rest as [|polygon rest IH]; intros i sel Hlen Hsel.
  - exact Hsel.
  - cbn [find_polygon length] in *. apply IH; [lia|].
    destruct (is_in_polygon polygon pos); [|done].
    right. exists i. split; [done|lia].
Qed.

Lemma subscript_0 (i : nat) (t : list nat) : subscript (Some (i :: t)) 0 = Ret i.
Proof. reflexivity. Qed.

Lemma subscript_1 (i j : nat) (t : list nat) : subscript (Some (i :: j :: t)) 1 = Ret j.
Proof. reflexivity. Qed.

Lemma length_snoc_ge {A : Type} (l : list A) (x : A) (n : nat) :
  (n <= length l)%nat -> (n <= length (l ++ [x]))%nat.
Proof. rewrite length_app. simpl. lia. Qed.

Lemma length_snoc_gt {A : Type} (l : list A) (x : A) (n : nat) :
  (n <= length l)%nat -> (n < length (l ++ [x]))%nat.
Proof. rewrite length_app. simpl. lia. Qed.

Lemma last_is_Some_3 (polygon : Polygon) :
  (3 <= length polygon)%nat -> exists p, list.last polygon = Some p.
Proof.
  intros H. destruct (list.last polygon) as [p|] eqn:E; [by exists p|].
  apply last_None in E. subst. simpl in H. lia.
Qed.

Lemma handle_event_well_formed (pos : Point) (st : state) (ev : event) :
  well_formed st ->
  exists r, handle_event dist POINT_SELECT_RADIUS min_dist0 pos st ev = Ret r /\
            forall st', r = Some st' -> well_formed st'.
Proof.
  intros [Hall Hsel]. destruct ev as [|[]|[]| | |].
  - eexists. split; [done|]. discriminate.
  - eexists. split; [done|]. intros st' [= <-]. by split.
  - eexists. split; [done|]. intros st' [= <-]. by split.
  - eexists. split; [done|]. intros st' [= <-]. by split.
  - eexists. split; [done|]. intros st' [= <-]. by split.
  - (* left button *)
    cbn [handle_event].
    pose proof (scan_buildings_valid (buildings st) pos (buildings st) 0 min_dist0 None
                  ltac:(by intros k P Hk) ltac:(by left)) as Hv. cbn zeta in Hv.
    destruct (scan_buildings dist POINT_SELECT_RADIUS pos (buildings st) 0 min_dist0 None)
      as [t|] eqn:Escan.
    + eexists. split; [done|]. intros st' [= <-]. split; [done|].
      right; left. split; [done|]. destruct Hv as [?|Hv]; [done|]. exact Hv.
    + eexists. split; [done|]. intros st' [= <-]. split; [done|].
      right; right; left. split; [done|]. cbn [selected buildings].
      apply (find_polygon_valid (length (buildings st))); [done|by left].
  - (* right button *)
    cbn [handle_event].
    pose proof (find_polygon_valid (length (buildings st)) pos (buildings st) 0 None
                  ltac:(done) ltac:(by left)) as Hv.
    destruct (find_polygon pos (buildings st) 0 None) as [t|] eqn:Efind.
    + eexists. split; [done|]. intros st' [= <-]. split; [done|].
      right; right; right. split; [done|]. destruct Hv as [?|Hv]; [done|]. exact Hv.
    + eexists. split; [done|]. intros st' [= <-]. split; [done|]. by left.
  - eexists. split; [done|]. intros st' [= <-]. by split.
  - (* button up *)
    cbn [handle_event].
    assert (exists bs, button_up pos st = Ret bs /\
              Forall (fun polygon => (3 <= length polygon)%nat) bs) as (bs & -> & Hbs).
    { unfold button_up.
      destruct Hsel as [Hm | [[Hm _] | [[Hm Hs] | [Hm (i & Hs & Hi)]]]]; rewrite Hm.
      - rewrite !decide_False by done. by eexists.
      - rewrite decide_True by done. by eexists.
      - rewrite decide_False by done. rewrite decide_True by done.
        destruct Hs as [-> | (i & Hs & Hi)].
        + eexists. split; [done|]. apply Forall_app. split; [done|].
          constructor; [|constructor]. destruct pos. simpl. lia.
        + rewrite Hs, subscript_0. cbn [mbind outcome_bind].
          destruct (lookup_lt_is_Some_2 _ _ Hi) as [polygon Hp].
          pose proof (proj1 (list.Forall_lookup _ _) Hall i polygon Hp) as H3.
          cbn beta in H3.
          rewrite (proj2 (get_item_Ret _ _ _) Hp). cbn [mbind outcome_bind].
          destruct polygon as [|p0 polygon]; [simpl in H3; lia|].
          change (get_item (p0 :: polygon) 0%nat) with (Ret p0).
          cbn [mbind outcome_bind].
          destruct (last_is_Some_3 (p0 :: polygon) H3) as [pl Hpl].
          match goal with |- context [from_option _ _ ?t] =>
            change t with (list.last (p0 :: polygon)) end.
          rewrite Hpl.
          cbn [from_option mbind outcome_bind].
          unfold set_item. rewrite decide_True by done.
          eexists. split; [done|]. apply Forall_insert; [done|].
          by apply length_snoc_ge.
      - rewrite !decide_False by done. rewrite decide_True by done.
        rewrite Hs, subscript_0. cbn [mbind outcome_bind].
        destruct (lookup_lt_is_Some_2 _ _ Hi) as [polygon Hp].
        pose proof (proj1 (list.Forall_lookup _ _) Hall i polygon Hp) as H3.
        cbn beta in H3.
        rewrite (proj2 (get_item_Ret _ _ _) Hp). cbn [mbind outcome_bind].
        destruct (3 <? length polygon)%nat eqn:E3.
        + apply Nat.ltb_lt in E3. unfold set_item. rewrite decide_True by done.
          eexists. split; [done|]. apply Forall_insert; [done|].
          destruct polygon as [|p polygon] using rev_ind; [simpl in E3; lia|].
          rewrite removelast_last. rewrite length_app in E3. simpl in E3. lia.
        + eexists. split; [done|]. by apply Forall_delete. }
    cbn [mbind outcome_bind]. eexists. split; [done|]. intros st' [= <-].
    split; [done|]. by left.
  - (* motion *)
    cbn [handle_event].
    assert (Hleave : forall i, selected st = Some [i] -> (i < length (buildings st))%nat ->
              exists st', leave_polygon pos st = Ret st' /\
                (st' = st \/
                 st' = State (buildings st) (start_point st) (end_point st) None None
                             (DRAW_GRAPH st))).
    { intros i Hs Hi. unfold leave_polygon. rewrite Hs, subscript_0.
      cbn [mbind outcome_bind].
      destruct (lookup_lt_is_Some_2 _ _ Hi) as [polygon Hp].
      rewrite (proj2 (get_item_Ret _ _ _) Hp). cbn [mbind outcome_bind].
      destruct (negb (is_in_polygon polygon pos)); eexists; (split; [done|]);
        [by right|by left]. }
    destruct Hsel as [Hm | [[Hm Hs] | [[Hm Hs] | [Hm (i & Hs & Hi)]]]]; rewrite ?Hm.
    + rewrite !decide_False by done. eexists. split; [done|].
      intros st' [= <-]. split; [done|]. by left.
    + destruct Hs as (i & j & polygon & Hs & Hp & Hj).
      rewrite decide_True by done. rewrite Hs, subscript_0.
      cbn [mbind outcome_bind].
      rewrite (proj2 (get_item_Ret _ _ _) Hp). cbn [mbind outcome_bind].
      rewrite subscript_1. cbn [mbind outcome_bind].
      unfold set_item. rewrite decide_True by done. cbn [mbind outcome_bind].
      assert (Hi : (i < length (buildings st))%nat) by by eapply lookup_lt_Some.
      rewrite decide_True by done. cbn [mbind outcome_bind].
      eexists. split; [done|]. intros st' [= <-]. split; cbn [buildings mode selected].
      * apply Forall_insert; [done|]. rewrite length_insert.
        apply (proj1 (list.Forall_lookup _ _) Hall i polygon Hp).
      * right; left. split; [done|]. exists i, j, (<[j:=pos]> polygon).
        split; [done|]. rewrite list_lookup_insert_eq by done.
        split; [done|]. by rewrite length_insert.
    + rewrite decide_False by done. rewrite decide_True by done.
      destruct Hs as [Hs | (i & Hs & Hi)].
      * rewrite Hs. eexists. split; [done|]. intros st' [= <-]. split; [done|].
        right; right; left. split; [done|]. by left.
      * destruct (Hleave i Hs Hi) as (st1 & Hl & Hst1). rewrite Hs, Hl.
        cbn [mbind outcome_bind]. eexists. split; [done|]. intros st' [= <-].
        destruct Hst1 as [-> | ->].
        -- split; [done|]. right; right; left. split; [done|]. right. by exists i.
        -- split; [done|]. by left.
    + rewrite !decide_False by done. rewrite decide_True by done.
      destruct (Hleave i Hs Hi) as (st1 & Hl & Hst1). rewrite Hl.
      cbn [mbind outcome_bind]. eexists. split; [done|]. intros st' [= <-].
      destruct Hst1 as [-> | ->].
      * split; [done|]. right; right; right. split; [done|]. by exists i.
      * split; [done|]. by left.
  - eexists. split; [done|]. intros st' [= <-]. by split.
Qed.

Lemma handle_events_well_formed (evs : list (Point * event)) :
  forall st, well_formed st ->
    exists r, handle_events dist POINT_SELECT_RADIUS min_dist0 st evs = Ret r /\
              forall st', r = Some st' -> well_formed st'.
Proof.
  induction evs as [|[pos ev] evs IH]; intros st Hwf.
  - eexists. split; [done|]. by intros st' [= <-].
  - cbn [handle_events].
    destruct (handle_event_well_formed pos st ev Hwf) as (r & -> & Hr).
    cbn [mbind outcome_bind]. destruct r as [st1|].
    + by apply IH, Hr.
    + eexists. split; [done|]. discriminate.
Qed.

(** X13: from the initial state of [main], whatever the events and the
    mouse positions, the event handling raises no exception, and in every
    state it reaches each building has at least three vertices and the
    selection fits the mode. *)
Theorem editor_never_raises (evs : list (Point * event)) :
  exists r, handle_events dist POINT_SELECT_RADIUS min_dist0 initial evs = Ret r /\
            forall st, r = Some st -> well_formed st.
Proof.
  apply handle_events_well_formed. split; [constructor|]. by left.
Qed.

(** X14: pressing and releasing the left button at a position that is near
    no vertex and inside no building appends the square around that
    position to the buildings, leaves the other buildings and the end points
    as they are and resets mode and selection; a later click at the same
    position (when its first coordinate plus 10 is below 10^9) finds it
    inside the new square. *)
Theorem click_adds_square (pos : Point) (st : state) :
  scan_buildings dist POINT_SELECT_RADIUS pos (buildings st) 0 min_dist0 None = None ->
  find_polygon pos (buildings st) 0 None = None ->
  handle_events dist POINT_SELECT_RADIUS min_dist0 st
    [(pos, MOUSEBUTTONDOWN BUTTON_LEFT); (pos, MOUSEBUTTONUP)]
  = Ret (Some (State (buildings st ++ [new_square pos]) (start_point st) (end_point st)
                     None None (DRAW_GRAPH st))) /\
  (pos.1 + 10 < 10 ^ 9 -> is_in_polygon (new_square pos) pos = true).
Proof.
  intros Hscan Hfind. split.
  - cbn [handle_events handle_event]. rewrite Hscan, Hfind.
    cbn [mbind outcome_bind]. unfold button_up.
    cbn [mode selected buildings start_point end_point DRAW_GRAPH].
    rewrite decide_False by done. rewrite decide_True by done. done.
  - destruct pos as [x y]. cbn [fst]. change (10 ^ 9) with 1000000000.
    intros Hfar. apply is_in_new_square; lia.
Qed.

(** X21: adding a vertex and deleting it again restores the buildings.  A
    left click inside a building with at least three vertices, near no
    vertex, appends the midpoint of its first and last vertex; a right click
    that selects the same building then removes that vertex again. *)
Theorem add_then_delete_vertex (pos1 pos2 : Point) (st : state) (i : nat)
    (polygon : Polygon) :
  scan_buildings dist POINT_SELECT_RADIUS pos1 (buildings st) 0 min_dist0 None = None ->
  find_polygon pos1 (buildings st) 0 None = Some [i] ->
  buildings st !! i = Some polygon ->
  (3 <= length polygon)%nat ->
  exists first last st1,
    head polygon = Some first /\ list.last polygon = Some last /\
    handle_events dist POINT_SELECT_RADIUS min_dist0 st
      [(pos1, MOUSEBUTTONDOWN BUTTON_LEFT); (pos1, MOUSEBUTTONUP)] = Ret (Some st1) /\
    st1 = State (<[i := polygon ++ [((first.1 + last.1) / 2, (first.2 + last.2) / 2)]]>
                   (buildings st))
                (start_point st) (end_point st) None None (DRAW_GRAPH st) /\
    (find_polygon pos2 (buildings st1) 0 None = Some [i] ->
     handle_events dist POINT_SELECT_RADIUS min_dist0 st1
       [(pos2, MOUSEBUTTONDOWN BUTTON_RIGHT); (pos2, MOUSEBUTTONUP)]
     = Ret (Some (State (buildings st) (start_point st) (end_point st) None None
                        (DRAW_GRAPH st)))).
Proof.
  intros Hscan Hfind Hi Hlen.
  destruct polygon as [|first rest] eqn:Epoly; [simpl in Hlen; lia|].
  destruct (last_is_Some_3 (first :: rest) Hlen) as [last Hlast].
  assert (Hilt : (i < length (buildings st))%nat) by by eapply lookup_lt_Some.
  exists first, last. eexists. split; [done|]. split; [exact Hlast|].
  split.
  - cbn [handle_events handle_event]. rewrite Hscan, Hfind.
    cbn [mbind outcome_bind]. unfold button_up.
    cbn [mode selected buildings start_point end_point DRAW_GRAPH].
    rewrite decide_False by done. rewrite decide_True by done.
    rewrite subscript_0. cbn [mbind outcome_bind].
    rewrite (proj2 (get_item_Ret _ _ _) Hi). cbn [mbind outcome_bind].
    change (get_item (first :: rest) 0) with (Ret (A:=Point) first).
    cbn [mbind outcome_bind].
    match goal with |- context [from_option _ _ ?t] =>
      change t with (list.last (first :: rest)) end.
    rewrite Hlast. cbn [from_option mbind outcome_bind].
    unfold set_item. rewrite decide_True by done. reflexivity.
  - split; [reflexivity|]. cbn [buildings]. intros Hfind2.
    cbn [handle_events handle_event]. cbn [buildings]. rewrite Hfind2.
    cbn [mbind outcome_bind]. unfold button_up.
    cbn [mode selected buildings start_point end_point DRAW_GRAPH].
    rewrite decide_False by done. rewrite decide_False by done.
    rewrite decide_True by done.
    rewrite subscript_0. cbn [mbind outcome_bind].
    rewrite (proj2 (get_item_Ret _ _ _) (list_lookup_insert_eq _ _ _ Hilt)).
    cbn [mbind outcome_bind].
    match goal with |- context [(3 <? ?n)%nat] =>
      assert (Hgt : (3 <? n)%nat = true)
        by (apply Nat.ltb_lt, length_snoc_gt, Hlen);
      rewrite Hgt
    end.
    rewrite removelast_last.
    unfold set_item. rewrite decide_True by (by rewrite length_insert).
    rewrite list_insert_insert_eq, list_insert_id by done. reflexivity.
Qed.

End EditorProps.

Lemma click_adds_square_witness :
  Editor.handle_events hypot_fix radius_fix far_fix Editor.initial
    [((300, 300), Editor.MOUSEBUTTONDOWN Editor.BUTTON_LEFT);
     ((300, 300), Editor.MOUSEBUTTONUP)]
  = Ret (Some (Editor.State [new_square (300, 300)] (0, 0) (600, 600) None None false)) /\
  is_in_polygon (new_square (300, 300)) (300, 300) = true.
Proof.
  destruct (click_adds_square hypot_fix radius_fix far_fix (300, 300) Editor.initial
              eq_refl eq_refl) as [H1 H2].
  split; [exact H1 | apply H2; reflexivity].
Defined.

Lemma add_then_delete_vertex_witness :
  Editor.handle_events hypot_fix radius_fix far_fix one_square
    [((300, 300), Editor.MOUSEBUTTONDOWN Editor.BUTTON_LEFT);
     ((300, 300), Editor.MOUSEBUTTONUP);
     ((300, 300), Editor.MOUSEBUTTONDOWN Editor.BUTTON_RIGHT);
     ((300, 300), Editor.MOUSEBUTTONUP)] = Ret (Some one_square).
Proof.
  destruct (add_then_delete_vertex hypot_fix radius_fix far_fix (300, 300) (300, 300)
              one_square 0 (new_square (300, 300)) eq_refl eq_refl eq_refl
              ltac:(vm_compute; lia))
    as (first & last & st1 & Hf & Hl & H1 & Hst & H2).
  injection Hf as <-. injection Hl as <-. subst st1.
  specialize (H2 eq_refl).
  change (Editor.handle_events hypot_fix radius_fix far_fix one_square
            ([((300, 300), Editor.MOUSEBUTTONDOWN Editor.BUTTON_LEFT);
              ((300, 300), Editor.MOUSEBUTTONUP)] ++
             [((300, 300), Editor.MOUSEBUTTONDOWN Editor.BUTTON_RIGHT);
              ((300, 300), Editor.MOUSEBUTTONUP)]) = Ret (Some one_square)).
  exact H2.
Defined.

(** ** Which vertex and which building a click selects *)

Section Selection.

Import Editor.

Variable dist : Point -> Point -> Z.
Variable POINT_SELECT_RADIUS : Z.

Lemma scan_points_spec (pos : Point) (i : nat) :
  forall points j min_dist sel,
    let r := scan_points dist POINT_SELECT_RADIUS pos i points j min_dist sel in
    (forall k q, points !! k = Some q -> dist q pos < POINT_SELECT_RADIUS ->
                 r.1 <= dist q pos) /\
    ((r = (min_dist, sel) /\
      forall k q, points !! k = Some q ->
                  ~ selectable dist POINT_SELECT_RADIUS min_dist pos q) \/
     (exists k q, points !! k = Some q /\ r.2 = Some [i; (j + k)%nat] /\
                  r.1 = dist q pos /\
                  selectable dist POINT_SELECT_RADIUS min_dist pos q)).
Proof.
  induction points as [|point points IH]; intros j min_dist sel.
  - cbn. split; [by intros k q H|]. left. split; [done|]. by intros k q H.
  - cbn [scan_points].
    destruct (Z.ltb_spec (dist point pos) POINT_SELECT_RADIUS) as [Hr|Hr];
      [destruct (Z.ltb_spec (dist point pos) min_dist) as [Hm|Hm]|]; cbn [andb].
    + destruct (IH (S j) (dist point pos) (Some [i; j])) as [Hmin Hcase].
      cbn zeta in *.
      set (r := scan_points dist POINT_SELECT_RADIUS pos i points (S j)
                  (dist point pos) (Some [i; j])) in *.
      assert (Hle : r.1 <= dist point pos).
      { destruct Hcase as [[-> _]|(k & q & _ & _ & -> & H)]; [done|].
        destruct H. lia. }
      split.
      { intros [|k] q Hk Hq; [by injection Hk as <-|]. by eapply Hmin. }
      right. destruct Hcase as [[Hr' Hnone]|(k & q & Hk & Hsel & Hd & Hq)].
      * exists 0%nat, point. rewrite Hr'. cbn. rewrite Nat.add_0_r. done.
      * exists (S k), q. split; [done|]. split.
        { rewrite Hsel. do 3 f_equal. lia. }
        split; [done|]. destruct Hq. split; lia.
    + destruct (IH (S j) min_dist sel) as [Hmin Hcase]. cbn zeta in *.
      set (r := scan_points dist POINT_SELECT_RADIUS pos i points (S j) min_dist sel)
        in *.
      assert (Hle : r.1 <= min_dist).
      { destruct Hcase as [[-> _]|(k & q & _ & _ & -> & H)]; [done|].
        destruct H. lia. }
      split.
      { intros [|k] q Hk Hq; [injection Hk as <-; lia|]. by eapply Hmin. }
      destruct Hcase as [[Hr' Hnone]|(k & q & Hk & Hsel & Hd & Hq)].
      * left. split; [done|]. intros [|k] q Hk.
        { injection Hk as <-. intros [_ H]. lia. }
        by eapply Hnone.
      * right. exists (S k), q. split; [done|]. split.
        { rewrite Hsel. do 3 f_equal. lia. }
        done.
    + destruct (IH (S j) min_dist sel) as [Hmin Hcase]. cbn zeta in *.
      set (r := scan_points dist POINT_SELECT_RADIUS pos i points (S j) min_dist sel)
        in *.
      split.
      { intros [|k] q Hk Hq; [injection Hk as <-; lia|]. by eapply Hmin. }
      destruct Hcase as [[Hr' Hnone]|(k & q & Hk & Hsel & Hd & Hq)].
      * left. split; [done|]. intros [|k] q Hk.
        { injection Hk as <-. intros [H _]. lia. }
        by eapply Hnone.
      * right. exists (S k), q. split; [done|]. split.
        { rewrite Hsel. do 3 f_equal. lia. }
        done.
Qed.

Lemma scan_buildings_spec (pos : Point) :
  forall bs i min_dist sel,
    let r := scan_buildings dist POINT_SELECT_RADIUS pos bs i min_dist sel in
    (r = sel /\
     forall k j q, vertex_at bs k j q ->
                   ~ selectable dist POINT_SELECT_RADIUS min_dist pos q) \/
    (exists k j q, vertex_at bs k j q /\ r = Some [(i + k)%nat; j] /\
                   selectable dist POINT_SELECT_RADIUS min_dist pos q /\
                   forall k' j' q', vertex_at bs k' j' q' ->
                     dist q' pos < POINT_SELECT_RADIUS -> dist q pos <= dist q' pos).
Proof.
  induction bs as [|polygon bs IH]; intros i min_dist sel.
  - left. split; [done|]. by intros k j q (P & HP & _).
  - cbn [scan_buildings]. cbn zeta.
    destruct (scan_points_spec pos i polygon 0 min_dist sel) as [Hmin Hcase].
    cbn zeta in *.
    set (r1 := scan_points dist POINT_SELECT_RADIUS pos i polygon 0 min_dist sel) in *.
    destruct Hcase as [[Hr1 Hnone]|(j0 & q0 & Hj0 & Hsel0 & Hd0 & Hq0)].
    + rewrite Hr1. cbn [fst snd].
      destruct (IH (S i) min_dist sel) as [[Hr Hnone']|(k & j & q & Hv & Hr & Hq & Hmin')];
        cbn zeta in *.
      * left. split; [done|]. intros [|k] j q (P & HP & Hj).
        { injection HP as <-. by eapply Hnone. }
        apply (Hnone' k j q). by exists P.
      * right. exists (S k), j, q. split.
        { destruct Hv as (P & HP & Hj). by exists P. }
        split; [rewrite Hr; do 2 f_equal; lia|]. split; [done|].
        intros [|k'] j' q' (P & HP & Hj') Hq'.
        { injection HP as <-. specialize (Hnone j' q' Hj').
          unfold selectable in *. lia. }
        apply (Hmin' k' j' q'); [by exists P|done].
    + rewrite Hsel0, Hd0.
      destruct (IH (S i) (dist q0 pos) (Some [i; (0 + j0)%nat]))
        as [[Hr Hnone']|(k & j & q & Hv & Hr & Hq & Hmin')]; cbn zeta in *.
      * right. exists 0%nat, j0, q0. split; [by exists polygon|].
        split; [rewrite Hr; by rewrite Nat.add_0_r|]. split; [done|].
        intros [|k'] j' q' (P & HP & Hj') Hq'.
        { injection HP as <-. rewrite <- Hd0. by eapply Hmin. }
        assert (Hv' : vertex_at bs k' j' q') by by exists P.
        specialize (Hnone' k' j' q' Hv'). unfold selectable in *. lia.
      * right. exists (S k), j, q. split.
        { destruct Hv as (P & HP & Hj). by exists P. }
        split; [rewrite Hr; do 2 f_equal; lia|].
        unfold selectable in *. split; [lia|].
        intros [|k'] j' q' (P & HP & Hj') Hq'.
        { injection HP as <-. specialize (Hmin j' q' Hj' Hq'). lia. }
        apply (Hmin' k' j' q'); [by exists P|done].
Qed.

(** X22: a left click selects a vertex exactly when some vertex is nearer
    to the click than the selection radius and the initial minimum, and the
    vertex it selects is then a nearest one among the vertices within the
    radius. *)
Theorem vertex_selection_nearest (pos : Point) (buildings : list Polygon) (min_dist0 : Z) :
  (scan_buildings dist POINT_SELECT_RADIUS pos buildings 0 min_dist0 None = None <->
   forall i j q, vertex_at buildings i j q ->
                 ~ selectable dist POINT_SELECT_RADIUS min_dist0 pos q) /\
  (forall sel,
     scan_buildings dist POINT_SELECT_RADIUS pos buildings 0 min_dist0 None = Some sel ->
     exists i j q, sel = [i; j] /\ vertex_at buildings i j q /\
                   selectable dist POINT_SELECT_RADIUS min_dist0 pos q /\
                   forall i' j' q', vertex_at buildings i' j' q' ->
                     dist q' pos < POINT_SELECT_RADIUS -> dist q pos <= dist q' pos).
Proof.
  destruct (scan_buildings_spec pos buildings 0 min_dist0 None)
    as [[Hr Hnone]|(k & j & q & Hv & Hr & Hq & Hmin)]; cbn zeta in *.
  - split; [by split|]. intros sel Hsel. rewrite Hr in Hsel. discriminate.
  - split.
    + split; [intros H; rewrite Hr in H; discriminate|].
      intros H. by destruct (H k j q Hv).
    + intros sel Hsel. rewrite Hr in Hsel. injection Hsel as <-.
      exists k, j, q. done.
Qed.

Lemma find_polygon_spec (pos : Point) :
  forall bs i sel,
    (find_polygon pos bs i sel = sel /\
     forall k polygon, bs !! k = Some polygon -> is_in_polygon polygon pos = false) \/
    (exists k polygon, bs !! k = Some polygon /\ is_in_polygon polygon pos = true /\
       find_polygon pos bs i sel = Some [(i + k)%nat] /\
       forall k' polygon', bs !! k' = Some polygon' -> (k < k')%nat ->
         is_in_polygon polygon' pos = false).
Proof.
  induction bs as [|polygon bs IH]; intros i sel.
  - left. split; [done|]. by intros k P H.
  - cbn [find_polygon]. destruct (is_in_polygon polygon pos) eqn:E.
    + destruct (IH (S i) (Some [i])) as [[Hr Hnone]|(k & P & HP & Hin & Hr & Hlast)].
      * right. exists 0%nat, polygon. split; [done|]. split; [done|].
        split; [by rewrite Hr, Nat.add_0_r|].
        intros [|k'] P' HP' Hlt; [lia|]. by eapply Hnone.
      * right. exists (S k), P. split; [done|]. split; [done|].
        split; [rewrite Hr; do 2 f_equal; lia|].
        intros [|k'] P' HP' Hlt; [lia|]. apply (Hlast k' P' HP'). lia.
    + destruct (IH (S i) sel) as [[Hr Hnone]|(k & P & HP & Hin & Hr & Hlast)].
      * left. split; [done|]. intros [|k] P HP; [by injection HP as <-|].
        by eapply Hnone.
      * right. exists (S k), P. split; [done|]. split; [done|].
        split; [rewrite Hr; do 2 f_equal; lia|].
        intros [|k'] P' HP' Hlt; [lia|]. apply (Hlast k' P' HP'). lia.
Qed.

(** X23: the polygon test of a click selects no building exactly when
    [is_in_polygon] rejects the position for every building; otherwise it
    selects the last building of the list that contains the position. *)
Theorem polygon_selection_last (pos : Point) (buildings : list Polygon) :
  (find_polygon pos buildings 0 None = None <->
   forall i polygon, buildings !! i = Some polygon -> is_in_polygon polygon pos = false) /\
  (forall sel, find_polygon pos buildings 0 None = Some sel ->
     exists i polygon, sel = [i] /\ buildings !! i = Some polygon /\
       is_in_polygon polygon pos = true /\
       forall i' polygon', buildings !! i' = Some polygon' -> (i < i')%nat ->
         is_in_polygon polygon' pos = false).
Proof.
  destruct (find_polygon_spec pos buildings 0 None)
    as [[Hr Hnone]|(k & P & HP & Hin & Hr & Hlast)].
  - split; [by split|]. intros sel Hsel. rewrite Hr in Hsel. discriminate.
  - split.
    + split; [intros H; rewrite Hr in H; discriminate|].
      intros H. specialize (H k P HP). rewrite Hin in H. discriminate.
    + intros sel Hsel. rewrite Hr in Hsel. injection Hsel as <-.
      exists k, P. done.
Qed.

(** X24: dragging a vertex: when the left button goes down near a vertex,
    the next mouse motion moves exactly that vertex to the mouse position,
    and releasing the button changes nothing but mode and selection; no
    exception is raised. *)
Theorem drag_vertex (pos pos' pos'' : Point) (st : state) (min_dist0 : Z) (i j : nat) :
  scan_buildings dist POINT_SELECT_RADIUS pos (buildings st) 0 min_dist0 None
    = Some [i; j] ->
  exists polygon,
    buildings st !! i = Some polygon /\ (j < length polygon)%nat /\
    handle_events dist POINT_SELECT_RADIUS min_dist0 st
      [(pos, MOUSEBUTTONDOWN BUTTON_LEFT); (pos', MOUSEMOTION); (pos'', MOUSEBUTTONUP)]
    = Ret (Some (State (<[i := <[j := pos']> polygon]> (buildings st))
                       (start_point st) (end_point st) None None (DRAW_GRAPH st))).
Proof.
  intros Hscan.
  destruct (scan_buildings_spec pos (buildings st) 0 min_dist0 None)
    as [[Hr _]|(k & j' & q & (polygon & Hi & Hj) & Hr & _)]; cbn zeta in *.
  { rewrite Hr in Hscan. discriminate. }
  rewrite Hscan in Hr. injection Hr as Hk Hj'. simpl in Hk. subst k j'.
  assert (Hjlt : (j < length polygon)%nat) by by eapply lookup_lt_Some.
  assert (Hilt : (i < length (buildings st))%nat) by by eapply lookup_lt_Some.
  exists polygon. split; [done|]. split; [done|].
  cbn [handle_events handle_event]. rewrite Hscan. cbn [mbind outcome_bind].
  cbn [mode selected buildings start_point end_point DRAW_GRAPH].
  rewrite decide_True by done. rewrite subscript_0. cbn [mbind outcome_bind].
  rewrite (proj2 (get_item_Ret _ _ _) Hi). cbn [mbind outcome_bind].
  rewrite subscript_1. cbn [mbind outcome_bind].
  unfold set_item. rewrite decide_True by done. cbn [mbind outcome_bind].
  rewrite decide_True by done. cbn [mbind outcome_bind].
  unfold button_up. cbn [mode]. rewrite decide_True by done.
  cbn [mbind outcome_bind buildings start_point end_point DRAW_GRAPH]. reflexivity.
Qed.

End Selection.

Lemma drag_vertex_witness :
  Editor.handle_events hypot_fix radius_fix far_fix one_square
    [((308, 309), Editor.MOUSEBUTTONDOWN Editor.BUTTON_LEFT);
     ((320, 320), Editor.MOUSEMOTION); ((320, 320), Editor.MOUSEBUTTONUP)]
  = Ret (Some (Editor.State [[(320, 320); (310, 290); (290, 290); (290, 310)]]
                            (0, 0) (600, 600) None None false)).
Proof.
  destruct (drag_vertex hypot_fix radius_fix (308, 309) (320, 320) (320, 320)
              one_square far_fix 0 0 eq_refl) as (polygon & Hi & _ & H).
  injection Hi as <-. exact H.
Defined.

(** ** [routing.py]: the optimizer, the safety check, the analyzer *)

Lemma foldl_snoc_map {A B : Type} (f : A -> B) (acc : list B) (l : list A) :
  foldl (fun acc a => acc ++ [f a]) acc l = acc ++ map f l.
Proof.
  revert acc. induction l as [|a l IH]; intros acc; simpl.
  - by rewrite app_nil_r.
  - by rewrite IH, <- app_assoc.
Qed.

Section OptimizerProps.

Import DroneRouteOptimizer.

Context {Id Position : Type} `{EqDecision Id}.
Variable distance_to : Position -> Position -> Q.

Lemma simple_routing_straight : straight_through (simple_routing distance_to).
Proof.
  intros start waypoints end_. cbn. unfold SimpleRouting.calculate_route.
  by rewrite foldl_append.
Qed.

Lemma astar_routing_straight {Map : Type} (this : AStarRouting.self Map) :
  straight_through (astar_routing distance_to this).
Proof.
  intros start waypoints end_. cbn. unfold AStarRouting.calculate_route.
  by rewrite foldl_append.
Qed.

Lemma optimize_delivery_route_straight (this : self Position)
    (drone : Drone Id Position) (order : Order Id Position) :
  straight_through (routing_algorithm this) ->
  optimize_delivery_route this drone order =
  match current_order drone with
  | Some current =>
      if decide (id current = id order)
      then inr [position drone; store_position order; customer_position order;
                depot_center drone]
      else inl Drone_is_not_assigned_to_this_order
  | None => inl Drone_is_not_assigned_to_this_order
  end.
Proof.
  intros Hs. unfold optimize_delivery_route.
  destruct (current_order drone) as [current|]; [|done].
  rewrite !Hs. destruct (decide (id current = id order)) as [E|E].
  - by rewrite bool_decide_eq_true_2.
  - by rewrite bool_decide_eq_false_2.
Qed.

(** X15: with either routing class, [optimize_delivery_route] raises the
    [ValueError] unless the drone carries an order with the id of the given
    order, and then returns the four positions drone, store, customer,
    depot centre: the customer where the two legs meet appears once. *)
Theorem optimize_delivery_route_spec {Map : Type} (astar : AStarRouting.self Map)
    (this : self Position) (drone : Drone Id Position) (order : Order Id Position) :
  this = __init__ distance_to None \/
  this = __init__ distance_to (Some (astar_routing distance_to astar)) ->
  (forall current, current_order drone = Some current -> id current = id order ->
     optimize_delivery_route this drone order
       = inr [position drone; store_position order; customer_position order;
              depot_center drone]) /\
  (current_order drone = None ->
     optimize_delivery_route this drone order = inl Drone_is_not_assigned_to_this_order) /\
  (forall current, current_order drone = Some current -> id current <> id order ->
     optimize_delivery_route this drone order = inl Drone_is_not_assigned_to_this_order).
Proof.
  intros Hthis.
  assert (Hs : straight_through (routing_algorithm this)).
  { destruct Hthis as [-> | ->]; cbn.
    - apply simple_routing_straight.
    - apply astar_routing_straight. }
  rewrite (optimize_delivery_route_straight this drone order Hs).
  split; [|split].
  - intros current -> E. by rewrite decide_True.
  - by intros ->.
  - intros current -> E. by rewrite decide_False.
Qed.

(** X16: for two or more orders [optimize_multiple_deliveries] never checks
    the assignment and returns the drone position, all the stores in the
    order of the list, then all the customers, then the depot centre; for
    no order it returns the empty route, and for one order it is
    [optimize_delivery_route]. *)
Theorem optimize_multiple_deliveries_spec {Map : Type} (astar : AStarRouting.self Map)
    (this : self Position) (drone : Drone Id Position)
    (orders : list (Order Id Position)) :
  this = __init__ distance_to None \/
  this = __init__ distance_to (Some (astar_routing distance_to astar)) ->
  ((2 <= length orders)%nat ->
   optimize_multiple_deliveries this drone orders
     = inr (position drone :: map store_position orders
              ++ map customer_position orders ++ [depot_center drone])) /\
  (orders = [] -> optimize_multiple_deliveries this drone orders = inr []) /\
  (forall order, orders = [order] ->
     optimize_multiple_deliveries this drone orders
       = optimize_delivery_route this drone order).
Proof.
  intros Hthis.
  assert (Hs : straight_through (routing_algorithm this)).
  { destruct Hthis as [-> | ->]; cbn.
    - apply simple_routing_straight.
    - apply astar_routing_straight. }
  split; [|split].
  - intros Hlen. destruct orders as [|o1 [|o2 orders]]; [simpl in Hlen; lia..|].
    unfold optimize_multiple_deliveries.
    rewrite Hs, !foldl_snoc_map. cbn [app]. by rewrite <- app_assoc.
  - by intros ->.
  - by intros order ->.
Qed.

End OptimizerProps.

Lemma optimize_delivery_route_witness :
  DroneRouteOptimizer.optimize_delivery_route
    (DroneRouteOptimizer.__init__ hypot_q None) drone7 order7
    = inr [(0, 0); (3, 4); (6, 8); (9, 9)] /\
  DroneRouteOptimizer.optimize_delivery_route
    (DroneRouteOptimizer.__init__ hypot_q None) drone7 order8
    = inl Drone_is_not_assigned_to_this_order.
Proof.
  destruct (optimize_delivery_route_spec hypot_q (AStarRouting.Init unit tt 10)
              (DroneRouteOptimizer.__init__ hypot_q None) drone7 order7
              ltac:(by left)) as (H1 & _ & _).
  destruct (optimize_delivery_route_spec hypot_q (AStarRouting.Init unit tt 10)
              (DroneRouteOptimizer.__init__ hypot_q None) drone7 order8
              ltac:(by left)) as (_ & _ & H3).
  split.
  - exact (H1 order7 eq_refl eq_refl).
  - apply (H3 order7 eq_refl). discriminate.
Defined.

Lemma optimize_multiple_deliveries_witness :
  DroneRouteOptimizer.optimize_multiple_deliveries
    (DroneRouteOptimizer.__init__ hypot_q None) drone7 [order8; order7]
    = inr [(0, 0); (1, 1); (3, 4); (2, 2); (6, 8); (9, 9)].
Proof.
  destruct (optimize_multiple_deliveries_spec hypot_q (AStarRouting.Init unit tt 10)
              (DroneRouteOptimizer.__init__ hypot_q None) drone7 [order8; order7]
              ltac:(by left))
    as (H1 & _ & _).
  apply H1. simpl. lia.
Defined.

(** ** The delivery time *)

Section DeliveryTime.

Context {Position : Type}.
Variable distance_to : Position -> Position -> Q.
Variable DRONE_SPEED : Q.

(** X25: with either routing class, [calculate_delivery_time] divides the
    total polyline length of the route by the given speed, or by
    [config.DRONE_SPEED] when none is given, and raises [ZeroDivisionError]
    exactly when that speed is 0: a speed of 0 that is passed explicitly is
    not replaced by the default. *)
Theorem calculate_delivery_time_spec {Map : Type} (astar : AStarRouting.self Map)
    (this : DroneRouteOptimizer.self Position) (route : list Position)
    (drone_speed : option Q) :
  this = DroneRouteOptimizer.__init__ distance_to None \/
  this = DroneRouteOptimizer.__init__ distance_to (Some (astar_routing distance_to astar)) ->
  ((default DRONE_SPEED drone_speed == 0)%Q ->
   DroneRouteOptimizer.calculate_delivery_time DRONE_SPEED this route drone_speed
     = Raise ZeroDivisionError) /\
  (~ (default DRONE_SPEED drone_speed == 0)%Q ->
   DroneRouteOptimizer.calculate_delivery_time DRONE_SPEED this route drone_speed
     = Ret (polyline_length distance_to route / default DRONE_SPEED drone_speed)%Q).
Proof.
  intros Hthis. unfold DroneRouteOptimizer.calculate_delivery_time.
  assert (Hd : calculate_distance (DroneRouteOptimizer.routing_algorithm this) route
               = polyline_length distance_to route).
  { destruct Hthis as [-> | ->]; apply simple_calculate_distance_length. }
  rewrite Hd. split; intros Hv.
  - by rewrite (proj2 (Qeq_bool_iff _ _) Hv).
  - destruct (Qeq_bool (default DRONE_SPEED drone_speed) 0) eqn:E; [|done].
    apply Qeq_bool_iff in E. by destruct Hv.
Qed.

End DeliveryTime.

Lemma calculate_delivery_time_witness :
  DroneRouteOptimizer.calculate_delivery_time 10
    (DroneRouteOptimizer.__init__ hypot_q None) detour_route (Some 0%Q)
    = Raise ZeroDivisionError /\
  DroneRouteOptimizer.calculate_delivery_time 10
    (DroneRouteOptimizer.__init__ hypot_q None) detour_route None
    = Ret (polyline_length hypot_q detour_route / 10)%Q.
Proof.
  destruct (calculate_delivery_time_spec hypot_q 10 (AStarRouting.Init unit tt 10)
              (DroneRouteOptimizer.__init__ hypot_q None) detour_route (Some 0%Q)
              ltac:(by left)) as [H1 _].
  destruct (calculate_delivery_time_spec hypot_q 10 (AStarRouting.Init unit tt 10)
              (DroneRouteOptimizer.__init__ hypot_q None) detour_route None
              ltac:(by left)) as [_ H2].
  split; [apply H1; reflexivity | apply H2; discriminate].
Defined.

(** ** The safety check *)

Section SafetyProps.

Context {Position Building BuildingId : Type}.
Variable x y : Position -> Q.
Variable building_id : Building -> BuildingId.
Variable map_obj : Map Position Building.

Lemma out_of_bounds_false (position : Position) :
  RouteSafety.out_of_bounds x y map_obj position = false <->
  (0 <= x position)%Q /\ (x position <= width map_obj)%Q /\
  (0 <= y position)%Q /\ (y position <= height map_obj)%Q.
Proof.
  unfold RouteSafety.out_of_bounds.
  rewrite !orb_false_iff, !negb_false_iff, !Qle_bool_iff. tauto.
Qed.

(** X17: [validate_route_safety] answers [True], with the text "Route is
    safe", exactly when every position of the route lies inside the map and
    on no building (so also for the empty route); otherwise it answers
    [False] and names the first position that is outside the map or on a
    building, the bounds being tested first. *)
Theorem validate_route_safety_spec (route : list Position) :
  ((RouteSafety.validate_route_safety x y building_id route map_obj).1 = true <->
   Forall (safe_position x y map_obj) route) /\
  ((RouteSafety.validate_route_safety x y building_id route map_obj).1 = true ->
   (RouteSafety.validate_route_safety x y building_id route map_obj).2 = Route_is_safe) /\
  ((RouteSafety.validate_route_safety x y building_id route map_obj).1 = false ->
   exists before position after,
     route = before ++ position :: after /\ Forall (safe_position x y map_obj) before /\
     ((RouteSafety.out_of_bounds x y map_obj position = true /\
       (RouteSafety.validate_route_safety x y building_id route map_obj).2
         = Outside_map_bounds position) \/
      (RouteSafety.out_of_bounds x y map_obj position = false /\
       exists building, get_building_at_position map_obj position = Some building /\
         (RouteSafety.validate_route_safety x y building_id route map_obj).2
           = Collides_with_building position (building_id building)))).
Proof.
  induction route as [|position route (IH1 & IH2 & IH3)].
  - cbn. split; [done|]. split; [done|]. discriminate.
  - cbn [RouteSafety.validate_route_safety].
    destruct (RouteSafety.out_of_bounds x y map_obj position) eqn:Hb.
    { cbn. split; [|split].
      - split; [discriminate|]. intros Hall. apply list.Forall_cons in Hall as [Hs _].
        destruct Hs as (? & ? & ? & ? & _).
        assert (RouteSafety.out_of_bounds x y map_obj position = false)
          by by apply out_of_bounds_false.
        congruence.
      - discriminate.
      - intros _. exists [], position, route. split; [done|]. split; [done|].
        left. done. }
    apply out_of_bounds_false in Hb as Hb'.
    destruct (get_building_at_position map_obj position) as [building|] eqn:Hg.
    { cbn. split; [|split].
      - split; [discriminate|]. intros Hall. apply list.Forall_cons in Hall as [Hs _].
        destruct Hs as (? & ? & ? & ? & Hnone). congruence.
      - discriminate.
      - intros _. exists [], position, route. split; [done|]. split; [done|].
        right. split; [done|]. by exists building. }
    assert (Hsafe : safe_position x y map_obj position) by (unfold safe_position; tauto).
    split; [|split].
    + rewrite IH1. split.
      * intros Hall. by apply list.Forall_cons.
      * intros Hall. by apply list.Forall_cons in Hall as [_ ?].
    + done.
    + intros Hf. destruct (IH3 Hf) as (before & p & after & -> & Hbefore & Hp).
      exists (position :: before), p, after. split; [done|].
      split; [by apply list.Forall_cons|]. done.
Qed.

End SafetyProps.

(** ** The analyzer *)

Section AnalyzerProps.

Import RouteAnalyzer.

Context {Position : Type}.
Variable distance_to : Position -> Position -> Q.



Lemma min_by_total_distance_spec (items : list (nat * analysis)) :
  forall l k best, first_minimum l k best ->
    exists k', first_minimum (l ++ items) k' (min_by_total_distance best items).
Proof.
  induction items as [|item items IH]; intros l k best Hbest.
  - exists k. by rewrite app_nil_r.
  - cbn [min_by_total_distance foldl].
    destruct Hbest as (Hk & Hmin & Hfirst).
    assert (Hklt : (k < length l)%nat) by by eapply lookup_lt_Some.
    rewrite (cons_middle item l items), app_assoc.
    destruct (Qle_bool (total_distance best.2) (total_distance item.2)) eqn:Hb;
      cbn [negb].
    + apply Qle_bool_iff in Hb. apply (IH (l ++ [item]) k). split; [|split].
      * by rewrite lookup_app_l.
      * intros j e Hj. apply lookup_app_Some in Hj as [Hj|[_ Hj]].
        -- by eapply Hmin.
        -- apply list_lookup_singleton_Some in Hj as [_ <-]. done.
      * intros j e Hj Hjk. apply lookup_app_Some in Hj as [Hj|[Hge _]]; [|lia].
        by eapply Hfirst.
    + assert (Hlt : (total_distance item.2 < total_distance best.2)%Q).
      { apply Qnot_le_lt. intros H. apply Qle_bool_iff in H. congruence. }
      apply (IH (l ++ [item]) (length l)). split; [|split].
      * rewrite lookup_app_r by lia. by rewrite Nat.sub_diag.
      * intros j e Hj. apply lookup_app_Some in Hj as [Hj|[_ Hj]].
        -- pose proof (Hmin j e Hj). lra.
        -- apply list_lookup_singleton_Some in Hj as [_ <-]. apply Qle_refl.
      * intros j e Hj Hjk. apply lookup_app_Some in Hj as [Hj|[Hge _]]; [|lia].
        pose proof (Hmin j e Hj). lra.
Qed.

(** X19: for a non-empty list of routes, [compare_routes] names as best the
    first route whose total distance is minimal: no route is shorter, and
    every route before it is strictly longer.  For the empty list it
    returns the index -1. *)
Theorem compare_routes_best (routes : list (list Position)) :
  best_route_index (compare_routes distance_to []) = -1 /\
  (0 < length routes ->
   exists i best,
     best_route_index (compare_routes distance_to routes) = Z.of_nat i /\
     routes !! i = Some best /\
     best_route (compare_routes distance_to routes)
       = Some (i, analyze_route_efficiency distance_to best) /\
     (forall j route, routes !! j = Some route ->
        (total_distance (analyze_route_efficiency distance_to best)
           <= total_distance (analyze_route_efficiency distance_to route))%Q) /\
     (forall j route, routes !! j = Some route -> (j < i)%nat ->
        (total_distance (analyze_route_efficiency distance_to best)
           < total_distance (analyze_route_efficiency distance_to route))%Q))%nat.
Proof.
  split; [done|]. intros Hlen.
  unfold compare_routes.
  set (f := fun (i : nat) (route : list Position) =>
              (i, analyze_route_efficiency distance_to route)).
  destruct (imap f routes) as [|first items] eqn:Himap.
  { apply (f_equal length) in Himap. rewrite length_imap in Himap.
    simpl in Himap. lia. }
  destruct (min_by_total_distance_spec items [first] 0%nat first) as (k & Hk & Hmin & Hfirst).
  { split; [done|]. split.
    - intros j e Hj. apply list_lookup_singleton_Some in Hj as [_ <-]. apply Qle_refl.
    - intros j e _ Hj. lia. }
  change ([first] ++ items) with (first :: items) in *.
  rewrite <- Himap in Hk, Hmin, Hfirst.
  rewrite list_lookup_imap in Hk.
  destruct (routes !! k) as [best|] eqn:Hbest; [|done].
  injection Hk as Hk. cbn [best_route_index best_route].
  rewrite <- Hk in Hmin, Hfirst |- *.
  exists k, best. split; [done|]. split; [done|]. split; [done|].
  split.
  - intros j route Hj.
    specialize (Hmin j (f j route)). rewrite list_lookup_imap, Hj in Hmin.
    exact (Hmin eq_refl).
  - intros j route Hj Hjk.
    specialize (Hfirst j (f j route)). rewrite list_lookup_imap, Hj in Hfirst.
    exact (Hfirst eq_refl Hjk).
Qed.

End AnalyzerProps.


Lemma compare_routes_witness :
  exists i best,
    RouteAnalyzer.best_route_index (RouteAnalyzer.compare_routes hypot_q three_routes)
      = Z.of_nat i /\
    three_routes !! i = Some best.
Proof.
  destruct (compare_routes_best hypot_q three_routes) as [_ H].
  destruct (H ltac:(simpl; lia)) as (i & best & H1 & H2 & _).
  by exists i, best.
Defined.

(** ** The feasibility check with a drone that does not move *)

(** X20: for a drone of speed 0 and a non-empty route, the battery range is
    0: [validate_route_feasibility] raises [ZeroDivisionError] when the
    total length of the route is at most 0, as for a single position, and
    answers [False] with the battery message otherwise. *)
Theorem validate_zero_speed (Position : Type) (distance_to : Position -> Position -> Q)
    (config : Config) (drone : Drone) (p : Position) (route : list Position) :
  (speed drone == 0)%Q ->
  ((polyline_length distance_to (p :: route) <= 0)%Q ->
   RouteValidator.validate_route_feasibility Position distance_to config (p :: route) drone
     = Raise ZeroDivisionError) /\
  ((0 < polyline_length distance_to (p :: route))%Q ->
   RouteValidator.validate_route_feasibility Position distance_to config (p :: route) drone
     = Ret (false,
            Exceeds_battery_range
              (accumulate distance_to 0 (p :: route))
              (battery_level drone * speed drone * DRONE_BATTERY_LIFE config))).
Proof.
  intros Hs.
  assert (Hmax : (battery_level drone * speed drone * DRONE_BATTERY_LIFE config == 0)%Q).
  { rewrite Hs. ring. }
  unfold RouteValidator.validate_route_feasibility, polyline_length.
  rewrite <- accumulate_foldl.
  set (total := accumulate distance_to 0%Q (p :: route)).
  split.
  - intros Hle.
    assert (Hb : Qle_bool total
                   (battery_level drone * speed drone * DRONE_BATTERY_LIFE config) = true).
    { apply Qle_bool_iff. by rewrite Hmax. }
    rewrite Hb. cbn [negb].
    by rewrite (proj2 (Qeq_bool_iff _ _) Hs).
  - intros Hlt.
    assert (Hb : Qle_bool total
                   (battery_level drone * speed drone * DRONE_BATTERY_LIFE config) = false).
    { apply not_true_iff_false. intros Hb. apply Qle_bool_iff in Hb.
      rewrite Hmax in Hb. by apply Qlt_not_le in Hlt. }
    rewrite Hb. reflexivity.
Qed.

Lemma validate_zero_speed_witness :
  RouteValidator.validate_route_feasibility Point hypot_q config0 [(0, 0)] drone_at_rest
    = Raise ZeroDivisionError.
Proof.
  destruct (validate_zero_speed Point hypot_q config0 drone_at_rest (0, 0) []
              ltac:(reflexivity)) as [H _].
  apply H. discriminate.
Defined.
